(** * Pantheon-Web: the peer connection coordination layer

    A shallow embedding of the two services that negotiate peer
    connections in the web client, and of the service that calls them:

    - [Turn]: [src/services/turnService.ts], the cache of short-lived
      TURN/STUN credentials ([TurnService]);
    - [P2P]: [src/services/p2pClientServiceV2.ts], the signaling and
      WebRTC client ([P2PClientServiceV2]); [Client] adds its directory
      of models and the operations of the application;
    - [WebLLM]: [src/services/webLLMService.ts], the list of models and
      the chat requests ([WebLLMService]).

    Both services run on the single JavaScript event loop.  An [async]
    method is embedded as one function per synchronous segment: the part
    that runs up to an [await], and the part that runs when the awaited
    promise settles.  Calls into the outside world (the network, the
    WebRTC engine, timers, listeners) are recorded in a trace. *)

From stdpp Require Import gmap strings list fin_maps pretty.
From Stdlib Require Import ZArith Lia.

Open Scope Z_scope.

(** ** JavaScript values shared by both services *)

(** What a [throw] carries. *)
Inductive Exn :=
| Error (msg : string)
| TypeError (msg : string).

(** The outcome of a call that may throw (or of a promise that may
    reject). *)
Inductive Result (A : Type) :=
| Ok (a : A)
| Throw (e : Exn).
Arguments Ok {A} a.
Arguments Throw {A} e.

(** Truthiness of an optional string property: absent, [null] and the
    empty string are falsy. *)
Definition truthy (o : option string) : bool :=
  match o with
  | Some s => negb (String.eqb s "")
  | None => false
  end.

(** [RTCIceServer] as the services build it. *)
Record RTCIceServer := {
  urls : option string;
  username : option string;
  credential : option string;
  credentialType : option string
}.

Definition stun_only (u : string) : RTCIceServer :=
  {| urls := Some u; username := None; credential := None;
     credentialType := None |}.

Definition is_stun (srv : RTCIceServer) : bool :=
  match urls srv with
  | Some u => String.prefix "stun:" u
  | None => false
  end.


(** ** turnService.ts *)
Module Turn.

(** An element of an [ice_servers] array as the endpoint sends it: the
    properties [normalizeIceServers] reads. *)
Record RawServer := {
  raw_urls : option string;
  raw_url : option string;
  raw_uri : option string;
  raw_username : option string;
  raw_credential : option string;
  raw_password : option string;
  raw_credentialType : option string
}.

(** The [ice_servers] property of a response, by the cases the code
    distinguishes. *)
Inductive IceField :=
| IceAbsent                       (* undefined, null or another falsy value *)
| IceArray (l : list RawServer)   (* an array *)
| IceWrapped (l : list RawServer) (* a non-array object whose own
                                     ice_servers property is an array *)
| IceOther.                       (* any other truthy value *)

(** [TurnTokenResponse]; [ttl] is a whole number of seconds. *)
Record TurnTokenResponse := {
  ice_servers : IceField;
  ttl : Z;
  tok_username : option string;
  tok_password : option string
}.

Definition ice_truthy (f : IceField) : bool :=
  match f with
  | IceAbsent => false
  | _ => true
  end.

(** [normalizeIceServers], the body of the [map] callback. *)
Definition normalize_one (server : RawServer) : RTCIceServer :=
  {| urls :=
       if truthy (raw_urls server) then raw_urls server
       else if truthy (raw_url server) then raw_url server
       else if truthy (raw_uri server) then raw_uri server
       else None;
     username :=
       if truthy (raw_username server) then raw_username server else None;
     credential :=
       if truthy (raw_credential server) then raw_credential server
       else if truthy (raw_password server) then raw_password server
       else None;
     credentialType :=
       if truthy (raw_credentialType server) then raw_credentialType server
       else None |}.

Definition normalizeIceServers (servers : IceField)
  : Result (list RTCIceServer) :=
  match servers with
  | IceAbsent => Throw (Error "No ICE servers in response")
  | IceArray l => Ok (map normalize_one l)
  | IceWrapped l => Ok (map normalize_one l)
  | IceOther => Throw (Error "Invalid ICE servers format")
  end.

(** What the [fetch] of [/turn-token] comes back with. *)
Record HttpResponse := {
  ok : bool;
  status : Z;
  json : Result TurnTokenResponse  (* response.json() *)
}.

Inductive FetchOutcome :=
| Rejected (e : Exn)              (* fetch() itself rejects *)
| Responded (r : HttpResponse).

Definition raw_turn (u : string) (data : TurnTokenResponse) : RawServer :=
  {| raw_urls := Some u; raw_url := None; raw_uri := None;
     raw_username := tok_username data; raw_credential := tok_password data;
     raw_password := None; raw_credentialType := None |}.

Definition raw_stun (u : string) : RawServer :=
  {| raw_urls := Some u; raw_url := None; raw_uri := None;
     raw_username := None; raw_credential := None;
     raw_password := None; raw_credentialType := None |}.

(** The list built at lines 144-161. *)
Definition twilio_servers (data : TurnTokenResponse) : list RawServer :=
  [ raw_stun "stun:global.stun.twilio.com:3478";
    raw_turn "turn:global.turn.twilio.com:3478?transport=udp" data;
    raw_turn "turn:global.turn.twilio.com:3478?transport=tcp" data;
    raw_turn "turn:global.turn.twilio.com:443?transport=tcp" data ].

(** Lines 141-164: what [fetchTurnToken] does with the parsed body. *)
Definition assemble (data : TurnTokenResponse) : TurnTokenResponse :=
  if negb (ice_truthy (ice_servers data))
     && truthy (tok_username data) && truthy (tok_password data)
  then {| ice_servers := IceArray (twilio_servers data);
          ttl := ttl data;
          tok_username := tok_username data;
          tok_password := tok_password data |}
  else data.

(** [fetchTurnToken], as a function of what the network answers. *)
Definition fetchTurnToken (o : FetchOutcome) : Result TurnTokenResponse :=
  match o with
  | Rejected e => Throw e
  | Responded response =>
      if negb (ok response)
      then Throw (Error ("Failed to fetch TURN token: " +:+ pretty (status response)))
      else match json response with
           | Throw e => Throw e
           | Ok data => Ok (assemble data)
           end
  end.

(** Promises are told apart by the order in which they were created. *)
Abbreviation Promise := nat.

(** The fields of [TurnService]. *)
Record TurnService := {
  turnToken : option TurnTokenResponse;
  tokenExpiry : Z;
  fetchPromise : option Promise
}.

Definition initial : TurnService :=
  {| turnToken := None; tokenExpiry := 0; fetchPromise := None |}.

(** Where a call of [getTurnServers] stands at the end of its
    synchronous part. *)
Inductive Entry :=
| Returned (r : Result (list RTCIceServer))  (* line 29: from the cache *)
| AwaitShared (p : Promise)                   (* line 34 *)
| AwaitOwn (p : Promise).                     (* lines 39-42 *)

(** Lines 25-42.  [now] is [Date.now()]; [fresh] is the promise that
    [fetchTurnToken()] returns if it is called. *)
Definition getTurnServers_enter (now : Z) (fresh : Promise) (s : TurnService)
  : TurnService * Entry :=
  let cached :=
    match turnToken s with
    | Some tok => if now <? tokenExpiry s then Some tok else None
    | None => None
    end in
  match cached with
  | Some tok => (s, Returned (normalizeIceServers (ice_servers tok)))
  | None =>
      match fetchPromise s with
      | Some p => (s, AwaitShared p)
      | None =>
          ({| turnToken := turnToken s; tokenExpiry := tokenExpiry s;
              fetchPromise := Some fresh |}, AwaitOwn fresh)
      end
  end.

(** [!token.ice_servers || token.ice_servers.length === 0] *)
Definition no_servers (f : IceField) : bool :=
  match f with
  | IceAbsent => true
  | IceArray [] => true
  | _ => false
  end.

(** Lines 42-57: the caller that started the fetch resumes with what its
    promise settled to; [now] is [Date.now()] at that moment. *)
Definition getTurnServers_own (now : Z) (r : Result TurnTokenResponse)
    (s : TurnService) : TurnService * Result (list RTCIceServer) :=
  match r with
  | Throw e =>
      ({| turnToken := turnToken s; tokenExpiry := tokenExpiry s;
          fetchPromise := None |}, Throw e)
  | Ok token =>
      let s' := {| turnToken := Some token;
                   tokenExpiry := now + ttl token * 800;
                   fetchPromise := None |} in
      if no_servers (ice_servers token)
      then (s', Throw (Error "No TURN servers returned from signaling server"))
      else (s', normalizeIceServers (ice_servers token))
  end.

(** Lines 34-35: a caller that found a fetch in progress resumes. *)
Definition getTurnServers_shared (r : Result TurnTokenResponse)
  : Result (list RTCIceServer) :=
  match r with
  | Throw e => Throw e
  | Ok token => normalizeIceServers (ice_servers token)
  end.

(** [clearCache]; no code of the repository calls it. *)
Definition clearCache (s : TurnService) : TurnService := initial.

(** *** The service on the event loop

    Callers are numbered.  [requests] counts the calls of
    [fetchTurnToken], each of which issues one network request and
    creates one promise. *)
Abbreviation Caller := nat.

Record Loop := {
  svc : TurnService;
  clock : Z;                        (* the last value of Date.now() *)
  requests : nat;
  inflight : list Promise;          (* promises not yet settled *)
  owner : list (Caller * Promise);  (* suspended at line 42 *)
  sharers : list (Caller * Promise);(* suspended at line 34 *)
  answers : list (Caller * Result (list RTCIceServer));
  fetchedAt : Z                     (* Date.now() at line 45, last time *)
}.

Definition boot : Loop :=
  {| svc := initial; clock := 0; requests := 0; inflight := [];
     owner := []; sharers := []; answers := []; fetchedAt := 0 |}.

Inductive Event :=
| Call (c : Caller) (now : Z)
| Settle (p : Promise) (now : Z) (o : FetchOutcome).

Definition call (c : Caller) (now : Z) (w : Loop) : Loop :=
  match getTurnServers_enter now (requests w) (svc w) with
  | (s, Returned r) =>
      {| svc := s; clock := now; requests := requests w;
         inflight := inflight w; owner := owner w; sharers := sharers w;
         answers := answers w ++ [(c, r)]; fetchedAt := fetchedAt w |}
  | (s, AwaitShared p) =>
      {| svc := s; clock := now; requests := requests w;
         inflight := inflight w; owner := owner w;
         sharers := sharers w ++ [(c, p)];
         answers := answers w; fetchedAt := fetchedAt w |}
  | (s, AwaitOwn p) =>
      {| svc := s; clock := now; requests := S (requests w);
         inflight := inflight w ++ [p]; owner := owner w ++ [(c, p)];
         sharers := sharers w; answers := answers w;
         fetchedAt := fetchedAt w |}
  end.

Definition waits_on (p : Promise) (x : Caller * Promise) : bool :=
  Nat.eqb (snd x) p.

(** The owner's continuation runs first (it awaited first), then the
    sharers' in the order they arrived. *)
Definition resume_owner (now : Z) (r : Result TurnTokenResponse)
    (acc : TurnService * list (Caller * Result (list RTCIceServer)))
    (x : Caller * Promise)
  : TurnService * list (Caller * Result (list RTCIceServer)) :=
  let (s, out) := getTurnServers_own now r (fst acc) in
  (s, snd acc ++ [(fst x, out)]).

Definition settle (p : Promise) (now : Z) (o : FetchOutcome) (w : Loop) : Loop :=
  let r := fetchTurnToken o in
  let (s, own_answers) :=
    fold_left (resume_owner now r) (filter (λ x, waits_on p x = true) (owner w))
              (svc w, []) in
  let shared_answers :=
    map (λ x : Caller * Promise, (fst x, getTurnServers_shared r))
        (filter (λ x, waits_on p x = true) (sharers w)) in
  {| svc := s; clock := now; requests := requests w;
     inflight := filter (λ q, q ≠ p) (inflight w);
     owner := filter (λ x, waits_on p x ≠ true) (owner w);
     sharers := filter (λ x, waits_on p x ≠ true) (sharers w);
     answers := answers w ++ own_answers ++ shared_answers;
     fetchedAt := match r with Ok _ => now | Throw _ => fetchedAt w end |}.

(** An event can happen when the clock has not gone back ([Date.now()]
    is taken to be monotone) and, for a settlement, when its promise is
    still in flight. *)
Definition enabled (e : Event) (w : Loop) : bool :=
  match e with
  | Call _ now => clock w <=? now
  | Settle p now _ => (clock w <=? now) && bool_decide (p ∈ inflight w)
  end.

Definition step (w : Loop) (e : Event) : option Loop :=
  if enabled e w
  then Some match e with
            | Call c now => call c now w
            | Settle p now o => settle p now o w
            end
  else None.

Fixpoint run (w : Loop) (es : list Event) : option Loop :=
  match es with
  | [] => Some w
  | e :: es' =>
      match step w e with
      | Some w' => run w' es'
      | None => None
      end
  end.

(** *** Vocabulary of the statements *)


(** What holds of the service between any two events. *)
Record turn_inv (w : Loop) : Prop := {
  inv_inflight :
    inflight w = match fetchPromise (svc w) with
                 | Some p => [p]
                 | None => []
                 end;
  inv_owner :
    match fetchPromise (svc w) with
    | Some p => ∃ c, owner w = [(c, p)]
    | None => owner w = []
    end;
  inv_sharers :
    ∀ x, x ∈ sharers w → fetchPromise (svc w) = Some (snd x);
  inv_stale :
    ∀ p tok, fetchPromise (svc w) = Some p →
             turnToken (svc w) = Some tok → tokenExpiry (svc w) <= clock w;
  inv_expiry :
    ∀ tok, turnToken (svc w) = Some tok →
           tokenExpiry (svc w) = fetchedAt w + ttl tok * 800
}.

End Turn.

(** ** p2pClientServiceV2.ts *)

(** [null < s] for a string [s]: JavaScript compares the two as numbers.
    [currentUserId] is [null] until [initialize] has run, and the collision
    rule reads it with a non-null assertion; what the comparison gives
    then is left to the engine. *)
Class JsEngine := { null_lt : string → bool }.

Module P2P.

(** A signal as relayed by the signaling server: its [type] property
    (absent on ICE candidates) and the rest of the payload. *)
Record Signal := {
  sig_type : option string;
  sig_body : string
}.

Definition has_type (t : string) (signal : Signal) : bool :=
  match sig_type signal with
  | Some u => String.eqb u t
  | None => false
  end.

(** [RTCPeerConnection.signalingState] *)
Inductive SignalingState :=
| stable
| have_local_offer
| have_remote_offer
| have_local_pranswer
| have_remote_pranswer
| closed.

Definition is_stable (s : SignalingState) : bool :=
  match s with
  | stable => true
  | _ => false
  end.

(** A [SimplePeer.Instance], by the properties the service reads and the
    options it was created with.  [_pc] is [None] when the private [_pc]
    property is falsy, else the signaling state of the connection.
    [handlers] is the user id that the event handlers registered on the
    object close over. *)
Record SimplePeer := {
  initiator : bool;
  iceServers : list RTCIceServer;
  destroyed : bool;
  connected : bool;
  _pc : option SignalingState;
  handlers : option string
}.

(** Objects are told apart by their place in the heap. *)
Abbreviation Ref := nat.

Inductive Status := disconnected | connecting | connected_ | error.

Inductive Timer :=
| RequestPeerList
| Reconnect
| RequestTimeout (requestId : string)
| ConnectTimeout (userId : string).

(** What the service asks of the outside world, in the order asked. *)
Inductive Effect :=
| PeerSignal (peer : Ref) (signal : Signal)   (* peer.signal(signal) *)
| PeerSend (peer : Ref) (type requestId : string)
| Sleep (ms : Z)                               (* await of a bare timer *)
| SetTimeout (ms : Z) (t : Timer)
| SetInterval (ms : Z) (requestId : string)
| ClearInterval (requestId : string)
| ClearTimeout (requestId : string)
| StatusChange (s : Status) (err : option string)
| Emit (event : string)                        (* socket.emit *)
| OpenSocket                                   (* io(url, ...) *)
| Resolved (requestId : string) (data : string)
| Rejected (requestId : string) (e : Exn).

(** An entry of [pendingRequests].  The closures stored there capture
    the request's peer, whether a keep-alive interval runs, and the
    timeout. *)
Record Pending := {
  req_peer : string;
  req_keepAlive : bool;
  req_timeout : Z
}.

Record Service := {
  heap : list SimplePeer;
  peers : gmap string Ref;
  connectingPeers : gset string;
  pendingRequests : gmap string Pending;
  queuedSignals : gmap string (list Signal);
  currentUserId : option string;
  status : Status;
  reconnectAttempts : Z;
  trace : list Effect
}.

Definition maxReconnectAttempts : Z := 5.
Definition reconnectDelay : Z := 2000.

Definition fresh (userId : option string) : Service :=
  {| heap := []; peers := ∅; connectingPeers := ∅; pendingRequests := ∅;
     queuedSignals := ∅; currentUserId := userId; status := disconnected;
     reconnectAttempts := 0; trace := [] |}.

(** Field updates. *)
Definition set_heap (h : list SimplePeer) (st : Service) : Service :=
  {| heap := h; peers := peers st; connectingPeers := connectingPeers st;
     pendingRequests := pendingRequests st; queuedSignals := queuedSignals st;
     currentUserId := currentUserId st; status := status st;
     reconnectAttempts := reconnectAttempts st; trace := trace st |}.

Definition set_peers (m : gmap string Ref) (st : Service) : Service :=
  {| heap := heap st; peers := m; connectingPeers := connectingPeers st;
     pendingRequests := pendingRequests st; queuedSignals := queuedSignals st;
     currentUserId := currentUserId st; status := status st;
     reconnectAttempts := reconnectAttempts st; trace := trace st |}.

Definition set_connectingPeers (c : gset string) (st : Service) : Service :=
  {| heap := heap st; peers := peers st; connectingPeers := c;
     pendingRequests := pendingRequests st; queuedSignals := queuedSignals st;
     currentUserId := currentUserId st; status := status st;
     reconnectAttempts := reconnectAttempts st; trace := trace st |}.

Definition set_pendingRequests (m : gmap string Pending) (st : Service) : Service :=
  {| heap := heap st; peers := peers st; connectingPeers := connectingPeers st;
     pendingRequests := m; queuedSignals := queuedSignals st;
     currentUserId := currentUserId st; status := status st;
     reconnectAttempts := reconnectAttempts st; trace := trace st |}.

Definition set_queuedSignals (m : gmap string (list Signal)) (st : Service) : Service :=
  {| heap := heap st; peers := peers st; connectingPeers := connectingPeers st;
     pendingRequests := pendingRequests st; queuedSignals := m;
     currentUserId := currentUserId st; status := status st;
     reconnectAttempts := reconnectAttempts st; trace := trace st |}.

Definition set_status (s : Status) (st : Service) : Service :=
  {| heap := heap st; peers := peers st; connectingPeers := connectingPeers st;
     pendingRequests := pendingRequests st; queuedSignals := queuedSignals st;
     currentUserId := currentUserId st; status := s;
     reconnectAttempts := reconnectAttempts st; trace := trace st |}.

Definition set_reconnectAttempts (n : Z) (st : Service) : Service :=
  {| heap := heap st; peers := peers st; connectingPeers := connectingPeers st;
     pendingRequests := pendingRequests st; queuedSignals := queuedSignals st;
     currentUserId := currentUserId st; status := status st;
     reconnectAttempts := n; trace := trace st |}.

Definition emit (e : Effect) (st : Service) : Service :=
  {| heap := heap st; peers := peers st; connectingPeers := connectingPeers st;
     pendingRequests := pendingRequests st; queuedSignals := queuedSignals st;
     currentUserId := currentUserId st; status := status st;
     reconnectAttempts := reconnectAttempts st; trace := trace st ++ [e] |}.

Definition emits (es : list Effect) (st : Service) : Service :=
  {| heap := heap st; peers := peers st; connectingPeers := connectingPeers st;
     pendingRequests := pendingRequests st; queuedSignals := queuedSignals st;
     currentUserId := currentUserId st; status := status st;
     reconnectAttempts := reconnectAttempts st; trace := trace st ++ es |}.

(** *** The SimplePeer objects *)

(** [new SimplePeer({ initiator, config: { iceServers, ... } })]: a new
    object, neither connected nor destroyed, over a new connection. *)
Definition new_SimplePeer (init : bool) (servers : list RTCIceServer)
    (st : Service) : Ref * Service :=
  (length (heap st),
   set_heap (heap st ++ [ {| initiator := init; iceServers := servers;
                             destroyed := false; connected := false;
                             _pc := Some stable; handlers := None |} ]) st).

(** [peer.destroy()]: the object is destroyed, and its connection
    released, before the next event is handled. *)
Definition destroy_obj (o : SimplePeer) : SimplePeer :=
  {| initiator := initiator o; iceServers := iceServers o;
     destroyed := true; connected := false; _pc := None;
     handlers := handlers o |}.

Definition peer_destroy (peer : Ref) (st : Service) : Service :=
  match heap st !! peer with
  | Some o => set_heap (<[peer := destroy_obj o]> (heap st)) st
  | None => st
  end.

(** [peer.destroyed]; a reference always names an object of the heap. *)
Definition peer_destroyed (peer : Ref) (st : Service) : bool :=
  match heap st !! peer with
  | Some o => destroyed o
  | None => true
  end.

Definition peer_connected (peer : Ref) (st : Service) : bool :=
  match heap st !! peer with
  | Some o => connected o
  | None => false
  end.

(** The engine opens the data channel of an object: [peer.connected]
    becomes true and the connection is settled. *)
Definition open_obj (o : SimplePeer) : SimplePeer :=
  {| initiator := initiator o; iceServers := iceServers o;
     destroyed := destroyed o; connected := true; _pc := Some stable;
     handlers := handlers o |}.

Definition engine_opens (peer : Ref) (st : Service) : Service :=
  match heap st !! peer with
  | Some o => set_heap (<[peer := open_obj o]> (heap st)) st
  | None => st
  end.

(** The engine moves the connection of an object to another signaling
    state. *)
Definition negotiating_obj (s : SignalingState) (o : SimplePeer) : SimplePeer :=
  {| initiator := initiator o; iceServers := iceServers o;
     destroyed := destroyed o; connected := connected o; _pc := Some s;
     handlers := handlers o |}.

Definition engine_negotiates (peer : Ref) (s : SignalingState) (st : Service)
  : Service :=
  match heap st !! peer with
  | Some o => set_heap (<[peer := negotiating_obj s o]> (heap st)) st
  | None => st
  end.

(** [peer.signal(signal)]: refused with an exception once the object is
    destroyed, else handed to the connection. *)
Definition peer_signal (peer : Ref) (signal : Signal) (st : Service)
  : Result Service :=
  if peer_destroyed peer st
  then Throw (Error "cannot signal after peer is destroyed")
  else Ok (emit (PeerSignal peer signal) st).

(** [peer.send(JSON.stringify({ type, requestId, data }))] *)
Definition peer_send (peer : Ref) (type requestId : string) (st : Service)
  : Result Service :=
  if peer_destroyed peer st
  then Throw (Error "cannot send after peer is destroyed")
  else Ok (emit (PeerSend peer type requestId) st).

(** [setupPeerEventHandlers(peer, userId)], and the same handlers as
    [createPeerConnection] registers them. *)
Definition bind_obj (userId : string) (o : SimplePeer) : SimplePeer :=
  {| initiator := initiator o; iceServers := iceServers o;
     destroyed := destroyed o; connected := connected o; _pc := _pc o;
     handlers := Some userId |}.

Definition setupPeerEventHandlers (peer : Ref) (userId : string)
    (st : Service) : Service :=
  match heap st !! peer with
  | Some o => set_heap (<[peer := bind_obj userId o]> (heap st)) st
  | None => st
  end.

(** [closePeerConnection] *)
Definition closePeerConnection (userId : string) (st : Service) : Service :=
  let st1 :=
    match peers st !! userId with
    | Some peer => set_peers (delete userId (peers st)) (peer_destroy peer st)
    | None => st
    end in
  let st2 := set_connectingPeers (connectingPeers st1 ∖ {[userId]}) st1 in
  set_queuedSignals (delete userId (queuedSignals st2)) st2.

(** The ['close'] handler of a peer object. *)
Definition peer_on_close (userId : string) (st : Service) : Service :=
  set_peers (delete userId (peers st)) st.

(** The ['error'] handler of a peer object. *)
Definition peer_on_error (userId : string) (st : Service) : Service :=
  closePeerConnection userId st.

(** *** handleWebRTCSignal *)

(** Where a call of [handleWebRTCSignal] stands at the end of a
    synchronous part: returned; suspended at line 617 on
    [turnService.getTurnServers()]; or suspended at line 688 on the
    10 ms timer of the replay loop, with the signals of the queue still
    to be replayed. *)
Inductive Next :=
| Done
| AwaitTurn (fromUserId : string) (signal : Signal)
| AwaitTimer (fromUserId : string) (peer : Ref) (rest : list Signal)
    (signal : Signal).

Section Handler.
Context `{JsEngine}.

(** [this.currentUserId! < fromUserId], line 560: strings compare
    character by character. *)
Definition weArePolite (fromUserId : string) (st : Service) : bool :=
  match currentUserId st with
  | Some me => String.ltb me fromUserId
  | None => null_lt fromUserId
  end.

(** The guard of lines 554-556. *)
Definition in_collision (signal : Signal) (peer : option Ref) (st : Service)
  : bool :=
  match peer with
  | Some p =>
      match heap st !! p with
      | Some o =>
          has_type "offer" signal && negb (destroyed o) &&
          match _pc o with
          | Some s => negb (is_stable s)
          | None => false
          end
      | None => false
      end
  | None => false
  end.

(** Lines 589-592. *)
Definition enqueue (fromUserId : string) (signal : Signal) (st : Service)
  : Service :=
  let q := default [] (queuedSignals st !! fromUserId) in
  set_queuedSignals (<[fromUserId := q ++ [signal]]> (queuedSignals st)) st.

(** Lines 576-611, entered when [peer] is absent or destroyed. *)
Definition without_peer (fromUserId : string) (signal : Signal)
    (peer : option Ref) (st : Service) : Service * Next :=
  (* lines 578-582 *)
  let st1 :=
    match peer with
    | Some _ =>
        set_connectingPeers (connectingPeers st ∖ {[fromUserId]})
          (set_peers (delete fromUserId (peers st)) st)
    | None => st
    end in
  (* lines 585-594 *)
  if bool_decide (fromUserId ∈ connectingPeers st1)
  then (enqueue fromUserId signal st1, Done)
  (* lines 598-601 *)
  else if negb (has_type "offer" signal) then (st1, Done)
  (* lines 604-607 *)
  else if bool_decide (fromUserId ∈ connectingPeers st1) then (st1, Done)
  (* line 611, then the await of line 617 *)
  else (set_connectingPeers ({[fromUserId]} ∪ connectingPeers st1) st1,
        AwaitTurn fromUserId signal).

(** Lines 698-718. *)
Definition deliver (signal : Signal) (peer : option Ref) (st : Service)
  : Service :=
  match peer with
  | Some p =>
      match heap st !! p with
      | Some o =>
          if negb (destroyed o)
          then
            if match _pc o with
               | Some s => has_type "answer" signal && is_stable s
               | None => false
               end
            then st
            else match peer_signal p signal st with
                 | Ok st' => st'
                 | Throw _ => st
                 end
          else st
      | None => st
      end
  | None => st
  end.

(** Lines 547-617 and, when a live peer is at hand, 698-718. *)
Definition handleWebRTCSignal (fromUserId : string) (signal : Signal)
    (st : Service) : Service * Next :=
  let peer := peers st !! fromUserId in
  if in_collision signal peer st
  then
    if weArePolite fromUserId st
    then
      (* lines 565-568 *)
      let st1 :=
        match peer with
        | Some p => peer_destroy p st
        | None => st
        end in
      let st2 := set_peers (delete fromUserId (peers st1)) st1 in
      let st3 :=
        set_connectingPeers (connectingPeers st2 ∖ {[fromUserId]}) st2 in
      without_peer fromUserId signal None st3
    else (st, Done)
  else
    match peer with
    | Some p =>
        if peer_destroyed p st
        then without_peer fromUserId signal peer st
        else (deliver signal peer st, Done)
    | None => without_peer fromUserId signal None st
    end.

(** The configuration of lines 636-639. *)
Definition stun_fallback : list RTCIceServer :=
  [ stun_only "stun:stun.l.google.com:19302";
    stun_only "stun:stun1.l.google.com:19302" ].

(** Lines 685-718, from the head of the loop over the queue: a signal
    that the object takes is followed by a wait of 10 ms, at which the
    handler is suspended; one that it refuses is skipped at once.  After
    the last signal the queue is deleted (line 693) and the signal that
    started the attempt is delivered (lines 698-718).  The array is not
    pushed to while the loop runs over it: a push needs the peer in the
    connecting set, which line 673 has just made it leave. *)
Fixpoint replay_loop (fromUserId : string) (peer : Ref) (rest : list Signal)
    (signal : Signal) (st : Service) : Service * Next :=
  match rest with
  | [] =>
      (deliver signal (Some peer)
         (set_queuedSignals (delete fromUserId (queuedSignals st)) st), Done)
  | queuedSignal :: rest' =>
      match peer_signal peer queuedSignal st with
      | Ok st' => (emit (Sleep 10) st', AwaitTimer fromUserId peer rest' signal)
      | Throw _ => replay_loop fromUserId peer rest' signal st
      end
  end.

(** Lines 617-688: the handler resumes with what
    [turnService.getTurnServers()] settled to. *)
Definition handleWebRTCSignal_resume (fromUserId : string) (signal : Signal)
    (fetched : Result (list RTCIceServer)) (st : Service) : Service * Next :=
  let servers :=
    match fetched with
    | Ok l => l
    | Throw _ => stun_fallback
    end in
  let (peer, st1) := new_SimplePeer false servers st in
  let st2 := set_peers (<[fromUserId := peer]> (peers st1)) st1 in
  let st3 := set_connectingPeers (connectingPeers st2 ∖ {[fromUserId]}) st2 in
  let st4 := setupPeerEventHandlers peer fromUserId st3 in
  match queuedSignals st4 !! fromUserId with
  | Some q =>
      if (0 <? length q)%nat
      then replay_loop fromUserId peer q signal st4
      else (deliver signal (Some peer) st4, Done)
  | None => (deliver signal (Some peer) st4, Done)
  end.

(** Lines 688-718: the handler resumes when the timer of the replay loop
    fires. *)
Definition handleWebRTCSignal_timer (fromUserId : string) (peer : Ref)
    (rest : list Signal) (signal : Signal) (st : Service) : Service * Next :=
  replay_loop fromUserId peer rest signal st.

(** The replay loop run to its end on the event loop: at each wait the
    next of [others], the handlers of the events that arrive meanwhile,
    runs before the timer fires. *)
Fixpoint replay_among (others : list (Service → Service))
    (fromUserId : string) (peer : Ref) (rest : list Signal) (signal : Signal)
    (st : Service) : Service :=
  match rest with
  | [] => fst (handleWebRTCSignal_timer fromUserId peer [] signal st)
  | queuedSignal :: rest' =>
      match peer_signal peer queuedSignal st with
      | Ok st' =>
          replay_among (tail others) fromUserId peer rest' signal
            (hd id others (emit (Sleep 10) st'))
      | Throw _ => replay_among others fromUserId peer rest' signal st
      end
  end.

(** The resumed handler run to its end among [others]. *)
Definition resume_among (others : list (Service → Service))
    (fromUserId : string) (signal : Signal)
    (fetched : Result (list RTCIceServer)) (st : Service) : Service :=
  match handleWebRTCSignal_resume fromUserId signal fetched st with
  | (st', AwaitTimer f p rest s) =>
      replay_among (tail others) f p rest s (hd id others st')
  | (st', _) => st'
  end.

(** The resumed handler run to its end with no other event in between. *)
Definition resume_alone (fromUserId : string) (signal : Signal)
    (fetched : Result (list RTCIceServer)) (st : Service) : Service :=
  resume_among [] fromUserId signal fetched st.

(** A signal handled from arrival to the end, the credentials settling
    to [fetched] and the timers firing before any other event is
    handled. *)
Definition handle_alone (fromUserId : string) (signal : Signal)
    (fetched : Result (list RTCIceServer)) (st : Service) : Service :=
  match handleWebRTCSignal fromUserId signal st with
  | (st1, AwaitTurn f s) => resume_alone f s fetched st1
  | (st1, _) => st1
  end.

(** Signals of one peer arriving one after the other. *)
Definition arrivals (fromUserId : string) (signals : list Signal)
    (st : Service) : Service :=
  fold_left (λ s signal, fst (handleWebRTCSignal fromUserId signal s))
            signals st.

End Handler.

(** The live connection object held for a peer: [Some true] when it
    is an initiator, [Some false] when it answers, [None] when there is
    none. *)
Definition role (userId : string) (st : Service) : option bool :=
  match peers st !! userId with
  | Some p =>
      match heap st !! p with
      | Some o => if destroyed o then None else Some (initiator o)
      | None => None
      end
  | None => None
  end.

(** *** createPeerConnection and connectToPeer *)

(** A call of a property that the class of the receiver does not
    declare: the property is [undefined], and calling it throws. *)
Definition call_undefined {A : Type} (name : string) : Result A :=
  Throw (TypeError (name +:+ " is not a function")).

(** Lines 822-843.  [TurnService] declares [getTurnServers],
    [normalizeIceServers], [fetchTurnToken] and [clearCache]; it has no
    [getFallbackTurnServers]. *)
Definition outbound_iceServers (fetched : Result (list RTCIceServer))
  : Result (list RTCIceServer) :=
  match fetched with
  | Ok l => Ok l
  | Throw _ => call_undefined "turnService.getFallbackTurnServers"
  end.

(** Lines 825-965: [createPeerConnection] resumes with what
    [turnService.getTurnServers()] settled to. *)
Definition createPeerConnection (userId : string) (init : bool)
    (fetched : Result (list RTCIceServer)) (st : Service)
  : Service * Result Ref :=
  match outbound_iceServers fetched with
  | Throw e => (st, Throw e)
  | Ok servers =>
      let (peer, st1) := new_SimplePeer init servers st in
      let st2 := set_peers (<[userId := peer]> (peers st1)) st1 in
      (setupPeerEventHandlers peer userId st2, Ok peer)
  end.

(** Where [connectToPeer] stands. *)
Inductive Connecting :=
| AlreadyConnected
| AwaitPeer (userId : string).

(** Lines 1089-1109. *)
Definition connectToPeer (userId : string) (st : Service)
  : Service * Connecting :=
  match peers st !! userId with
  | Some p =>
      if negb (peer_destroyed p st) && peer_connected p st
      then (st, AlreadyConnected)
      else if peer_destroyed p st
      then (set_connectingPeers (connectingPeers st ∖ {[userId]})
              (set_peers (delete userId (peers st)) st), AwaitPeer userId)
      else (st, AwaitPeer userId)
  | None => (st, AwaitPeer userId)
  end.

(** Lines 1108-1150: the promise of [connectToPeer] is rejected at once
    when [createPeerConnection] throws; else it stays pending under a
    15 s timer. *)
Definition connectToPeer_resume (userId : string)
    (fetched : Result (list RTCIceServer)) (st : Service)
  : Service * Result Ref :=
  match createPeerConnection userId true fetched st with
  | (st1, Throw e) => (st1, Throw e)
  | (st1, Ok peer) => (emit (SetTimeout 15000 (ConnectTimeout userId)) st1, Ok peer)
  end.

(** *** Requests over a channel *)

(** Lines 1031-1083; [requestId] is the identifier drawn at line 1037.
    [Ok] leaves the promise pending. *)
Definition sendRequestToPeer (userId messageType requestId : string)
    (timeout : Z) (st : Service) : Service * Result unit :=
  match peers st !! userId with
  | Some peer =>
      if negb (peer_connected peer st)
      then (st, Throw (Error ("Not connected to peer " +:+ userId)))
      else
        let keepAlive := String.eqb messageType "chat" in
        let st1 := if keepAlive then emit (SetInterval 20000 requestId) st
                   else st in
        let st2 := emit (SetTimeout timeout (RequestTimeout requestId)) st1 in
        let st3 :=
          set_pendingRequests
            (<[requestId := {| req_peer := userId; req_keepAlive := keepAlive;
                               req_timeout := timeout |}]>
               (pendingRequests st2)) st2 in
        match peer_send peer messageType requestId st3 with
        | Ok st4 => (st4, Ok tt)
        | Throw e => (st3, Throw e)
        end
  | None => (st, Throw (Error ("Not connected to peer " +:+ userId)))
  end.

(** [if (keepAliveInterval) clearInterval(keepAliveInterval)] *)
Definition stop_keepAlive (requestId : string) (r : Pending) (st : Service)
  : Service :=
  if req_keepAlive r then emit (ClearInterval requestId) st else st.

(** Lines 1059-1063: the timer of a request fires.  The timer is cleared
    when the entry is resolved or rejected, so it fires only on an entry
    that is still in the table. *)
Definition request_timeout (requestId : string) (st : Service) : Service :=
  match pendingRequests st !! requestId with
  | Some r =>
      let st1 := stop_keepAlive requestId r st in
      let st2 := set_pendingRequests (delete requestId (pendingRequests st1)) st1 in
      emit (Rejected requestId (Error "Request timeout")) st2
  | None => st
  end.

(** The messages of a peer that [handlePeerMessage] settles a request
    with; the other messages do not touch the table of requests. *)
Inductive PeerMessage :=
| Response (requestId : option string) (data : string)
| ErrorReply (requestId : option string) (err : string)
| OtherMessage.

(** The stored [resolve] and [reject], lines 1066-1075. *)
Definition settle_request (requestId : string) (r : Pending) (e : Effect)
    (st : Service) : Service :=
  emit e (emit (ClearTimeout requestId) (stop_keepAlive requestId r st)).

(** Lines 1000-1011. *)
Definition handlePeerMessage (fromUserId : string) (message : PeerMessage)
    (st : Service) : Service :=
  match message with
  | Response requestId data =>
      if truthy requestId
      then match requestId with
           | Some rid =>
               match pendingRequests st !! rid with
               | Some r =>
                   let st1 := settle_request rid r (Resolved rid data) st in
                   set_pendingRequests (delete rid (pendingRequests st1)) st1
               | None => st
               end
           | None => st
           end
      else st
  | ErrorReply requestId err =>
      if truthy requestId
      then match requestId with
           | Some rid =>
               match pendingRequests st !! rid with
               | Some r =>
                   let st1 := settle_request rid r (Rejected rid (Error err)) st in
                   set_pendingRequests (delete rid (pendingRequests st1)) st1
               | None => st
               end
           | None => st
           end
      else st
  | OtherMessage => st
  end.

(** *** The link to the signaling server *)

(** [updateStatus] *)
Definition updateStatus (s : Status) (err : option string) (st : Service)
  : Service :=
  emit (StatusChange s err) (set_status s st).

(** [scheduleReconnect], lines 1260-1279. *)
Definition scheduleReconnect (st : Service) : Service :=
  if maxReconnectAttempts <=? reconnectAttempts st
  then updateStatus error (Some "Max reconnection attempts reached") st
  else
    let st1 := set_reconnectAttempts (reconnectAttempts st + 1) st in
    let delay := reconnectDelay * reconnectAttempts st1 in
    emit (SetTimeout delay Reconnect) st1.

(** The ['disconnect'] handler, lines 535-541. *)
Definition on_disconnect (reason : string) (st : Service) : Service :=
  if negb (String.eqb reason "io client disconnect")
  then scheduleReconnect (updateStatus disconnected None st)
  else st.

(** The ['connect'] handler, lines 446-459. *)
Definition on_connect (st : Service) : Service :=
  emit (SetTimeout 500 RequestPeerList)
    (emit (Emit "join-account")
       (updateStatus connected_ None (set_reconnectAttempts 0 st))).

(** The ['connect_error'] handler, lines 461-465. *)
Definition on_connect_error (msg : string) (st : Service) : Service :=
  updateStatus error (Some msg) st.

(** [connect], lines 424-430; [socketConnected] is
    [this.socket?.connected]. *)
Definition connect (socketConnected : bool) (st : Service) : Service :=
  if socketConnected then st
  else emit OpenSocket (updateStatus connecting None st).

(** The timer set by [scheduleReconnect] fires, lines 1272-1278. *)
Definition reconnect_timer (socketConnected : bool) (st : Service) : Service :=
  match status st with
  | connected_ => st
  | _ => connect socketConnected st
  end.

(** What reaches the link. *)
Inductive LinkEvent :=
| Disconnect (reason : string)
| Connect
| ConnectError (msg : string)
| ReconnectTimer (socketConnected : bool).

Definition link_step (st : Service) (e : LinkEvent) : Service :=
  match e with
  | Disconnect reason => on_disconnect reason st
  | Connect => on_connect st
  | ConnectError msg => on_connect_error msg st
  | ReconnectTimer c => reconnect_timer c st
  end.

Definition link_run (st : Service) (es : list LinkEvent) : Service :=
  fold_left link_step es st.

(** The delays of the reconnection timers set, in order. *)
Definition reconnect_delays (tr : list Effect) : list Z :=
  omap (λ e, match e with
             | SetTimeout ms Reconnect => Some ms
             | _ => None
             end) tr.

(** The terminal errors surfaced. *)
Definition is_terminal_error (e : Effect) : bool :=
  match e with
  | StatusChange error (Some msg) =>
      String.eqb msg "Max reconnection attempts reached"
  | _ => false
  end.

Definition terminal_errors (tr : list Effect) : nat :=
  length (filter (λ e, is_terminal_error e = true) tr).

(** *** Vocabulary of the statements *)

(** The object that the inbound path creates. *)
Definition answering_peer (fromUserId : string)
    (fetched : Result (list RTCIceServer)) : SimplePeer :=
  {| initiator := false;
     iceServers := match fetched with
                   | Ok l => l
                   | Throw _ => stun_fallback
                   end;
     destroyed := false; connected := false; _pc := Some stable;
     handlers := Some fromUserId |}.

(** The service once the inbound path has created and stored its
    object (lines 642-676). *)
Definition answering (fromUserId : string)
    (fetched : Result (list RTCIceServer)) (st : Service) : Service :=
  set_heap (heap st ++ [answering_peer fromUserId fetched])
    (set_connectingPeers (connectingPeers st ∖ {[fromUserId]})
       (set_peers (<[fromUserId := length (heap st)]> (peers st)) st)).

(** The trace of a replay: each signal of the queue and its wait, and
    after it what the handlers that ran during the wait asked for. *)
Fixpoint weave (peer : Ref) (q : list Signal) (between : list (list Effect))
  : list Effect :=
  match q with
  | [] => []
  | s :: q' =>
      PeerSignal peer s :: Sleep 10
        :: (hd [] between ++ weave peer q' (tail between))
  end.


(** Every object stored in [peers] is alive and carries the handlers
    registered for the user it is stored under.  The service stores an
    object when it has created it and removes the entry whenever it
    destroys the object (lines 565-566, 974-975, 1351-1352); the
    ['close'] handler (lines 806-808, 958-960) removes it when the
    object is destroyed otherwise. *)
Definition live_entries (st : Service) : Prop :=
  ∀ user p, peers st !! user = Some p →
    ∃ o, heap st !! p = Some o ∧ destroyed o = false ∧ handlers o = Some user.

(** A peer's connection object that is alive and in the middle of a
    negotiation. *)
Definition mid_negotiation (userId : string) (p : Ref) (o : SimplePeer)
    (st : Service) : Prop :=
  peers st !! userId = Some p ∧ heap st !! p = Some o ∧
  destroyed o = false ∧ ∃ s, _pc o = Some s ∧ is_stable s = false.

End P2P.

(** ** Scenarios

    Concrete runs of the two services, used to exercise the statements
    below. *)
Module Scenario.

(** The scenarios run a service that [initialize] has given an
    identity, so the comparison of [null] with a string is never
    consulted. *)
Definition engine : JsEngine := {| null_lt := λ _, false |}.

(** A response that carries one STUN server and a TTL of one hour. *)
Definition hour_token : Turn.TurnTokenResponse :=
  {| Turn.ice_servers := Turn.IceArray [Turn.raw_stun "stun:global.stun.twilio.com:3478"];
     Turn.ttl := 3600;
     Turn.tok_username := None;
     Turn.tok_password := None |}.

Definition response_of (data : Turn.TurnTokenResponse) : Turn.HttpResponse :=
  {| Turn.ok := true; Turn.status := 200; Turn.json := Ok data |}.

Definition answered (data : Turn.TurnTokenResponse) : Turn.FetchOutcome :=
  Turn.Responded (response_of data).

(** Caller 1 starts a fetch at 1000 ms. *)
Definition one_caller : list Turn.Event := [Turn.Call 1 1000].

(** Caller 2 joins it at 1010 ms and the fetch settles at 1200 ms. *)
Definition two_callers : list Turn.Event :=
  [Turn.Call 1 1000; Turn.Call 2 1010; Turn.Settle 0 1200 (answered hour_token)].



Definition offer : P2P.Signal :=
  {| P2P.sig_type := Some "offer"; P2P.sig_body := "v=0 (offer)" |}.

Definition answer : P2P.Signal :=
  {| P2P.sig_type := Some "answer"; P2P.sig_body := "v=0 (answer)" |}.

Definition candidate (n : string) : P2P.Signal :=
  {| P2P.sig_type := None; P2P.sig_body := n |}.

(** "alice" has called [connectToPeer("bob")]: her initiator object is
    object 0, and its connection has sent an offer. *)
Definition alice_offering : P2P.Service :=
  P2P.engine_negotiates 0 P2P.have_local_offer
    (fst (P2P.connectToPeer_resume "bob" (Ok [])
            (fst (P2P.connectToPeer "bob" (P2P.fresh (Some "alice")))))).


(** The channel of alice's object has opened. *)
Definition alice_connected : P2P.Service :=
  P2P.engine_opens 0 alice_offering.

(** She has a chat request outstanding with bob. *)
Definition alice_asked : P2P.Service :=
  fst (P2P.sendRequestToPeer "bob" "chat" "r1" 120000 alice_connected).

(** An offer from bob has reached an idle alice, who is waiting for
    credentials. *)
Definition alice_awaiting : P2P.Service :=
  fst (@P2P.handleWebRTCSignal engine "bob" offer (P2P.fresh (Some "alice"))).

(** Seven disconnects in a row, none asked for. *)
Definition seven_drops : list string := replicate 7 "transport close".

End Scenario.

(** ** More of turnService.ts *)
Module TurnMore.
Import Turn.

(** A normalised entry read again as an element of an [ice_servers]
    array. *)
Definition as_raw (server : RTCIceServer) : RawServer :=
  {| raw_urls := urls server; raw_url := None; raw_uri := None;
     raw_username := username server; raw_credential := credential server;
     raw_password := None; raw_credentialType := credentialType server |}.

(** No property of the entry is the empty string. *)
Definition no_empty_field (server : RTCIceServer) : Prop :=
  urls server ≠ Some "" ∧ username server ≠ Some "" ∧
  credential server ≠ Some "" ∧ credentialType server ≠ Some "".

(** [clearCache()] called between two events of the loop. *)
Definition clear (w : Loop) : Loop :=
  {| svc := clearCache (svc w); clock := clock w; requests := requests w;
     inflight := inflight w; owner := owner w; sharers := sharers w;
     answers := answers w; fetchedAt := fetchedAt w |}.

(** The callers of [getTurnServers] among the events, one for each
    call and in the order of the calls. *)
Definition callers (es : list Event) : list Caller :=
  omap (λ e, match e with
             | Call c _ => Some c
             | Settle _ _ _ => None
             end) es.

(** The callers that have been answered, one for each answer. *)
Definition served (w : Loop) : list Caller := (answers w).*1.

(** The callers suspended at an [await]. *)
Definition waiting (w : Loop) : list Caller :=
  (owner w).*1 ++ (sharers w).*1.

End TurnMore.

(** ** More of p2pClientServiceV2.ts

    The directory of models and battery states, the handlers of the
    signaling server's events, the messages of a peer, and the
    operations the application calls. *)
Module Client.
Import P2P.

(** [ModelInfo], with the [displayName] that the model list reads. *)
Record ModelInfo := {
  name : string;
  size : option Z;
  modified : option string;
  provider : option string;
  displayName : option string
}.

(** [BatteryState] *)
Record BatteryState := {
  isCharging : bool;
  percentage : option Z;
  isOnBatteryPower : bool
}.

(** [PeerInfo], by the properties the handlers read. *)
Record PeerInfo := {
  userId : string;
  socketId : string;
  models : option (list ModelInfo);
  batteryState : option BatteryState
}.

(** What the handlers of this module ask of the outside world: the
    listeners notified, the events sent to the signaling server with an
    argument, the keep-alive answers, and the closing of the socket. *)
Inductive Notice :=
| NotifyPeer (type : string) (userId : string)
| NotifyModels (snapshot : gmap string (list ModelInfo))
| RequestModels (userId : string)        (* emit('request-models', id) *)
| Pong (peer : Ref) (timestamp : Z)
| CloseSocket.                           (* socket.disconnect() *)

(** The service with the two maps that the signaling core does not
    read. *)
Record Client := {
  core : Service;
  peerModels : gmap string (list ModelInfo);
  peerBatteryStates : gmap string BatteryState;
  notices : list Notice
}.

Definition start (userId : option string) : Client :=
  {| core := fresh userId; peerModels := ∅; peerBatteryStates := ∅;
     notices := [] |}.

Definition set_core (s : Service) (c : Client) : Client :=
  {| core := s; peerModels := peerModels c;
     peerBatteryStates := peerBatteryStates c; notices := notices c |}.

Definition set_peerModels (m : gmap string (list ModelInfo)) (c : Client)
  : Client :=
  {| core := core c; peerModels := m;
     peerBatteryStates := peerBatteryStates c; notices := notices c |}.

Definition set_peerBatteryStates (m : gmap string BatteryState) (c : Client)
  : Client :=
  {| core := core c; peerModels := peerModels c;
     peerBatteryStates := m; notices := notices c |}.

Definition notify (n : Notice) (c : Client) : Client :=
  {| core := core c; peerModels := peerModels c;
     peerBatteryStates := peerBatteryStates c; notices := notices c ++ [n] |}.

(** [getAllAvailableModels]: a copy of [peerModels]. *)
Definition getAllAvailableModels (c : Client) : gmap string (list ModelInfo) :=
  peerModels c.

(** [getPeerBatteryState] *)
Definition getPeerBatteryState (userId : string) (c : Client)
  : option BatteryState :=
  peerBatteryStates c !! userId.

(** [notifyModelListeners] *)
Definition notifyModelListeners (c : Client) : Client :=
  notify (NotifyModels (getAllAvailableModels c)) c.

(** [if (x.batteryState) this.peerBatteryStates.set(id, x.batteryState)] *)
Definition store_battery (userId : string) (b : option BatteryState)
    (c : Client) : Client :=
  match b with
  | Some state => set_peerBatteryStates (<[userId := state]> (peerBatteryStates c)) c
  | None => c
  end.

(** [models && models.length > 0] *)
Definition has_models (ms : option (list ModelInfo)) : bool :=
  match ms with
  | Some (_ :: _) => true
  | _ => false
  end.

(** *** The events of the signaling server *)

(** ['peer-joined'], lines 478-483. *)
Definition on_peer_joined (peer : PeerInfo) (c : Client) : Client :=
  notify (NotifyPeer "joined" (userId peer)) c.

(** ['existing-peers'], lines 488-504: the body of the loop.  [socket]
    tells whether [this.socket] is set when the handler runs:
    [this.socket?.emit] sends nothing otherwise. *)
Definition existing_peer (socket : bool) (c : Client) (peer : PeerInfo)
  : Client :=
  let c1 := notify (NotifyPeer "existing" (userId peer)) c in
  let c2 :=
    if has_models (models peer)
    then notifyModelListeners
           (store_battery (userId peer) (batteryState peer)
              (set_peerModels
                 (<[userId peer := default [] (models peer)]> (peerModels c1))
                 c1))
    else c1 in
  if socket then notify (RequestModels (userId peer)) c2 else c2.

Definition on_existing_peers (socket : bool) (peers : list PeerInfo)
    (c : Client) : Client :=
  fold_left (existing_peer socket) peers c.

(** ['peer-left'], lines 513-520. *)
Definition on_peer_left (peer : PeerInfo) (c : Client) : Client :=
  let c1 := set_core (closePeerConnection (userId peer) (core c)) c in
  let c2 := set_peerModels (delete (userId peer) (peerModels c1)) c1 in
  let c3 := set_peerBatteryStates
              (delete (userId peer) (peerBatteryStates c2)) c2 in
  notifyModelListeners (notify (NotifyPeer "left" (userId peer)) c3).

(** ['peer-models-updated'], lines 523-532. *)
Definition on_peer_models_updated (user : string)
    (ms : option (list ModelInfo)) (b : option BatteryState) (c : Client)
  : Client :=
  if has_models ms
  then notifyModelListeners
         (store_battery user b
            (set_peerModels (<[user := default [] ms]> (peerModels c)) c))
  else c.

(** *** The messages of a peer *)

(** A message parsed from a channel, by the cases of
    [handlePeerMessage]. *)
Inductive Message :=
| ModelsAvailable (ms : option (list ModelInfo)) (b : option BatteryState)
| Reply (m : PeerMessage)   (* of type 'response' or 'error', or any other *)
| Ping (timestamp : Z)
| PongMessage.

(** [handlePeerMessage], lines 984-1026; the branches of a response and
    of an error reply are [P2P.handlePeerMessage]. *)
Definition handlePeerMessage (fromUserId : string) (message : Message)
    (c : Client) : Client :=
  match message with
  | ModelsAvailable ms b =>
      notifyModelListeners
        (store_battery fromUserId b
           (set_peerModels (<[fromUserId := default [] ms]> (peerModels c)) c))
  | Reply m => set_core (P2P.handlePeerMessage fromUserId m (core c)) c
  | Ping timestamp =>
      match peers (core c) !! fromUserId with
      | Some peer =>
          if peer_connected peer (core c)
          then if peer_destroyed peer (core c) then c   (* send throws *)
               else notify (Pong peer timestamp) c
          else c
      | None => c
      end
  | PongMessage => c
  end.

(** *** Operations *)

(** The answer of a peer to ['get_models']. *)
Record ModelsReply := {
  reply_models : option (list ModelInfo);
  reply_battery : option BatteryState
}.

(** Where [requestModelsFromPeer] stands after its synchronous part. *)
Inductive ModelsCall :=
| Answered (ms : list ModelInfo)
| AwaitReply (requestId : string).

(** Lines 1156-1158 and 1170-1173: the request is sent, or the call
    answers the empty list at once. *)
Definition requestModelsFromPeer (user requestId : string) (c : Client)
  : Client * ModelsCall :=
  match sendRequestToPeer user "get_models" requestId 120000 (core c) with
  | (s, Ok _) => (set_core s c, AwaitReply requestId)
  | (s, Throw _) => (set_core s c, Answered [])
  end.

(** Lines 1158-1173: the call resumes with what the request settled to. *)
Definition requestModelsFromPeer_settled (user : string)
    (r : Result ModelsReply) (c : Client) : Client * list ModelInfo :=
  match r with
  | Ok response =>
      let ms := default [] (reply_models response) in
      (notifyModelListeners
         (store_battery user (reply_battery response)
            (set_peerModels (<[user := ms]> (peerModels c)) c)), ms)
  | Throw _ => (c, [])
  end.

(** The users whose entry of [peers] is a destroyed object. *)
Definition destroyed_entries (st : Service) : gmap string Ref :=
  filter (λ kv, peer_destroyed kv.2 st = true) (peers st).

(** [discoverPeers], lines 1242-1254: the sweep of the destroyed
    entries, the request for the peer list and the wait. *)
Definition discoverPeers_sweep (st : Service) : Service :=
  let dead := dom (destroyed_entries st) in
  let st1 :=
    set_queuedSignals (filter (λ kv, kv.1 ∉ dead) (queuedSignals st))
      (set_connectingPeers (connectingPeers st ∖ dead)
         (set_peers (filter (λ kv, peer_destroyed kv.2 st = false) (peers st))
            st)) in
  emit (Sleep 1000) (emit (Emit "request-peer-list") st1).

(** Where [discoverPeers] stands at the end of its first part. *)
Inductive Discovery :=
| Discovered
| AwaitLink.

(** [discoverPeers], lines 1232-1254; [socketConnected] is
    [this.socket?.connected].  When it is false the call awaits
    [connect()] first (lines 1233-1235). *)
Definition discoverPeers (socketConnected : bool) (st : Service)
  : Service * Discovery :=
  if socketConnected then (discoverPeers_sweep st, Discovered)
  else (connect socketConnected st, AwaitLink).

(** The call resumes with what [connect()] settled to: a rejection
    leaves [discoverPeers] rejected at line 1234. *)
Definition discoverPeers_resume (linked : Result unit) (st : Service)
  : Service * Result unit :=
  match linked with
  | Ok _ => (discoverPeers_sweep st, Ok tt)
  | Throw e => (st, Throw e)
  end.

(** [this.peers.forEach(peer => peer.destroy())] *)
Definition destroy_all (st : Service) : Service :=
  foldr (λ kv s, peer_destroy kv.2 s) st (map_to_list (peers st)).

(** [disconnect], lines 1349-1362; [socket] tells whether
    [this.socket] is set. *)
Definition disconnect (socket : bool) (c : Client) : Client :=
  let s1 := set_peers ∅ (destroy_all (core c)) in
  let c1 := set_core s1 (set_peerModels ∅ c) in
  let c2 := if socket then notify CloseSocket c1 else c1 in
  set_core (updateStatus disconnected None (core c2)) c2.

(** [getConnectedPeers] and the ids of [getCachedPeers], as a set: the
    order of the arrays is not modelled. *)
Definition getConnectedPeers (st : Service) : gset string :=
  dom (filter (λ kv : string * Ref, peer_connected kv.2 st = true) (peers st)).

(** [getStatus().connected] *)
Definition status_connected (st : Service) : bool :=
  match status st with
  | connected_ => true
  | _ => false
  end.

(** The 15 s timer of [connectToPeer] fires, lines 1143-1149; [peer] is
    the object that this call of [connectToPeer] created.  [Some e] when
    the promise is rejected with [e]. *)
Definition connect_timeout (user : string) (peer : Ref) (st : Service)
  : Service * option Exn :=
  if negb (peer_connected peer st) && negb (peer_destroyed peer st)
  then (closePeerConnection user st, Some (Error "Connection timeout"))
  else (st, None).

(** The statuses notified to the listeners, in order. *)
Definition statuses (tr : list Effect) : list Status :=
  omap (λ e, match e with
             | StatusChange s _ => Some s
             | _ => None
             end) tr.

(** The identifiers sent with ['request-models'], in order. *)
Definition models_requested (ns : list Notice) : list string :=
  omap (λ n, match n with
             | RequestModels u => Some u
             | _ => None
             end) ns.

(** The last status notified to the listeners. *)
Definition last_status (tr : list Effect) : option Status :=
  last (statuses tr).

End Client.

(** ** The events of the signaling client

    Every handler and operation of the service that touches an object
    or an entry of [peers], as one step on the signaling state.  The
    arguments of a resumed handler are free: a run may resume an attempt
    that was never started, which only adds states. *)
Module Reach.
Import P2P Client.

(** simple-peer destroys an object (the connection failed, or the
    channel or the remote end closed): the object is marked destroyed
    and emits ['error'], when there is an error, and then ['close']; the
    handlers registered on it run (lines 795-811 and 947-963).  An
    object that is destroyed already emits nothing. *)
Definition object_destroyed (failed : bool) (peer : Ref) (st : Service)
  : Service :=
  match heap st !! peer with
  | Some o =>
      if destroyed o then st
      else
        let st1 := peer_destroy peer st in
        match handlers o with
        | Some userId =>
            peer_on_close userId
              (if failed then peer_on_error userId st1 else st1)
        | None => st1
        end
  | None => st
  end.

(** [initialize], lines 404-418: the identity is set and the client
    connects. *)
Definition initialize (userId : string) (socketConnected : bool)
    (st : Service) : Service :=
  connect socketConnected
    {| heap := heap st; peers := peers st;
       connectingPeers := connectingPeers st;
       pendingRequests := pendingRequests st;
       queuedSignals := queuedSignals st; currentUserId := Some userId;
       status := status st; reconnectAttempts := reconnectAttempts st;
       trace := trace st |}.

Inductive Op :=
| Initializes (userId : string) (socketConnected : bool)
| SignalArrives (fromUserId : string) (signal : Signal)
| SignalResumes (fromUserId : string) (signal : Signal)
    (fetched : Result (list RTCIceServer))
| ReplayResumes (fromUserId : string) (peer : Ref) (rest : list Signal)
    (signal : Signal)
| ConnectCalled (userId : string)
| ConnectResumes (userId : string) (fetched : Result (list RTCIceServer))
| ConnectTimesOut (userId : string) (peer : Ref)
| PeerLeaves (userId : string)
| ObjectDestroyed (failed : bool) (peer : Ref)
| ChannelOpens (peer : Ref)
| Negotiates (peer : Ref) (s : SignalingState)
| RequestSent (userId type requestId : string) (timeout : Z)
| MessageArrives (fromUserId : string) (message : PeerMessage)
| RequestTimesOut (requestId : string)
| LinkChanges (e : LinkEvent)
| Discovers (socketConnected : bool)
| DiscoverResumes (linked : Result unit)
| Disconnects (socket : bool).

Section Steps.
Context `{JsEngine}.

Definition apply (op : Op) (st : Service) : Service :=
  match op with
  | Initializes userId socketConnected => initialize userId socketConnected st
  | SignalArrives fromUserId signal =>
      fst (handleWebRTCSignal fromUserId signal st)
  | SignalResumes fromUserId signal fetched =>
      fst (handleWebRTCSignal_resume fromUserId signal fetched st)
  | ReplayResumes fromUserId peer rest signal =>
      fst (handleWebRTCSignal_timer fromUserId peer rest signal st)
  | ConnectCalled userId => fst (connectToPeer userId st)
  | ConnectResumes userId fetched => fst (connectToPeer_resume userId fetched st)
  | ConnectTimesOut userId peer => fst (connect_timeout userId peer st)
  | PeerLeaves userId => closePeerConnection userId st  (* line 515 *)
  | ObjectDestroyed failed peer => object_destroyed failed peer st
  | ChannelOpens peer => engine_opens peer st
  | Negotiates peer s => engine_negotiates peer s st
  | RequestSent userId type requestId timeout =>
      fst (sendRequestToPeer userId type requestId timeout st)
  | MessageArrives fromUserId message =>
      P2P.handlePeerMessage fromUserId message st
  | RequestTimesOut requestId => request_timeout requestId st
  | LinkChanges e => link_step st e
  | Discovers socketConnected => fst (discoverPeers socketConnected st)
  | DiscoverResumes linked => fst (discoverPeers_resume linked st)
  | Disconnects socket =>
      core (disconnect socket (set_core st (start (currentUserId st))))
  end.

Definition run (ops : list Op) (st : Service) : Service :=
  fold_left (λ s op, apply op s) ops st.

End Steps.

End Reach.

(** ** webLLMService.ts

    The caller of the signaling client that builds the list of models
    shown to the user and sends the chat requests.  Strings are split at
    [_] and at the space: both are one code unit in every encoding of
    the string. *)
Module WebLLM.
Import P2P Client.
Import Stdlib.Strings.Ascii.

(** [s.split(sep)] for a separator of one character: never empty, and
    [[""]] on the empty string. *)
Fixpoint split (sep : Ascii.ascii) (s : string) : list string :=
  match s with
  | EmptyString => [EmptyString]
  | String c rest =>
      if Ascii.eqb c sep then EmptyString :: split sep rest
      else match split sep rest with
           | w :: ws => String c w :: ws
           | [] => [String c EmptyString]
           end
  end.

(** [l.join(sep)] *)
Definition join (sep : string) (l : list string) : string :=
  String.concat sep l.

(** [s.includes(c)] for one character. *)
Fixpoint includes (c : Ascii.ascii) (s : string) : bool :=
  match s with
  | EmptyString => false
  | String c' rest => Ascii.eqb c' c || includes c rest
  end.

(** [Device], by the properties [getModels] reads. *)
Record Device := {
  device_id : string;
  device_name : string;
  isOnline : bool;
  device_models : option (list string);
  device_endpoint : string;
  device_apiSecret : option string
}.

(** [LLMModel] as [getModels] builds it; [deviceName], a label for
    display, is left out. *)
Record LLMModel := {
  id : string;
  model_name : string;
  model_displayName : string;
  model_provider : string;
  deviceId : string;
  endpoint : string;
  isRemote : bool;
  apiSecret : option string;
  isP2P : bool;
  peerId : option string
}.

(** [`firebase_${device.id}_${modelName}`] *)
Definition firebase_id (device modelName : string) : string :=
  "firebase_" +:+ device +:+ "_" +:+ modelName.

(** [`p2p_${peerId}_${modelInfo.name}`] *)
Definition p2p_id (peer modelName : string) : string :=
  "p2p_" +:+ peer +:+ "_" +:+ modelName.

(** [x || fallback] on an optional string. *)
Definition or_else (x : option string) (fallback : string) : string :=
  match x with
  | Some s => if truthy x then s else fallback
  | None => fallback
  end.

(** Lines 21-40: the models of one device. *)
Definition legacy_of (device : Device) : list LLMModel :=
  if negb (isOnline device) then []
  else match device_models device with
       | None | Some [] => []
       | Some names =>
           map (λ modelName,
                  {| id := firebase_id (device_id device) modelName;
                     model_name := modelName;
                     model_displayName := modelName;
                     model_provider := "Remote (Legacy)";
                     deviceId := device_id device;
                     endpoint := device_endpoint device;
                     isRemote := true;
                     apiSecret := device_apiSecret device;
                     isP2P := false;
                     peerId := None |}) names
       end.

Definition legacy (devices : list Device) : list LLMModel :=
  flat_map legacy_of devices.

(** Lines 60-84: one model of a peer; it is skipped when a model with
    its identifier is in the list already. *)
Definition add_peer_model (peer : string) (allModels : list LLMModel)
    (modelInfo : ModelInfo) : list LLMModel :=
  let modelId := p2p_id peer (name modelInfo) in
  match list_find (λ m, id m = modelId) allModels with
  | Some _ => allModels
  | None =>
      allModels ++
      [ {| id := modelId;
           model_name := name modelInfo;
           model_displayName := or_else (displayName modelInfo) (name modelInfo);
           model_provider := or_else (provider modelInfo) "Unknown";
           deviceId := peer;
           endpoint := "p2p://" +:+ peer;
           isRemote := true;
           apiSecret := None;
           isP2P := true;
           peerId := Some peer |} ]
  end.

(** Lines 56-88, over [Object.entries(allPeerModels)]. *)
Definition add_peers (allModels : list LLMModel)
    (entries : list (string * list ModelInfo)) : list LLMModel :=
  fold_left (λ all entry, fold_left (add_peer_model entry.1) entry.2 all)
    entries allModels.

(** [self.findIndex(m => m.id === model.id)]; [None] is [-1]. *)
Definition findIndex (model : LLMModel) (self : list LLMModel) : option nat :=
  fst <$> list_find (λ m, id m = id model) self.

(** Lines 107-109: the models whose index is the first index of their
    identifier. *)
Definition uniqueModels (allModels : list LLMModel) : list LLMModel :=
  omap (λ im : nat * LLMModel,
          if decide (findIndex im.2 allModels = Some im.1) then Some im.2
          else None)
       (imap pair allModels).

(** [getModels], lines 13-123.  [entries] is [None] when the signaling
    client is not connected or [discoverPeers] fails, and else
    [Object.entries] of what [getAllAvailableModels] returns once
    [discoverPeers] is over, in the order of the engine. *)
Definition getModels (devices : list Device)
    (entries : option (list (string * list ModelInfo))) : list LLMModel :=
  uniqueModels
    match entries with
    | Some l => add_peers (legacy devices) l
    | None => legacy devices
    end.

(** Lines 196-202 of [generateP2PResponse]: the model name sent to the
    peer. *)
Definition actualModelName (model : LLMModel) : string :=
  if String.prefix "p2p_" (id model)
  then join "_" (drop 2 (split "_"%char (id model)))
  else model_name model.

(** What [generateP2PResponse] does with the answer of the peer. *)
Inductive Streamed :=
| OnToken (word : string)
| Delay (ms : Z)
| OnComplete.

(** Lines 235-246: the words of the content, each but the first after
    the space that separated it. *)
Definition words_of (content : string) : list string :=
  imap (λ i w, if Nat.eqb i 0 then w else " " +:+ w) (split " "%char content).

(** Lines 234-251; [content] is
    [response.choices?.[0]?.message?.content]. *)
Definition stream (onToken onComplete : bool) (content : option string)
  : list Streamed :=
  (match content with
   | Some text =>
       if onToken && truthy content
       then flat_map (λ word, [OnToken word; Delay 50]) (words_of text)
       else []
   | None => []
   end) ++ (if onComplete then [OnComplete] else []).

(** The words handed to [onToken], in order. *)
Definition tokens (l : list Streamed) : list string :=
  omap (λ e, match e with
             | OnToken w => Some w
             | _ => None
             end) l.

End WebLLM.
(** ** More scenarios *)
Module Cases.

(** The endpoint answers with status 500. *)
Definition server_error : Turn.FetchOutcome :=
  Turn.Responded {| Turn.ok := false; Turn.status := 500;
                    Turn.json := Throw (Error "Unexpected end of JSON input") |}.

(** A response whose array of servers is empty. *)
Definition empty_token : Turn.TurnTokenResponse :=
  {| Turn.ice_servers := Turn.IceArray []; Turn.ttl := 3600;
     Turn.tok_username := None; Turn.tok_password := None |}.



(** A device that runs under the identity "alice" has called
    [connectToPeer("alice")], and its offer is out. *)
Definition twin_offering : P2P.Service :=
  P2P.engine_negotiates 0 P2P.have_local_offer
    (fst (P2P.connectToPeer_resume "alice" (Ok [])
            (fst (P2P.connectToPeer "alice" (P2P.fresh (Some "alice")))))).

(** Alice is connected to the signaling server. *)
Definition alice_online : P2P.Service :=
  P2P.link_run (P2P.fresh (Some "alice")) [P2P.Connect].

Definition llama : Client.ModelInfo :=
  {| Client.name := "llama3"; Client.size := None; Client.modified := None;
     Client.provider := Some "ollama"; Client.displayName := None |}.

(** Bob has announced one model to alice over his channel. *)
Definition bob_listed : Client.Client :=
  Client.handlePeerMessage "bob" (Client.ModelsAvailable (Some [llama]) None)
    (Client.start (Some "alice")).

(** The same with alice's chat request to bob outstanding. *)
Definition alice_client : Client.Client :=
  Client.set_core Scenario.alice_asked bob_listed.

Definition bob_info : Client.PeerInfo :=
  {| Client.userId := "bob"; Client.socketId := "s1";
     Client.models := Some [llama]; Client.batteryState := None |}.

Definition carol_info : Client.PeerInfo :=
  {| Client.userId := "carol"; Client.socketId := "s2";
     Client.models := None; Client.batteryState := None |}.

(** What ['peer-left'] for bob does to the signaling state. *)
Definition bob_leaves (st : P2P.Service) : P2P.Service :=
  Client.core (Client.on_peer_left bob_info
                 (Client.set_core st (Client.start (Some "alice")))).



(** Two candidates were queued, the credentials have arrived, and
    alice's handler is in the first wait of its replay. *)
Definition alice_replaying : P2P.Service :=
  fst (P2P.handleWebRTCSignal_resume "bob" Scenario.offer (Ok [])
         (@P2P.arrivals Scenario.engine "bob"
            [Scenario.candidate "c1"; Scenario.candidate "c2"]
            Scenario.alice_awaiting)).

Definition second_offer : P2P.Signal :=
  {| P2P.sig_type := Some "offer"; P2P.sig_body := "v=0 (second offer)" |}.

(** During that wait bob leaves, comes back and offers again, and a
    candidate of his new attempt reaches alice. *)
Definition alice_second_attempt : P2P.Service :=
  @P2P.arrivals Scenario.engine "bob"
    [second_offer; Scenario.candidate "c9"] (bob_leaves alice_replaying).

Definition laptop : WebLLM.Device :=
  {| WebLLM.device_id := "laptop"; WebLLM.device_name := "Laptop";
     WebLLM.isOnline := true; WebLLM.device_models := Some ["llama3"];
     WebLLM.device_endpoint := "https://laptop.example"; 
     WebLLM.device_apiSecret := None |}.

(** The model list when one peer hosts [llama]. *)
Definition hosted_by (peer : string) : list WebLLM.LLMModel :=
  WebLLM.getModels [] (Some [(peer, [llama])]).

End Cases.
(** * Properties of the credential cache *)

Section TurnFacts.
Import Turn.

Lemma turn_inv_boot : turn_inv boot.
Proof. split; simpl; try done. intros x Hx. by apply elem_of_nil in Hx. Qed.


Lemma enter_cases now fresh s :
  (∃ tok, turnToken s = Some tok ∧ now < tokenExpiry s ∧
          getTurnServers_enter now fresh s
          = (s, Returned (normalizeIceServers (ice_servers tok))))
  ∨ ((∀ tok, turnToken s = Some tok → tokenExpiry s <= now) ∧
     ((∃ p, fetchPromise s = Some p ∧
            getTurnServers_enter now fresh s = (s, AwaitShared p))
      ∨ (fetchPromise s = None ∧
         getTurnServers_enter now fresh s
         = ({| turnToken := turnToken s; tokenExpiry := tokenExpiry s;
               fetchPromise := Some fresh |}, AwaitOwn fresh)))).
Proof.
  unfold getTurnServers_enter.
  destruct (turnToken s) as [tok|] eqn:Htok.
  - destruct (Z.ltb_spec now (tokenExpiry s)).
    + left. eauto.
    + right. split; [intros; lia|].
      destruct (fetchPromise s); [left|right]; eauto.
  - right. split; [done|].
    destruct (fetchPromise s); [left|right]; eauto.
Qed.

Lemma call_inv c now w :
  turn_inv w → clock w <= now → turn_inv (call c now w).
Proof.
  intros [Hfl Hown Hsh Hst Hex] Hnow. unfold call.
  destruct (enter_cases now (requests w) (svc w))
    as [(tok & Htok & Hlt & ->)|[Hstale [(p & Hp & ->)|[Hp ->]]]].
  - split; simpl; try done.
    intros p tok' Hp Htok'. specialize (Hst p tok' Hp Htok'). lia.
  - split; simpl; try done.
    + intros x [Hx| ->%list_elem_of_singleton]%elem_of_app; [by apply Hsh|done].
    + intros q tok _ Htok. apply (Hstale tok Htok).
  - rewrite Hp in Hfl, Hown. split; simpl.
    + by rewrite Hfl.
    + rewrite Hown. by exists c.
    + intros x Hx. apply Hsh in Hx. congruence.
    + intros q tok _ Htok. apply (Hstale tok Htok).
    + done.
Qed.

Lemma own_clears now r s :
  fetchPromise (fst (getTurnServers_own now r s)) = None.
Proof.
  unfold getTurnServers_own. destruct r as [token|e]; [|done].
  by destruct (no_servers (ice_servers token)).
Qed.

Lemma own_token now token s :
  turnToken (fst (getTurnServers_own now (Ok token) s)) = Some token ∧
  tokenExpiry (fst (getTurnServers_own now (Ok token) s)) = now + ttl token * 800.
Proof.
  unfold getTurnServers_own. by destruct (no_servers (ice_servers token)).
Qed.

Lemma own_keeps now e s :
  turnToken (fst (getTurnServers_own now (Throw e) s)) = turnToken s ∧
  tokenExpiry (fst (getTurnServers_own now (Throw e) s)) = tokenExpiry s.
Proof. done. Qed.

(** The shape of a settlement in a state that satisfies the invariant. *)
Lemma settle_shape p now o w :
  turn_inv w → p ∈ inflight w →
  ∃ c, owner w = [(c, p)] ∧ fetchPromise (svc w) = Some p ∧
       settle p now o w =
       {| svc := fst (getTurnServers_own now (fetchTurnToken o) (svc w));
          clock := now; requests := requests w; inflight := [];
          owner := []; sharers := [];
          answers := answers w
                     ++ [(c, snd (getTurnServers_own now (fetchTurnToken o) (svc w)))]
                     ++ map (λ x : Caller * Promise,
                               (fst x, getTurnServers_shared (fetchTurnToken o)))
                            (sharers w);
          fetchedAt := match fetchTurnToken o with
                       | Ok _ => now
                       | Throw _ => fetchedAt w
                       end |}.
Proof.
  intros [Hfl Hown Hsh Hst Hex] Hin.
  destruct (fetchPromise (svc w)) as [q|] eqn:Hq;
    rewrite Hfl in Hin; [|by apply elem_of_nil in Hin].
  apply list_elem_of_singleton in Hin as ->.
  destruct Hown as [c Hc]. exists c. split; [done|]. split; [done|].
  assert (Hall : ∀ x, x ∈ sharers w → waits_on q x = true).
  { intros x Hx. apply Hsh in Hx. unfold waits_on.
    apply Nat.eqb_eq. congruence. }
  assert (Hkeep : filter (λ x, waits_on q x = true) (sharers w) = sharers w).
  { clear -Hall. induction (sharers w) as [|x l IH]; [done|].
    rewrite filter_cons_True; [|apply Hall; left].
    f_equal. apply IH. intros y Hy. apply Hall. by right. }
  assert (Hdrop : filter (λ x, waits_on q x ≠ true) (sharers w) = []).
  { clear -Hall. induction (sharers w) as [|x l IH]; [done|].
    rewrite filter_cons_False; [|intros Hx; apply Hx, Hall; left].
    apply IH. intros y Hy. apply Hall. by right. }
  unfold settle. rewrite Hc, Hfl, Hkeep, Hdrop.
  assert (Hw : waits_on q (c, q) = true) by apply Nat.eqb_refl.
  rewrite !filter_cons, !filter_nil.
  destruct (decide (waits_on q (c, q) = true)); [|done].
  destruct (decide (waits_on q (c, q) ≠ true)); [done|].
  destruct (decide (q ≠ q)); [done|].
  simpl. unfold resume_owner. simpl.
  by destruct (getTurnServers_own now (fetchTurnToken o) (svc w)).
Qed.

Lemma settle_inv p now o w :
  turn_inv w → p ∈ inflight w → turn_inv (settle p now o w).
Proof.
  intros Hinv Hin.
  destruct (settle_shape p now o w Hinv Hin) as (c & Hc & Hp & ->).
  destruct Hinv as [Hfl Hown Hsh Hst Hex].
  split; simpl; rewrite ?own_clears; try done.
  - intros x Hx. by apply elem_of_nil in Hx.
  - intros tok. destruct (fetchTurnToken o) as [token|e].
    + destruct (own_token now token (svc w)) as [-> ->]. by intros [= ->].
    + destruct (own_keeps now e (svc w)) as [-> ->]. apply Hex.
Qed.

Lemma step_inv w e w' : turn_inv w → step w e = Some w' → turn_inv w'.
Proof.
  intros Hinv. unfold step.
  destruct e as [c now|p now o]; simpl.
  - destruct (Z.leb_spec (clock w) now); [|done].
    intros [= <-]. by apply call_inv.
  - destruct (Z.leb_spec (clock w) now); [|done]. simpl.
    case_bool_decide; [|done]. intros [= <-]. by apply settle_inv.
Qed.

Lemma run_inv es : ∀ w w', turn_inv w → run w es = Some w' → turn_inv w'.
Proof.
  induction es as [|e es IH]; intros w w' Hinv; simpl.
  - by intros [= <-].
  - destruct (step w e) as [w1|] eqn:Hstep; [|done].
    apply IH. by eapply step_inv.
Qed.

Lemma reachable_inv es w : run boot es = Some w → turn_inv w.
Proof. apply run_inv, turn_inv_boot. Qed.

End TurnFacts.

Section TurnClaims.
Import Turn.

(** The owner of a fetch and the callers that joined it read the same
    settlement; they are answered alike unless the token carries no
    server at all. *)
Lemma own_shared_agree now r s :
  match r with
  | Ok token => no_servers (ice_servers token) = false
  | Throw _ => True
  end →
  snd (getTurnServers_own now r s) = getTurnServers_shared r.
Proof.
  destruct r as [token|e]; simpl; [|done].
  unfold getTurnServers_own. by intros ->.
Qed.

(** C5.  A successful fetch that settles at [now] stores the token with
    expiry [now + ttl * 800] ms; a call is answered from the cache exactly
    when a token is stored and the time is strictly before that expiry;
    so, in every state the service can reach, a configuration answered
    from the cache at time [now] still has, counted from the time it was
    fetched, at least [ttl * 200] ms (20% of its TTL) left. *)
Theorem cache_keeps_safety_margin (es : list Event) (w : Loop) (now : Z) :
  run boot es = Some w →
  (∀ token,
     turnToken (fst (getTurnServers_own now (Ok token) (svc w))) = Some token ∧
     tokenExpiry (fst (getTurnServers_own now (Ok token) (svc w)))
     = now + ttl token * 800) ∧
  (∀ r, snd (getTurnServers_enter now (requests w) (svc w)) = Returned r ↔
        ∃ tok, turnToken (svc w) = Some tok ∧ now < tokenExpiry (svc w) ∧
               r = normalizeIceServers (ice_servers tok)) ∧
  (∀ r, snd (getTurnServers_enter now (requests w) (svc w)) = Returned r →
        ∃ tok, turnToken (svc w) = Some tok ∧
               tokenExpiry (svc w) = fetchedAt w + ttl tok * 800 ∧
               ttl tok * 200 <= fetchedAt w + ttl tok * 1000 - now).
Proof.
  intros Hrun. apply reachable_inv in Hrun as [_ _ _ _ Hex].
  assert (Hiff : ∀ r,
    snd (getTurnServers_enter now (requests w) (svc w)) = Returned r ↔
    ∃ tok, turnToken (svc w) = Some tok ∧ now < tokenExpiry (svc w) ∧
           r = normalizeIceServers (ice_servers tok)).
  { intros r.
    destruct (enter_cases now (requests w) (svc w))
      as [(tok & Htok & Hlt & ->)|[Hstale [(p & Hp & ->)|[Hp ->]]]]; simpl.
    - split.
      + intros [= <-]. eauto.
      + intros (tok' & Htok' & _ & ->). congruence.
    - split; [done|]. intros (tok & Htok & Hlt & _).
      specialize (Hstale tok Htok). lia.
    - split; [done|]. intros (tok & Htok & Hlt & _).
      specialize (Hstale tok Htok). lia. }
  split; [intros token; apply own_token|]. split; [done|].
  intros r (tok & Htok & Hlt & _)%Hiff.
  exists tok. specialize (Hex tok Htok). repeat split; [done..|lia].
Qed.



End TurnClaims.

(** * Properties of the signaling client *)

Section SetFacts.

Lemma difference_absent (c : gset string) (u : string) :
  u ∉ c → c ∖ {[u]} = c.
Proof.
  intros Hu. apply set_eq. intros x.
  rewrite elem_of_difference, elem_of_singleton.
  split; [by intros [? _]|]. intros Hx. split; [done|]. by intros ->.
Qed.

Lemma absent_after_difference (c : gset string) (u : string) :
  u ∉ c ∖ {[u]}.
Proof. rewrite elem_of_difference, elem_of_singleton. by intros [_ ?]. Qed.

Lemma present_after_union (c : gset string) (u : string) :
  u ∈ {[u]} ∪ c.
Proof. by apply elem_of_union_l, elem_of_singleton. Qed.

End SetFacts.

Section P2PFacts.
Import P2P.
Context `{JsEngine}.

Lemma service_eq (a b : Service) :
  heap a = heap b → peers a = peers b →
  connectingPeers a = connectingPeers b →
  pendingRequests a = pendingRequests b →
  queuedSignals a = queuedSignals b →
  currentUserId a = currentUserId b → status a = status b →
  reconnectAttempts a = reconnectAttempts b → trace a = trace b → a = b.
Proof. destruct a, b; simpl; intros; by subst. Qed.

Lemma emits_nil st : emits [] st = st.
Proof. apply service_eq; simpl; try done. apply app_nil_r. Qed.

Lemma emits_emits l1 l2 st : emits l2 (emits l1 st) = emits (l1 ++ l2) st.
Proof. apply service_eq; simpl; try done. by rewrite app_assoc. Qed.

Lemma emit_emits e st : emit e st = emits [e] st.
Proof. done. Qed.

Lemma answer_is_no_offer signal :
  has_type "answer" signal = true → has_type "offer" signal = false.
Proof.
  unfold has_type. destruct (sig_type signal) as [t|]; [|done].
  by intros ->%String.eqb_eq.
Qed.

Lemma offer_is_no_answer signal :
  has_type "offer" signal = true → has_type "answer" signal = false.
Proof.
  unfold has_type. destruct (sig_type signal) as [t|]; [|done].
  by intros ->%String.eqb_eq.
Qed.

(** A signal that is not a stale answer reaches a live object. *)
Lemma deliver_live signal p o st :
  heap st !! p = Some o → destroyed o = false →
  has_type "answer" signal = false →
  deliver signal (Some p) st = emit (PeerSignal p signal) st.
Proof.
  intros Ho Hd Ha. unfold deliver, peer_signal, peer_destroyed.
  rewrite Ho, Hd, Ha. simpl. by destruct (_pc o).
Qed.

Lemma live_lookup p st :
  peer_destroyed p st = false →
  ∃ o, heap st !! p = Some o ∧ destroyed o = false.
Proof.
  unfold peer_destroyed. destruct (heap st !! p) as [o|]; [|done]. eauto.
Qed.

Lemma deliver_alive signal p st :
  peer_destroyed p st = false → has_type "answer" signal = false →
  deliver signal (Some p) st = emit (PeerSignal p signal) st.
Proof.
  intros (o & Ho & Hd)%live_lookup Ha. by eapply deliver_live.
Qed.

Lemma peer_signal_alive p signal st :
  peer_destroyed p st = false →
  peer_signal p signal st = Ok (emit (PeerSignal p signal) st).
Proof. intros Hd. unfold peer_signal. by rewrite Hd. Qed.

(** [replay_among] is the iteration of the segments of the handler. *)
Lemma replay_among_steps others fromUserId peer rest signal st :
  replay_among others fromUserId peer rest signal st =
  match handleWebRTCSignal_timer fromUserId peer rest signal st with
  | (st', AwaitTimer f p rest' s) =>
      replay_among (tail others) f p rest' s (hd id others st')
  | (st', _) => st'
  end.
Proof.
  revert others st. unfold handleWebRTCSignal_timer.
  induction rest as [|q rest IH]; intros others st; [done|].
  simpl. destruct (peer_signal peer q st) as [st'|e]; [done|]. apply IH.
Qed.

(** With no other event in between, the queue is handed to a live object
    in order, a 10 ms wait after each signal; the queue is then deleted
    and the signal that started the attempt is delivered. *)
Lemma replay_alone_spec fromUserId peer signal rest : ∀ st,
  peer_destroyed peer st = false → has_type "answer" signal = false →
  replay_among [] fromUserId peer rest signal st =
  emit (PeerSignal peer signal)
    (set_queuedSignals (delete fromUserId (queuedSignals st))
       (emits (flat_map (λ s, [PeerSignal peer s; Sleep 10]) rest) st)).
Proof.
  induction rest as [|q rest IH]; intros st Hd Ha;
    cbn [replay_among handleWebRTCSignal_timer replay_loop fst flat_map].
  - rewrite emits_nil. apply deliver_alive; [exact Hd|exact Ha].
  - rewrite peer_signal_alive by done. cbn [tail hd id].
    rewrite IH by done.
    apply service_eq; simpl; try done. by rewrite <- !app_assoc.
Qed.


Lemma weave_alone peer q :
  weave peer q [] = flat_map (λ s, [PeerSignal peer s; Sleep 10]) q.
Proof. induction q as [|s q IH]; [done|]. simpl. by rewrite IH. Qed.

(** The resumed handler, up to the replay of the queue. *)
Lemma resume_created fromUserId signal fetched st :
  handleWebRTCSignal_resume fromUserId signal fetched st =
  match queuedSignals st !! fromUserId with
  | Some q =>
      if (0 <? length q)%nat
      then replay_loop fromUserId (length (heap st)) q signal
             (answering fromUserId fetched st)
      else (deliver signal (Some (length (heap st)))
              (answering fromUserId fetched st), Done)
  | None => (deliver signal (Some (length (heap st)))
               (answering fromUserId fetched st), Done)
  end.
Proof.
  unfold handleWebRTCSignal_resume, new_SimplePeer. cbv beta iota zeta.
  set (X := set_connectingPeers _ (set_peers _ (set_heap _ st))).
  assert (Hst4 : setupPeerEventHandlers (length (heap st)) fromUserId X
                 = answering fromUserId fetched st).
  { unfold setupPeerEventHandlers. subst X.
    cbn [heap set_heap set_peers set_connectingPeers].
    rewrite list_lookup_middle by done.
    rewrite insert_app_r_alt by lia. by rewrite Nat.sub_diag. }
  by rewrite Hst4.
Qed.

Lemma answering_alive fromUserId fetched st :
  peer_destroyed (length (heap st)) (answering fromUserId fetched st) = false.
Proof.
  unfold peer_destroyed, answering. cbn [heap set_heap].
  by rewrite list_lookup_middle.
Qed.

Lemma resume_among_created others fromUserId signal fetched st :
  resume_among others fromUserId signal fetched st =
  match queuedSignals st !! fromUserId with
  | Some (q :: rest) =>
      replay_among others fromUserId (length (heap st)) (q :: rest) signal
        (answering fromUserId fetched st)
  | _ => deliver signal (Some (length (heap st)))
           (answering fromUserId fetched st)
  end.
Proof.
  unfold resume_among. rewrite resume_created.
  destruct (queuedSignals st !! fromUserId) as [[|q rest]|]; [done| |done].
  cbn [length Nat.ltb Nat.leb replay_loop replay_among].
  rewrite peer_signal_alive by apply answering_alive. done.
Qed.

(** What the resumed handler does when nothing comes in between, for a
    signal that is not an answer: a new answering object is created over
    the fetched servers (the STUN-only list when the fetch failed) and
    stored for the peer; the queued signals are handed to it in order,
    then the signal itself. *)
Lemma resume_spec fromUserId signal fetched st :
  has_type "answer" signal = false →
  let new := length (heap st) in
  let q := default [] (queuedSignals st !! fromUserId) in
  let st' := resume_alone fromUserId signal fetched st in
  heap st' = heap st ++ [answering_peer fromUserId fetched] ∧
  peers st' = <[fromUserId := new]> (peers st) ∧
  connectingPeers st' = connectingPeers st ∖ {[fromUserId]} ∧
  trace st' = trace st
              ++ flat_map (λ s, [PeerSignal new s; Sleep 10]) q
              ++ [PeerSignal new signal] ∧
  default [] (queuedSignals st' !! fromUserId) = [] ∧
  (∀ other, other ≠ fromUserId →
            queuedSignals st' !! other = queuedSignals st !! other) ∧
  pendingRequests st' = pendingRequests st.
Proof.
  intros Ha new q st'. subst st' new q.
  unfold resume_alone. rewrite resume_among_created.
  pose proof (answering_alive fromUserId fetched st) as Hlive.
  destruct (queuedSignals st !! fromUserId) as [[|s0 q0]|] eqn:Hq.
  - rewrite deliver_alive by done. simpl. by rewrite Hq.
  - rewrite replay_alone_spec by done. simpl.
    rewrite lookup_delete_eq. simpl. rewrite <- !app_assoc. simpl.
    repeat split; try done. intros other Hne. by rewrite lookup_delete_ne.
  - rewrite deliver_alive by done. simpl. by rewrite Hq.
Qed.


(** How the first part of the handler goes when no live object is at
    hand and no attempt is in progress. *)
Lemma without_peer_idle fromUserId signal st :
  fromUserId ∉ connectingPeers st →
  without_peer fromUserId signal None st =
  if has_type "offer" signal
  then (set_connectingPeers ({[fromUserId]} ∪ connectingPeers st) st,
        AwaitTurn fromUserId signal)
  else (st, Done).
Proof.
  intros Hc. unfold without_peer.
  rewrite !bool_decide_eq_false_2 by done.
  by destruct (has_type "offer" signal).
Qed.


End P2PFacts.

Section SignalClaims.
Import P2P.
Context `{JsEngine}.

Lemma mid_negotiation_collides userId p o st offer :
  mid_negotiation userId p o st → has_type "offer" offer = true →
  in_collision offer (Some p) st = true.
Proof.
  intros (_ & Ho & Hd & s & Hs & Hns) Hoff. unfold in_collision.
  by rewrite Ho, Hoff, Hd, Hs, Hns.
Qed.


(** The impolite side returns at once and nothing changes. *)
Lemma collision_impolite fromUserId me offer p o st :
  currentUserId st = Some me →
  mid_negotiation fromUserId p o st →
  has_type "offer" offer = true →
  String.ltb me fromUserId = false →
  handleWebRTCSignal fromUserId offer st = (st, Done).
Proof.
  intros Hme Hmid Hoff Hlt.
  pose proof (mid_negotiation_collides _ _ _ _ _ Hmid Hoff) as Hcol.
  destruct Hmid as (Hp & _).
  unfold handleWebRTCSignal. rewrite Hp, Hcol.
  unfold weArePolite. by rewrite Hme, Hlt.
Qed.



End SignalClaims.

Section QueueClaims.
Import P2P.
Context `{JsEngine}.





(** C9.  In a state whose stored objects are alive, a signal from a peer
    for which no live connection object is stored and no attempt is in
    progress: if it is an offer, the handler starts an attempt and,
    whatever the credential fetch gives, creates an answering
    (non-initiator) object for the peer and hands it the offer; if it is
    of any other type, the handler returns at once and the state is as
    it was: no object is created, the signal is handed to none, and
    nothing is stored. *)
Theorem unknown_peer_signal (fromUserId : string) (signal : Signal)
    (st : Service) :
  live_entries st →
  role fromUserId st = None →
  fromUserId ∉ connectingPeers st →
  (has_type "offer" signal = true →
   ∃ st1,
     handleWebRTCSignal fromUserId signal st = (st1, AwaitTurn fromUserId signal) ∧
     heap st1 = heap st ∧ trace st1 = trace st ∧ peers st1 = peers st ∧
     fromUserId ∈ connectingPeers st1 ∧
     ∀ fetched,
       let st2 := resume_alone fromUserId signal fetched st1 in
       heap st2 = heap st ++ [answering_peer fromUserId fetched] ∧
       peers st2 !! fromUserId = Some (length (heap st)) ∧
       role fromUserId st2 = Some false ∧
       (fromUserId ∉ connectingPeers st2) ∧
       trace st2 = trace st
                   ++ flat_map (λ s, [PeerSignal (length (heap st)) s; Sleep 10])
                        (default [] (queuedSignals st !! fromUserId))
                   ++ [PeerSignal (length (heap st)) signal]) ∧
  (has_type "offer" signal = false →
   handleWebRTCSignal fromUserId signal st = (st, Done)).
Proof.
  intros Hlive Hrole Hc.
  assert (Hnone : peers st !! fromUserId = None).
  { destruct (peers st !! fromUserId) as [p|] eqn:Hp; [|done].
    destruct (Hlive fromUserId p Hp) as (o & Ho & Hd & _).
    unfold role in Hrole. by rewrite Hp, Ho, Hd in Hrole. }
  assert (Hrun : handleWebRTCSignal fromUserId signal st
                 = without_peer fromUserId signal None st).
  { unfold handleWebRTCSignal. by rewrite Hnone. }
  rewrite Hrun, without_peer_idle by done.
  split; intros Hoff; rewrite Hoff; [|done].
  eexists. split; [done|]. simpl. split; [done|]. split; [done|].
  split; [done|]. split; [apply present_after_union|]. intros fetched.
  match goal with |- context [resume_alone _ _ _ ?s] =>
    destruct (resume_spec fromUserId signal fetched s
                (offer_is_no_answer _ Hoff))
      as (Hh2 & Hpe2 & Hco2 & Htr2 & _) end.
  simpl in Hh2, Hpe2, Hco2, Htr2.
  assert (Hlook : peers (resume_alone fromUserId signal fetched
            (set_connectingPeers ({[fromUserId]} ∪ connectingPeers st) st))
          !! fromUserId = Some (length (heap st))).
  { rewrite Hpe2. by rewrite lookup_insert_eq. }
  split; [done|]. split; [done|]. split; [|split; [|done]].
  - unfold role. rewrite Hlook, Hh2.
    by rewrite list_lookup_middle.
  - rewrite Hco2. apply absent_after_difference.
Qed.

(** C10.  An answer that arrives for a peer whose connection object is
    in the [stable] signaling state is handed to no object: the handler
    returns with the trace and every object as they were, and with the
    whole state as it was when the object is alive. *)
Theorem stale_answer_discarded (fromUserId : string) (signal : Signal)
    (p : Ref) (o : SimplePeer) (st : Service) :
  peers st !! fromUserId = Some p →
  heap st !! p = Some o →
  _pc o = Some stable →
  has_type "answer" signal = true →
  ∃ st1,
    handleWebRTCSignal fromUserId signal st = (st1, Done) ∧
    trace st1 = trace st ∧ heap st1 = heap st ∧
    queuedSignals st1 = queuedSignals st ∧
    (destroyed o = false → st1 = st).
Proof.
  intros Hp Ho Hst Ha.
  pose proof (answer_is_no_offer _ Ha) as Hoff.
  unfold handleWebRTCSignal. rewrite Hp.
  assert (Hno : in_collision signal (Some p) st = false).
  { unfold in_collision. by rewrite Ho, Hoff. }
  rewrite Hno. unfold peer_destroyed. rewrite Ho.
  destruct (destroyed o) eqn:Hd.
  - unfold without_peer.
    rewrite !bool_decide_eq_false_2 by apply absent_after_difference.
    rewrite Hoff. simpl. eexists. split; [done|]. by simpl.
  - unfold deliver. rewrite Ho, Hd, Hst, Ha. simpl.
    exists st. by repeat split.
Qed.

End QueueClaims.

Section RequestClaims.
Import P2P.

(** C3 (as amended).  When a peer's channel closes, the ['close']
    handler only forgets the peer's connection object: the table of
    pending requests and the trace are as they were, so no request is
    rejected at that time; the same holds of the ['error'] handler.  A
    request that was outstanding stays in the table until its own timer
    fires, which removes it and rejects it with ['Request timeout']. *)
Theorem close_leaves_requests_pending (userId : string) (st : Service) :
  pendingRequests (peer_on_close userId st) = pendingRequests st ∧
  trace (peer_on_close userId st) = trace st ∧
  pendingRequests (peer_on_error userId st) = pendingRequests st ∧
  trace (peer_on_error userId st) = trace st ∧
  ∀ requestId r,
    pendingRequests st !! requestId = Some r →
    let st' := request_timeout requestId (peer_on_close userId st) in
    pendingRequests st' = delete requestId (pendingRequests st) ∧
    trace st' = trace st
                ++ (if req_keepAlive r then [ClearInterval requestId] else [])
                ++ [Rejected requestId (Error "Request timeout")].
Proof.
  split; [done|]. split; [done|].
  assert (Herr : pendingRequests (peer_on_error userId st) = pendingRequests st ∧
                 trace (peer_on_error userId st) = trace st).
  { unfold peer_on_error, closePeerConnection, peer_destroy.
    destruct (peers st !! userId) as [p|]; [|done].
    by destruct (heap st !! p). }
  destruct Herr as [-> ->]. split; [done|]. split; [done|].
  intros requestId r Hr. unfold request_timeout, stop_keepAlive. simpl.
  rewrite Hr. destruct (req_keepAlive r); simpl; [|done].
  by rewrite <- app_assoc.
Qed.

(** The other ways an outstanding request ends: the peer's response
    resolves it, the peer's error reply rejects it with the peer's
    message; either removes the entry. *)
Lemma reply_settles_request fromUserId requestId r st :
  pendingRequests st !! requestId = Some r → requestId ≠ "" →
  (∀ data,
     let st' := handlePeerMessage fromUserId (Response (Some requestId) data) st in
     pendingRequests st' = delete requestId (pendingRequests st) ∧
     last (trace st') = Some (Resolved requestId data)) ∧
  (∀ err,
     let st' := handlePeerMessage fromUserId (ErrorReply (Some requestId) err) st in
     pendingRequests st' = delete requestId (pendingRequests st) ∧
     last (trace st') = Some (Rejected requestId (Error err))).
Proof.
  intros Hr Hne.
  assert (Ht : truthy (Some requestId) = true).
  { simpl. by rewrite (proj2 (String.eqb_neq _ _) Hne). }
  split; intros x; unfold handlePeerMessage; rewrite Ht, Hr;
    unfold settle_request, stop_keepAlive; destruct (req_keepAlive r); simpl;
    by rewrite last_snoc.
Qed.

(** On the inbound path a failed credential fetch is not fatal: the
    answering object is created over the two STUN servers of lines
    636-639. *)
Lemma inbound_fetch_failure_falls_back fromUserId offer e st :
  has_type "offer" offer = true →
  let st' := resume_alone fromUserId offer (Throw e) st in
  heap st' !! length (heap st) = Some (answering_peer fromUserId (Throw e)) ∧
  iceServers (answering_peer fromUserId (Throw e)) = stun_fallback ∧
  forallb is_stun stun_fallback = true ∧
  peers st' !! fromUserId = Some (length (heap st)).
Proof.
  intros Hoff st'.
  destruct (resume_spec fromUserId offer (Throw e) st (offer_is_no_answer _ Hoff))
    as (Hh & Hpe & _). fold st' in Hh, Hpe.
  rewrite Hh, Hpe. split; [by apply list_lookup_middle|].
  split; [done|]. split; [done|]. by rewrite lookup_insert_eq.
Qed.

(** C4, the outbound path.  When the credential fetch fails,
    [createPeerConnection] calls [turnService.getFallbackTurnServers],
    which [TurnService] does not have: the call throws, no connection
    object is created, and [connectToPeer] is rejected with that
    TypeError. *)
Theorem outbound_fetch_failure_is_fatal (userId : string) (e : Exn)
    (st : Service) :
  createPeerConnection userId true (Throw e) st
  = (st, Throw (TypeError "turnService.getFallbackTurnServers is not a function")) ∧
  connectToPeer_resume userId (Throw e) st
  = (st, Throw (TypeError "turnService.getFallbackTurnServers is not a function")).
Proof. done. Qed.

End RequestClaims.

Section LinkClaims.
Import P2P.

Lemma reconnect_delays_app l1 l2 :
  reconnect_delays (l1 ++ l2) = reconnect_delays l1 ++ reconnect_delays l2.
Proof. apply omap_app. Qed.

Lemma terminal_errors_app l1 l2 :
  terminal_errors (l1 ++ l2) = (terminal_errors l1 + terminal_errors l2)%nat.
Proof. unfold terminal_errors. by rewrite filter_app, length_app. Qed.

(** One disconnect that was not asked for, below the maximum. *)
Lemma disconnect_below reason st :
  reason ≠ "io client disconnect" →
  reconnectAttempts st < maxReconnectAttempts →
  reconnectAttempts (on_disconnect reason st) = reconnectAttempts st + 1 ∧
  trace (on_disconnect reason st)
  = trace st ++ [StatusChange disconnected None;
                 SetTimeout (reconnectDelay * (reconnectAttempts st + 1)) Reconnect].
Proof.
  intros Hr Hlt. unfold on_disconnect.
  rewrite (proj2 (String.eqb_neq _ _) Hr). simpl.
  unfold scheduleReconnect. simpl.
  destruct (Z.leb_spec maxReconnectAttempts (reconnectAttempts st)); [lia|].
  simpl. by rewrite <- app_assoc.
Qed.

(** One disconnect that was not asked for, at the maximum. *)
Lemma disconnect_at_max reason st :
  reason ≠ "io client disconnect" →
  maxReconnectAttempts <= reconnectAttempts st →
  reconnectAttempts (on_disconnect reason st) = reconnectAttempts st ∧
  status (on_disconnect reason st) = error ∧
  trace (on_disconnect reason st)
  = trace st ++ [StatusChange disconnected None;
                 StatusChange error (Some "Max reconnection attempts reached")].
Proof.
  intros Hr Hge. unfold on_disconnect.
  rewrite (proj2 (String.eqb_neq _ _) Hr). simpl.
  unfold scheduleReconnect. simpl.
  destruct (Z.leb_spec maxReconnectAttempts (reconnectAttempts st)); [|lia].
  simpl. by rewrite <- app_assoc.
Qed.

Lemma link_step_bounded st e :
  0 <= reconnectAttempts st <= maxReconnectAttempts →
  0 <= reconnectAttempts (link_step st e) <= maxReconnectAttempts.
Proof.
  intros Hb. destruct e as [reason| |msg|c]; simpl.
  - destruct (decide (reason = "io client disconnect")) as [->|Hr]; [done|].
    destruct (Z.lt_ge_cases (reconnectAttempts st) maxReconnectAttempts).
    + destruct (disconnect_below reason st Hr) as [-> _]; [done|]. lia.
    + destruct (disconnect_at_max reason st Hr) as [-> _]; [done|]. lia.
  - unfold maxReconnectAttempts. lia.
  - done.
  - unfold reconnect_timer, connect.
    destruct (status st); try done; by destruct c.
Qed.

Lemma link_run_bounded es : ∀ st,
  0 <= reconnectAttempts st <= maxReconnectAttempts →
  0 <= reconnectAttempts (link_run st es) <= maxReconnectAttempts.
Proof.
  induction es as [|e es IH]; intros st Hb; [done|].
  apply IH. by apply link_step_bounded.
Qed.

(** A run of disconnects, none of them asked for, from a counter at
    [k]: the counter climbs to the maximum and stays; a timer is set for
    each step of the climb, its delay the base delay times the new
    count; every disconnect after that surfaces a terminal error. *)
Lemma disconnects_run reasons : ∀ st (k : nat),
  Forall (λ r, r ≠ "io client disconnect") reasons →
  reconnectAttempts st = Z.of_nat k → (k ≤ 5)%nat →
  let st' := link_run st (map Disconnect reasons) in
  let n := length reasons in
  reconnectAttempts st' = Z.of_nat (min (k + n) 5) ∧
  reconnect_delays (trace st')
  = reconnect_delays (trace st)
    ++ map (λ j, reconnectDelay * Z.of_nat j) (seq (S k) (min n (5 - k))) ∧
  terminal_errors (trace st')
  = (terminal_errors (trace st) + (n - (5 - k)))%nat.
Proof.
  induction reasons as [|r rs IH]; intros st k Hall Hk Hle;
    unfold link_run; cbn [map fold_left length link_step].
  - cbn [seq map Nat.min]. rewrite Nat.add_0_r, Nat.min_l by done.
    rewrite app_nil_r. by rewrite Nat.add_0_r.
  - apply Forall_cons in Hall as [Hr Hall].
    destruct (decide (k = 5)%nat) as [->|Hne].
    + destruct (disconnect_at_max r st Hr) as (Ha & _ & Htr);
        [unfold maxReconnectAttempts; lia|].
      destruct (IH (on_disconnect r st) 5%nat Hall) as (IHa & IHd & IHe);
        [by rewrite Ha|done|].
      unfold link_run in IHa, IHd, IHe. rewrite IHa, IHd, IHe, Htr.
      rewrite reconnect_delays_app, terminal_errors_app.
      change (terminal_errors [StatusChange disconnected None;
                StatusChange error (Some "Max reconnection attempts reached")])
        with 1%nat.
      change (reconnect_delays [StatusChange disconnected None;
                StatusChange error (Some "Max reconnection attempts reached")])
        with (@nil Z).
      replace (5 - 5)%nat with 0%nat by lia. rewrite !Nat.min_0_r.
      split; [f_equal; lia|]. split; [by rewrite app_nil_r|lia].
    + destruct (disconnect_below r st Hr) as (Ha & Htr);
        [unfold maxReconnectAttempts; lia|].
      destruct (IH (on_disconnect r st) (S k) Hall) as (IHa & IHd & IHe);
        [rewrite Ha; lia|lia|].
      unfold link_run in IHa, IHd, IHe. rewrite IHa, IHd, IHe, Htr.
      rewrite reconnect_delays_app, terminal_errors_app.
      change (terminal_errors [StatusChange disconnected None;
                SetTimeout (reconnectDelay * (reconnectAttempts st + 1)) Reconnect])
        with 0%nat.
      change (reconnect_delays [StatusChange disconnected None;
                SetTimeout (reconnectDelay * (reconnectAttempts st + 1)) Reconnect])
        with [reconnectDelay * (reconnectAttempts st + 1)].
      split; [f_equal; lia|]. split; [|lia].
      rewrite <- app_assoc. f_equal.
      destruct (5 - k)%nat as [|m] eqn:Hm; [lia|].
      replace (5 - S k)%nat with m by lia.
      rewrite <- Nat.succ_min_distr. cbn [seq map app].
      do 2 f_equal. lia.
Qed.

(** C7 (as amended).  Whatever has reached the link, the attempt counter
    stays within 0..5.  A disconnect that was not asked for, arriving
    with the counter below 5, raises it by one and sets one reconnection
    timer, its delay 2000 ms times the new count; arriving with the
    counter at 5 it sets no timer and surfaces the terminal error
    ['Max reconnection attempts reached'], once for each such
    disconnect.  A disconnect asked for by the client changes nothing, and
    a successful connect puts the counter back to 0.  So of [n]
    disconnects in a row after a connect, the first five set timers of
    2000, 4000, ... ms and each of the others surfaces one terminal
    error. *)
Theorem reconnect_backoff (st : Service) (es : list LinkEvent)
    (reasons : list string) :
  0 <= reconnectAttempts st <= maxReconnectAttempts →
  Forall (λ r, r ≠ "io client disconnect") reasons →
  let st1 := link_run st es in
  let st2 := link_run (on_connect st1) (map Disconnect reasons) in
  let n := length reasons in
  0 <= reconnectAttempts st1 <= 5 ∧
  (∀ reason, reason ≠ "io client disconnect" →
     (reconnectAttempts st1 < 5 →
      reconnectAttempts (on_disconnect reason st1) = reconnectAttempts st1 + 1 ∧
      trace (on_disconnect reason st1)
      = trace st1 ++ [StatusChange disconnected None;
                      SetTimeout (2000 * (reconnectAttempts st1 + 1)) Reconnect]) ∧
     (reconnectAttempts st1 = 5 →
      reconnectAttempts (on_disconnect reason st1) = 5 ∧
      status (on_disconnect reason st1) = error ∧
      trace (on_disconnect reason st1)
      = trace st1 ++ [StatusChange disconnected None;
                      StatusChange error
                        (Some "Max reconnection attempts reached")])) ∧
  on_disconnect "io client disconnect" st1 = st1 ∧
  reconnectAttempts (on_connect st1) = 0 ∧
  reconnectAttempts st2 = Z.of_nat (min n 5) ∧
  reconnect_delays (trace st2)
  = reconnect_delays (trace st1)
    ++ map (λ j, 2000 * Z.of_nat j) (seq 1 (min n 5)) ∧
  terminal_errors (trace st2) = (terminal_errors (trace st1) + (n - 5))%nat.
Proof.
  intros Hb Hall st1 st2 n.
  pose proof (link_run_bounded es st Hb) as Hb1. fold st1 in Hb1.
  split; [done|]. split.
  { intros reason Hr. split.
    - intros Hlt. by apply disconnect_below.
    - intros Heq. destruct (disconnect_at_max reason st1 Hr) as (Ha & Hs & Ht).
      { unfold maxReconnectAttempts. lia. }
      by rewrite Ha. }
  split; [done|]. split; [done|].
  destruct (disconnects_run reasons (on_connect st1) 0%nat Hall)
    as (Ha & Hd & He); [done|lia|].
  fold st2 in Ha, Hd, He. simpl in Ha, Hd, He. subst n.
  rewrite !reconnect_delays_app in Hd. rewrite !terminal_errors_app in He.
  simpl in Hd, He. rewrite !app_nil_r in Hd. rewrite !Nat.add_0_r in He.
  done.
Qed.

End LinkClaims.

(** * The statements at work *)

Section Witnesses.
Import Turn P2P Scenario.

(** C5 on the run of two callers: a call at 5000 ms is answered from the
    cache with the margin left. *)
Lemma cache_keeps_safety_margin_witness :
  ∃ w, run boot two_callers = Some w ∧
       ∃ tok, turnToken (svc w) = Some tok ∧
              tokenExpiry (svc w) = fetchedAt w + ttl tok * 800 ∧
              ttl tok * 200 <= fetchedAt w + ttl tok * 1000 - 5000.
Proof.
  eexists. split; [reflexivity|].
  destruct (cache_keeps_safety_margin two_callers _ 5000 eq_refl)
    as (_ & _ & Hmargin).
  destruct (Hmargin _ eq_refl) as (tok & Htok & Hexp & Hle).
  exists tok. split; [assumption|]. split; [exact Hexp|exact Hle].
Defined.










(** The same loss without a closed attempt: the end of an earlier replay
    deletes the queue of a later attempt.  Alice's first attempt waits in
    its replay when bob leaves, comes back and offers again; the
    candidate ["c9"] is queued for the second attempt; the timer of the
    first replay fires, its loop ends and line 693 deletes the queue;
    the second attempt then has nothing to replay. *)
Lemma earlier_replay_deletes_queue :
  snd (handleWebRTCSignal_resume "bob" offer (Ok [])
         (@arrivals engine "bob" [candidate "c1"; candidate "c2"]
            alice_awaiting))
  = AwaitTimer "bob" 0 [candidate "c2"] offer ∧
  peers Cases.alice_second_attempt !! "bob" = None ∧
  queuedSignals Cases.alice_second_attempt !! "bob" = Some [candidate "c9"] ∧
  let st := fst (handleWebRTCSignal_timer "bob" 0 [candidate "c2"] offer
                   Cases.alice_second_attempt) in
  queuedSignals st !! "bob" = None ∧
  role "bob" (resume_alone "bob" Cases.second_offer (Ok []) st) = Some false ∧
  trace (resume_alone "bob" Cases.second_offer (Ok []) st)
  = [PeerSignal 0 (candidate "c1"); Sleep 10; PeerSignal 1 Cases.second_offer].
Proof.
  split; [reflexivity|]. split; [reflexivity|]. split; [reflexivity|].
  split; [reflexivity|]. split; reflexivity.
Qed.

(** C3 (as amended) on alice's outstanding chat request. *)
Lemma close_leaves_requests_pending_witness :
  pendingRequests (peer_on_close "bob" alice_asked) = pendingRequests alice_asked ∧
  trace (request_timeout "r1" (peer_on_close "bob" alice_asked))
  = trace alice_asked ++ [ClearInterval "r1";
                          P2P.Rejected "r1" (Error "Request timeout")].
Proof.
  destruct (close_leaves_requests_pending "bob" alice_asked)
    as (Hkept & _ & _ & _ & Hlater).
  split; [exact Hkept|].
  destruct (Hlater "r1" _ eq_refl) as [_ Htrace]. exact Htrace.
Defined.

(** C3 as first stated fails here: alice's chat request to bob is
    outstanding when bob's channel closes; after the ['close'] handler it is still in the table and
    nothing has rejected it. *)
Lemma close_rejects_no_request :
  pendingRequests alice_asked !! "r1"
  = Some {| req_peer := "bob"; req_keepAlive := true; req_timeout := 120000 |} ∧
  peers (peer_on_close "bob" alice_asked) !! "bob" = None ∧
  pendingRequests (peer_on_close "bob" alice_asked) !! "r1"
  = Some {| req_peer := "bob"; req_keepAlive := true; req_timeout := 120000 |} ∧
  trace (peer_on_close "bob" alice_asked)
  = [SetTimeout 15000 (ConnectTimeout "bob");
     SetInterval 20000 "r1";
     SetTimeout 120000 (RequestTimeout "r1");
     PeerSend 0 "chat" "r1"] ∧
  ∀ e, P2P.Rejected "r1" e ∉ trace (peer_on_close "bob" alice_asked).
Proof.
  split; [reflexivity|]. split; [reflexivity|]. split; [reflexivity|].
  split; [reflexivity|]. intros e Hin.
  change (trace (peer_on_close "bob" alice_asked))
    with [SetTimeout 15000 (ConnectTimeout "bob"); SetInterval 20000 "r1";
          SetTimeout 120000 (RequestTimeout "r1"); PeerSend 0 "chat" "r1"] in Hin.
  repeat (apply elem_of_cons in Hin as [Hin|Hin]; [discriminate|]).
  by apply elem_of_nil in Hin.
Qed.

Lemma seven_drops_unasked :
  Forall (λ r : string, r ≠ "io client disconnect") seven_drops.
Proof. unfold seven_drops. simpl. repeat constructor; discriminate. Defined.

(** C7 (as amended) on seven disconnects after a connect. *)
Lemma reconnect_backoff_witness :
  let st := link_run (on_connect (fresh (Some "alice")))
              (map Disconnect seven_drops) in
  reconnectAttempts st = 5 ∧
  reconnect_delays (trace st) = [2000; 4000; 6000; 8000; 10000] ∧
  terminal_errors (trace st) = 2%nat.
Proof.
  destruct (reconnect_backoff (fresh (Some "alice")) [] seven_drops)
    as (_ & _ & _ & _ & Hcount & Hdelays & Herrors).
  - simpl. unfold maxReconnectAttempts. lia.
  - exact seven_drops_unasked.
  - split; [exact Hcount|]. split; [exact Hdelays|exact Herrors].
Defined.

(** C7 as first stated fails here: seven disconnects in a row, none
    asked for, on a fresh link; five reconnections are scheduled and the
    terminal error is surfaced twice. *)
Lemma seven_drops_two_terminal_errors :
  let st := link_run (fresh (Some "alice")) (map Disconnect seven_drops) in
  Forall (λ r : string, r ≠ "io client disconnect") seven_drops ∧
  reconnectAttempts st = 5 ∧
  reconnect_delays (trace st) = [2000; 4000; 6000; 8000; 10000] ∧
  terminal_errors (trace st) = 2%nat.
Proof. split; [exact seven_drops_unasked|]. repeat split. Qed.

(** No object is stored before the first attempt. *)
Lemma fresh_live_entries userId : live_entries (fresh userId).
Proof. intros user p Hp. discriminate Hp. Defined.

(** C9 on an idle alice: an answer from bob is dropped, an offer ends in
    an answering object. *)
Lemma unknown_peer_signal_witness :
  @handleWebRTCSignal engine "bob" answer (fresh (Some "alice"))
  = (fresh (Some "alice"), Done) ∧
  ∃ st1, @handleWebRTCSignal engine "bob" offer (fresh (Some "alice"))
         = (st1, AwaitTurn "bob" offer) ∧
         role "bob" (resume_alone "bob" offer (Ok []) st1)
         = Some false.
Proof.
  split.
  - destruct (@unknown_peer_signal engine "bob" answer (fresh (Some "alice"))
                (fresh_live_entries _) eq_refl (not_elem_of_empty "bob"))
      as [_ Hdrop].
    exact (Hdrop eq_refl).
  - destruct (@unknown_peer_signal engine "bob" offer (fresh (Some "alice"))
                (fresh_live_entries _) eq_refl (not_elem_of_empty "bob"))
      as [Hcreate _].
    destruct (Hcreate eq_refl) as (st1 & Hrun & _ & _ & _ & _ & Hresume).
    exists st1. split; [exact Hrun|].
    destruct (Hresume (Ok [])) as (_ & _ & Hrole & _). exact Hrole.
Defined.

(** C10 on alice's open channel: an answer from bob changes nothing. *)
Lemma stale_answer_discarded_witness :
  @handleWebRTCSignal engine "bob" answer alice_connected
  = (alice_connected, Done).
Proof.
  destruct (@stale_answer_discarded engine "bob" answer 0 _ alice_connected
              eq_refl eq_refl eq_refl eq_refl)
    as (st1 & Hrun & _ & _ & _ & Hsame).
  rewrite Hrun. f_equal. exact (Hsame eq_refl).
Defined.

End Witnesses.

(** * More properties of the credential cache *)

Section TurnMoreFacts.
Import Turn TurnMore.

Lemma truthy_not_empty (o : option string) : truthy o = true → o ≠ Some "".
Proof. by intros Ht ->. Qed.

Lemma kept_if_truthy (o : option string) :
  (if truthy o then o else None) ≠ Some "".
Proof.
  destruct (truthy o) eqn:Ht; [by apply truthy_not_empty|done].
Qed.

Lemma normalize_one_no_empty server : no_empty_field (normalize_one server).
Proof.
  unfold no_empty_field, normalize_one. simpl. repeat split.
  - destruct (truthy (raw_urls server)) eqn:H1; [by apply truthy_not_empty|].
    destruct (truthy (raw_url server)) eqn:H2; [by apply truthy_not_empty|].
    apply kept_if_truthy.
  - apply kept_if_truthy.
  - destruct (truthy (raw_credential server)) eqn:H1;
      [by apply truthy_not_empty|]. apply kept_if_truthy.
  - apply kept_if_truthy.
Qed.

Lemma truthy_cases (o : option string) :
  o ≠ Some "" → (if truthy o then o else None) = o.
Proof.
  intros Hne. destruct o as [s|]; [|done]. simpl.
  destruct (String.eqb_spec s ""); [congruence|done].
Qed.

Lemma normalize_one_again server :
  no_empty_field server → normalize_one (as_raw server) = server.
Proof.
  intros (Hu & Hn & Hc & Ht). destruct server as [u n c t]. simpl in *.
  unfold normalize_one, as_raw. simpl. f_equal.
  - destruct u as [s|]; [|done]. simpl.
    destruct (String.eqb_spec s ""); [congruence|done].
  - by apply truthy_cases.
  - destruct c as [s|]; [|done]. simpl.
    destruct (String.eqb_spec s ""); [congruence|done].
  - by apply truthy_cases.
Qed.

Lemma normalize_list_again (out : list RTCIceServer) :
  Forall no_empty_field out → map normalize_one (map as_raw out) = out.
Proof.
  induction 1 as [|x xs Hx _ IH]; [done|].
  simpl. rewrite normalize_one_again by done. by rewrite IH.
Qed.

(** X1.  When [normalizeIceServers] returns, its argument was an array
    (or an object that wraps one) and the result has one entry for each
    element, in order; no property of a result entry is the empty
    string; and the result is a fixed point: read again as a response
    and normalised again, it comes back as it is. *)
Theorem normalizeIceServers_fixed_point (servers : IceField)
    (out : list RTCIceServer) :
  normalizeIceServers servers = Ok out →
  (∃ l, (servers = IceArray l ∨ servers = IceWrapped l) ∧
        out = map normalize_one l ∧ length out = length l) ∧
  Forall no_empty_field out ∧
  normalizeIceServers (IceArray (map as_raw out)) = Ok out.
Proof.
  intros Hn.
  assert (Hl : ∃ l, (servers = IceArray l ∨ servers = IceWrapped l) ∧
                    out = map normalize_one l).
  { destruct servers as [|l|l|]; simpl in Hn; try done;
      injection Hn as <-; eauto. }
  destruct Hl as (l & Hs & ->).
  split; [exists l; by rewrite length_map|].
  assert (Hall : Forall no_empty_field (map normalize_one l)).
  { apply Forall_forall. intros x (y & -> & _)%list_elem_of_fmap.
    apply normalize_one_no_empty. }
  split; [done|]. simpl. f_equal. by apply normalize_list_again.
Qed.

(** Promises in flight were created by requests already counted. *)
Lemma inflight_below_requests es : ∀ w w',
  (∀ q, q ∈ inflight w → (q < requests w)%nat) →
  run w es = Some w' →
  ∀ q, q ∈ inflight w' → (q < requests w')%nat.
Proof.
  induction es as [|e es IH]; intros w w' Hw; simpl.
  - by intros [= <-].
  - destruct (step w e) as [w1|] eqn:Hstep; [|done].
    apply IH. unfold step in Hstep.
    destruct (enabled e w); [|done]. injection Hstep as <-.
    destruct e as [c now|p now o].
    + unfold call.
      destruct (getTurnServers_enter now (requests w) (svc w)) as [s [r|p|p]] eqn:He;
        simpl; try done.
      intros q [Hq|Hq]%elem_of_app.
      * apply Hw in Hq. lia.
      * apply list_elem_of_singleton in Hq as ->.
        unfold getTurnServers_enter in He.
        destruct (match turnToken (svc w) with
                  | Some tok => if now <? tokenExpiry (svc w) then Some tok else None
                  | None => None
                  end); [done|].
        destruct (fetchPromise (svc w)); [done|]. injection He as _ <-. lia.
    + unfold settle.
      destruct (fold_left _ _ _) as [s own_answers]. simpl.
      intros q Hq. apply list_elem_of_filter in Hq as [_ Hq]. by apply Hw.
Qed.

(** X2.  A fetch that fails (the request is rejected, the server answers
    with an error status, or the body does not parse): the caller that
    started it and every caller that joined it are rejected with that
    one error; the cached token and its expiry are as they were and the
    in-flight marker is cleared, so that the next call starts a new
    request. *)
Theorem failed_fetch_is_retried (es : list Event) (w w' : Loop)
    (p : Promise) (now : Z) (o : FetchOutcome) (e : Exn) :
  run boot es = Some w →
  step w (Settle p now o) = Some w' →
  fetchTurnToken o = Throw e →
  answers w' = answers w
               ++ map (λ x : Caller * Promise, (fst x, Throw e))
                    (owner w ++ sharers w) ∧
  turnToken (svc w') = turnToken (svc w) ∧
  tokenExpiry (svc w') = tokenExpiry (svc w) ∧
  fetchPromise (svc w') = None ∧
  ∀ c now', now <= now' →
    getTurnServers_enter now' (requests w') (svc w')
    = ({| turnToken := turnToken (svc w'); tokenExpiry := tokenExpiry (svc w');
          fetchPromise := Some (requests w') |}, AwaitOwn (requests w')) ∧
    requests (call c now' w') = S (requests w').
Proof.
  intros Hrun Hstep Hfail.
  pose proof (reachable_inv _ _ Hrun) as Hinv.
  unfold step in Hstep. simpl in Hstep.
  destruct (Z.leb_spec (clock w) now) as [Hclock|]; [|done]. simpl in Hstep.
  case_bool_decide as Hin; [|done]. injection Hstep as <-.
  destruct (settle_shape p now o w Hinv Hin) as (c0 & Hc0 & Hp & ->).
  rewrite Hfail. simpl. rewrite Hc0. simpl.
  split; [done|]. split; [done|]. split; [done|]. split; [done|].
  intros c now' Hnow'.
  assert (Hstale : ∀ tok, turnToken (svc w) = Some tok →
                          tokenExpiry (svc w) <= now').
  { intros tok Htok. pose proof (inv_stale w Hinv p tok Hp Htok). lia. }
  assert (Henter :
    getTurnServers_enter now' (requests w)
      {| turnToken := turnToken (svc w); tokenExpiry := tokenExpiry (svc w);
         fetchPromise := None |}
    = ({| turnToken := turnToken (svc w); tokenExpiry := tokenExpiry (svc w);
          fetchPromise := Some (requests w) |}, AwaitOwn (requests w))).
  { unfold getTurnServers_enter. simpl.
    destruct (turnToken (svc w)) as [tok|] eqn:Htok; [|done].
    specialize (Hstale tok eq_refl).
    by destruct (Z.ltb_spec now' (tokenExpiry (svc w))); [lia|]. }
  split; [done|]. unfold call. simpl. by rewrite Henter.
Qed.

(** X3.  A response that parses but carries no server (no [ice_servers],
    or an empty array) is stored all the same.  The caller that fetched
    it is rejected with ['No TURN servers returned from signaling
    server'], but until the expiry every later call is answered from
    the cache, without a new request: with the empty list when the array
    was empty, with the error ['No ICE servers in response'] when there
    was none. *)
Theorem empty_token_is_cached (now : Z) (token : TurnTokenResponse)
    (s : TurnService) :
  no_servers (ice_servers token) = true →
  let s' := fst (getTurnServers_own now (Ok token) s) in
  snd (getTurnServers_own now (Ok token) s)
  = Throw (Error "No TURN servers returned from signaling server") ∧
  turnToken s' = Some token ∧
  ∀ now' fresh, now' < now + ttl token * 800 →
    getTurnServers_enter now' fresh s'
    = (s', Returned (match ice_servers token with
                     | IceAbsent => Throw (Error "No ICE servers in response")
                     | _ => Ok []
                     end)).
Proof.
  intros Hno s'. subst s'. unfold getTurnServers_own. rewrite Hno. simpl.
  split; [done|]. split; [done|]. intros now' fresh Hlt.
  unfold getTurnServers_enter. simpl.
  destruct (Z.ltb_spec now' (now + ttl token * 800)); [|lia].
  destruct (ice_servers token) as [|[|x l]| |]; simpl in *; done.
Qed.

(** X4.  [clearCache] while a fetch is in flight forgets the marker but
    not the request: the next call starts a second request while the
    first is unsettled, and when the first settles the marker is cleared
    although the second is still in flight. *)
Theorem clearCache_breaks_single_flight (es : list Event) (w : Loop)
    (p : Promise) (c : Caller) (now : Z) :
  run boot es = Some w →
  fetchPromise (svc w) = Some p →
  let w1 := call c now (clear w) in
  requests w1 = S (requests w) ∧
  fetchPromise (svc w1) = Some (requests w) ∧
  inflight w1 = [p; requests w] ∧ p ≠ requests w ∧
  ∀ now' o,
    fetchPromise (svc (settle p now' o w1)) = None ∧
    inflight (settle p now' o w1) = [requests w].
Proof.
  intros Hrun Hp w1.
  pose proof (reachable_inv _ _ Hrun) as Hinv.
  pose proof (inv_inflight w Hinv) as Hfl. rewrite Hp in Hfl.
  pose proof (inv_owner w Hinv) as Hown. rewrite Hp in Hown.
  destruct Hown as [c0 Hc0].
  assert (Hlt : (p < requests w)%nat).
  { apply (inflight_below_requests es boot w); [|done|].
    - intros q Hq. by apply elem_of_nil in Hq.
    - rewrite Hfl. by apply list_elem_of_singleton. }
  assert (Hw1 : w1 = {| svc := {| turnToken := None; tokenExpiry := 0;
                                  fetchPromise := Some (requests w) |};
                        clock := now; requests := S (requests w);
                        inflight := [p; requests w];
                        owner := [(c0, p); (c, requests w)];
                        sharers := sharers w; answers := answers w;
                        fetchedAt := fetchedAt w |}).
  { subst w1. unfold call, clear, clearCache. simpl. by rewrite Hfl, Hc0. }
  rewrite Hw1. simpl.
  split; [done|]. split; [done|]. split; [done|]. split; [lia|].
  intros now' o. unfold settle. simpl.
  assert (Hpp : waits_on p (c0, p) = true) by apply Nat.eqb_refl.
  assert (Hpq : waits_on p (c, requests w) = false).
  { unfold waits_on. simpl. apply Nat.eqb_neq. lia. }
  rewrite !filter_cons, !filter_nil.
  destruct (decide (waits_on p (c0, p) = true)); [|done].
  destruct (decide (waits_on p (c, requests w) = true)); [congruence|].
  destruct (decide (p ≠ p)); [done|].
  destruct (decide (requests w ≠ p)); [|lia].
  simpl. unfold resume_owner. simpl.
  destruct (getTurnServers_own now' (fetchTurnToken o) _) as [s out] eqn:Hown.
  simpl. split; [|done].
  change s with (fst (s, out)). rewrite <- Hown. apply own_clears.
Qed.

(** A run from a state that satisfies the invariant answers or keeps
    waiting every call made in it. *)
Lemma callers_accounted es : ∀ w w',
  turn_inv w → run w es = Some w' →
  served w' ++ waiting w' ≡ₚ (served w ++ waiting w) ++ callers es.
Proof.
  induction es as [|e es IH]; intros w w' Hinv; simpl.
  - intros [= <-]. by rewrite app_nil_r.
  - destruct (step w e) as [w1|] eqn:Hstep; [|done]. intros Hrun.
    rewrite (IH w1 w' (step_inv _ _ _ Hinv Hstep) Hrun).
    unfold step in Hstep. destruct (enabled e w) eqn:Hen; [|done].
    injection Hstep as <-. destruct e as [c now|p now o].
    + change (callers (Call c now :: es)) with (c :: callers es).
      rewrite cons_middle, (app_assoc _ [c]). f_equiv.
      unfold call, served, waiting.
      destruct (getTurnServers_enter now (requests w) (svc w)) as [s [r|p|p]];
        cbn [answers owner sharers]; rewrite ?fmap_app; cbn [fmap list_fmap fst].
      * rewrite <- !app_assoc. f_equiv.
        etrans; [apply Permutation_app_comm|]. by rewrite <- !app_assoc.
      * by rewrite <- !app_assoc.
      * rewrite <- !app_assoc. do 2 f_equiv. apply Permutation_app_comm.
    + change (callers (Settle p now o :: es)) with (callers es). f_equiv.
      simpl in Hen. apply andb_prop in Hen as [_ Hin].
      apply bool_decide_eq_true in Hin.
      destruct (settle_shape p now o w Hinv Hin) as (c0 & Hc0 & _ & ->).
      unfold served, waiting. cbn [answers owner sharers].
      rewrite Hc0, !fmap_app. cbn [fmap list_fmap fst].
      rewrite app_nil_r.
      assert (Hfst : ∀ (r : Result (list RTCIceServer)) (l : list (Caller * Promise)),
                (map (λ x : Caller * Promise, (fst x, r)) l).*1 = l.*1).
      { intros r l. induction l as [|x l IHl]; [done|].
        cbn [map]. rewrite !fmap_cons. cbn [fst]. by rewrite IHl. }
      by rewrite Hfst.
Qed.

(** X5.  No call is lost and none is answered twice: in every state the
    service can reach, the callers answered so far together with the
    callers waiting on the fetch in flight are, counted with their
    multiplicity, the callers of the calls made so far; so when every
    call came from a different caller, each caller has one answer or is
    waiting, and not both.  When no fetch is in flight nobody waits, and
    the callers answered are the callers of the calls made. *)
Theorem every_call_is_answered (es : list Event) (w : Loop) :
  run boot es = Some w →
  served w ++ waiting w ≡ₚ callers es ∧
  (NoDup (callers es) → NoDup (served w ++ waiting w)) ∧
  (fetchPromise (svc w) = None →
   waiting w = [] ∧ served w ≡ₚ callers es).
Proof.
  intros Hrun.
  pose proof (callers_accounted es boot w turn_inv_boot Hrun) as Hcount.
  change (served boot ++ waiting boot) with (@nil Caller) in Hcount.
  rewrite app_nil_l in Hcount.
  split; [done|]. split; [intros Hnodup; by rewrite Hcount|].
  intros Hnone.
  pose proof (reachable_inv _ _ Hrun) as Hinv.
  pose proof (inv_owner w Hinv) as Hown. rewrite Hnone in Hown.
  assert (Hsh : sharers w = []).
  { destruct (sharers w) as [|x l] eqn:Hs; [done|].
    pose proof (inv_sharers w Hinv x) as Hx. rewrite Hs in Hx.
    rewrite Hnone in Hx. by specialize (Hx (list_elem_of_here _ _)). }
  assert (Hwait : waiting w = []) by (unfold waiting; by rewrite Hown, Hsh).
  split; [done|]. by rewrite Hwait, app_nil_r in Hcount.
Qed.

End TurnMoreFacts.

(** * More properties of the signaling client *)

Section CoreMoreFacts.
Import P2P Client.
Context `{JsEngine}.

(** X6.  A signal for a peer whose connection object is alive goes to
    that object and nowhere else, unless it is an offer that collides
    (the connection is in the middle of a negotiation) or an answer that
    is stale (the connection is stable): the handler returns at once, one
    [peer.signal] is added to the trace, and no object is created,
    destroyed or stored. *)
Theorem signal_reaches_live_object (fromUserId : string) (signal : Signal)
    (p : Ref) (o : SimplePeer) (st : Service) :
  peers st !! fromUserId = Some p →
  heap st !! p = Some o →
  destroyed o = false →
  (has_type "offer" signal = true → _pc o = Some stable ∨ _pc o = None) →
  (has_type "answer" signal = true → _pc o ≠ Some stable) →
  handleWebRTCSignal fromUserId signal st
  = (emit (PeerSignal p signal) st, Done).
Proof.
  intros Hp Ho Hd Hoffer Hanswer. unfold handleWebRTCSignal. rewrite Hp.
  assert (Hno : in_collision signal (Some p) st = false).
  { unfold in_collision. rewrite Ho, Hd.
    destruct (has_type "offer" signal) eqn:Hoff; [|done].
    by destruct (Hoffer eq_refl) as [-> | ->]. }
  rewrite Hno. unfold peer_destroyed. rewrite Ho, Hd.
  unfold deliver, peer_signal, peer_destroyed. rewrite Ho, Hd. simpl.
  destruct (_pc o) as [s|]; [|done].
  destruct (has_type "answer" signal) eqn:Ha; [|done].
  destruct s; try done. by destruct (Hanswer eq_refl).
Qed.

Lemma ltb_irrefl (s : string) : String.ltb s s = false.
Proof.
  unfold String.ltb. pose proof (String.compare_antisym s s) as Ha.
  destruct (String.compare s s); simpl in Ha; done.
Qed.

(** X7.  The tie-break needs two distinct identities.  When both ends
    carry the same one and both have offered, each handles the other's
    offer as the impolite side: both return with their state as it was,
    and neither accepts the other's offer. *)
Theorem equal_identities_never_yield (id : string) (offer offer' : Signal)
    (p p' : Ref) (o o' : SimplePeer) (here there : Service) :
  currentUserId here = Some id → currentUserId there = Some id →
  mid_negotiation id p o here → mid_negotiation id p' o' there →
  has_type "offer" offer = true → has_type "offer" offer' = true →
  ∀ fetched fetched',
    handle_alone id offer fetched here = here ∧
    handle_alone id offer' fetched' there = there.
Proof.
  intros Hh Ht Hm Hm' Ho Ho' fetched fetched'. unfold handle_alone.
  rewrite (collision_impolite id id offer p o here Hh Hm Ho (ltb_irrefl id)).
  by rewrite (collision_impolite id id offer' p' o' there Ht Hm' Ho'
                (ltb_irrefl id)).
Qed.

End CoreMoreFacts.

Section CloseFacts.
Import P2P Client.

Lemma peer_destroy_lookup p q st :
  heap (peer_destroy p st) !! q
  = if decide (q = p) then destroy_obj <$> heap st !! q else heap st !! q.
Proof.
  unfold peer_destroy. destruct (heap st !! p) as [o|] eqn:Ho; simpl.
  - destruct (decide (q = p)) as [->|Hne].
    + rewrite list_lookup_insert_eq by (by eapply lookup_lt_Some).
      by rewrite Ho.
    + by rewrite list_lookup_insert_ne.
  - destruct (decide (q = p)) as [->|Hne]; [by rewrite Ho|done].
Qed.

Lemma peer_destroy_fields p st :
  peers (peer_destroy p st) = peers st ∧
  connectingPeers (peer_destroy p st) = connectingPeers st ∧
  queuedSignals (peer_destroy p st) = queuedSignals st ∧
  pendingRequests (peer_destroy p st) = pendingRequests st ∧
  trace (peer_destroy p st) = trace st ∧
  status (peer_destroy p st) = status st ∧
  reconnectAttempts (peer_destroy p st) = reconnectAttempts st ∧
  currentUserId (peer_destroy p st) = currentUserId st ∧
  length (heap (peer_destroy p st)) = length (heap st).
Proof.
  unfold peer_destroy. destruct (heap st !! p); simpl; [|done].
  by rewrite length_insert.
Qed.

(** What [closePeerConnection] does to the peer and to everything else. *)
Lemma closePeerConnection_spec (user : string) (st : Service) :
  let st' := closePeerConnection user st in
  peers st' !! user = None ∧
  (user ∉ connectingPeers st') ∧
  queuedSignals st' !! user = None ∧
  (∀ p, peers st !! user = Some p → peer_destroyed p st' = true) ∧
  (∀ other, other ≠ user →
     peers st' !! other = peers st !! other ∧
     (other ∈ connectingPeers st' ↔ other ∈ connectingPeers st) ∧
     queuedSignals st' !! other = queuedSignals st !! other) ∧
  (∀ q, peers st !! user ≠ Some q → heap st' !! q = heap st !! q) ∧
  trace st' = trace st ∧
  closePeerConnection user st' = st'.
Proof.
  intros st'. subst st'. unfold closePeerConnection.
  destruct (peers st !! user) as [p|] eqn:Hp.
  - destruct (peer_destroy_fields p st)
      as (Hpe & Hco & Hqu & Hpr & Htr & Hst & Hre & Hcu & Hlen).
    cbn [peers connectingPeers queuedSignals heap trace set_peers
         set_connectingPeers set_queuedSignals].
    rewrite ?Hpe, ?Hco, ?Hqu, ?Htr.
    split; [by rewrite lookup_delete_eq|].
    split; [apply absent_after_difference|].
    split; [by rewrite lookup_delete_eq|].
    split.
    { intros q [= <-]. unfold peer_destroyed.
      cbn [heap set_queuedSignals set_connectingPeers set_peers].
      rewrite peer_destroy_lookup. rewrite decide_True by done.
      by destruct (heap st !! p). }
    split.
    { intros other Hne. split; [by rewrite lookup_delete_ne|]. split.
      - rewrite elem_of_difference, elem_of_singleton.
        split; [by intros [? _]|]. intros Hx. split; [done|]. congruence.
      - by rewrite lookup_delete_ne. }
    split.
    { intros q Hq. rewrite peer_destroy_lookup.
      rewrite decide_False; [done|]. intros ->. by apply Hq. }
    split; [done|].
    rewrite lookup_delete_eq.
    apply service_eq; cbn [peers connectingPeers queuedSignals heap trace
      set_peers set_connectingPeers set_queuedSignals pendingRequests
      currentUserId status reconnectAttempts]; try done.
    + rewrite ?Hco. apply difference_absent, absent_after_difference.
    + rewrite ?Hqu. by rewrite delete_delete_eq.
  - cbn [peers connectingPeers queuedSignals heap trace set_peers
         set_connectingPeers set_queuedSignals].
    split; [done|]. split; [apply absent_after_difference|].
    split; [by rewrite lookup_delete_eq|]. split; [done|].
    split.
    { intros other Hne. split; [done|]. split.
      - rewrite elem_of_difference, elem_of_singleton.
        split; [by intros [? _]|]. intros Hx. split; [done|]. congruence.
      - by rewrite lookup_delete_ne. }
    split; [done|]. split; [done|].
    rewrite Hp.
    apply service_eq; cbn [peers connectingPeers queuedSignals heap trace
      set_peers set_connectingPeers set_queuedSignals pendingRequests
      currentUserId status reconnectAttempts]; try done.
    + apply difference_absent, absent_after_difference.
    + by rewrite delete_delete_eq.
Qed.

(** X8.  [closePeerConnection] leaves nothing of the peer behind: its
    entry of [peers], its place in the connecting set and its queue of
    signals are gone, and the object that was stored for it is
    destroyed.  The entries, attempts and queues of every other peer,
    every other object, and the trace are as they were; closing again
    changes nothing more. *)
Theorem closePeerConnection_forgets_peer (user : string) (st : Service) :
  let st' := closePeerConnection user st in
  peers st' !! user = None ∧
  (user ∉ connectingPeers st') ∧
  queuedSignals st' !! user = None ∧
  (∀ p, peers st !! user = Some p → peer_destroyed p st' = true) ∧
  (∀ other, other ≠ user →
     peers st' !! other = peers st !! other ∧
     (other ∈ connectingPeers st' ↔ other ∈ connectingPeers st) ∧
     queuedSignals st' !! other = queuedSignals st !! other) ∧
  (∀ q, peers st !! user ≠ Some q → heap st' !! q = heap st !! q) ∧
  trace st' = trace st ∧
  closePeerConnection user st' = st'.
Proof. exact (closePeerConnection_spec user st). Qed.

(** An object added at the end of the heap leaves the others where they
    are. *)
Lemma new_SimplePeer_spec init servers st :
  let new := length (heap st) in
  new_SimplePeer init servers st
  = (new, set_heap (heap st ++ [ {| initiator := init; iceServers := servers;
                                    destroyed := false; connected := false;
                                    _pc := Some stable; handlers := None |} ]) st).
Proof. done. Qed.

Lemma createPeerConnection_ok user init servers st :
  createPeerConnection user init (Ok servers) st
  = (set_heap (heap st ++ [ {| initiator := init; iceServers := servers;
                               destroyed := false; connected := false;
                               _pc := Some stable; handlers := Some user |} ])
       (set_peers (<[user := length (heap st)]> (peers st)) st),
     Ok (length (heap st))).
Proof.
  unfold createPeerConnection, outbound_iceServers, new_SimplePeer,
    setupPeerEventHandlers.
  cbn [heap set_heap set_peers].
  rewrite list_lookup_middle by done.
  rewrite insert_app_r_alt by lia. rewrite Nat.sub_diag.
  f_equal.
Qed.

(** X9.  [connectToPeer] on a peer whose object is alive and connected
    returns at once and changes nothing.  In every other case it goes on
    to create an initiator; when the credentials arrive, the new object
    is stored for the peer over the fetched servers and a 15 s timer is
    set.  The call never destroys an object: one that was stored for the
    peer and was still negotiating is left alive in the heap, only no
    longer reachable through [peers]. *)
Theorem connectToPeer_creates_initiator (user : string)
    (servers : list RTCIceServer) (st : Service) :
  (∀ p, peers st !! user = Some p → peer_destroyed p st = false →
        peer_connected p st = true →
        connectToPeer user st = (st, AlreadyConnected)) ∧
  ((∀ p, peers st !! user = Some p →
         peer_destroyed p st = true ∨ peer_connected p st = false) →
   ∃ st1,
     connectToPeer user st = (st1, AwaitPeer user) ∧
     heap st1 = heap st ∧ trace st1 = trace st ∧
     let new := length (heap st) in
     let st2 := fst (connectToPeer_resume user (Ok servers) st1) in
     snd (connectToPeer_resume user (Ok servers) st1) = Ok new ∧
     peers st2 !! user = Some new ∧
     heap st2 = heap st ++ [ {| initiator := true; iceServers := servers;
                                destroyed := false; connected := false;
                                _pc := Some stable; handlers := Some user |} ] ∧
     trace st2 = trace st ++ [SetTimeout 15000 (ConnectTimeout user)] ∧
     (∀ q, (q < length (heap st))%nat → heap st2 !! q = heap st !! q) ∧
     (∀ p, peers st !! user = Some p → peer_destroyed p st = false →
           p ≠ new ∧ peer_destroyed p st2 = false)).
Proof.
  split.
  - intros p Hp Hd Hc. unfold connectToPeer. by rewrite Hp, Hd, Hc.
  - intros Hidle.
    assert (Hrun : ∃ st1, connectToPeer user st = (st1, AwaitPeer user) ∧
                          heap st1 = heap st ∧ trace st1 = trace st).
    { unfold connectToPeer. destruct (peers st !! user) as [p|] eqn:Hp.
      - destruct (Hidle p eq_refl) as [Hd|Hc].
        + rewrite Hd. simpl. eauto.
        + rewrite Hc. rewrite andb_false_r.
          destruct (peer_destroyed p st); eauto.
      - eauto. }
    destruct Hrun as (st1 & Hrun & Hh & Htr). exists st1.
    split; [done|]. split; [done|]. split; [done|].
    unfold connectToPeer_resume. rewrite createPeerConnection_ok.
    cbn [fst snd heap peers trace emit set_heap set_peers]. rewrite Hh, Htr.
    split; [done|]. split; [by rewrite lookup_insert_eq|].
    split; [done|]. split; [done|].
    split; [intros q Hq; by rewrite lookup_app_l|].
    intros p Hp Hd. unfold peer_destroyed in *.
    destruct (heap st !! p) as [o|] eqn:Ho; [|done].
    pose proof (lookup_lt_Some _ _ _ Ho) as Hlt.
    split; [lia|]. cbn [heap emit set_heap set_peers].
    by rewrite lookup_app_l, Ho.
Qed.

(** X10.  When the 15 s timer of an attempt fires on an object that is
    connected or destroyed, nothing happens.  On one that is neither,
    the promise is rejected with ['Connection timeout'] and the peer's
    connection is closed: the peer has no entry, attempt or queue left.
    What is destroyed is the object stored for the peer: the object of
    the attempt itself only if it is still the one stored. *)
Theorem connect_timeout_closes (user : string) (peer : Ref) (st : Service) :
  (peer_connected peer st = true ∨ peer_destroyed peer st = true →
   connect_timeout user peer st = (st, None)) ∧
  (peer_connected peer st = false → peer_destroyed peer st = false →
   let st' := fst (connect_timeout user peer st) in
   snd (connect_timeout user peer st) = Some (Error "Connection timeout") ∧
   peers st' !! user = None ∧ (user ∉ connectingPeers st') ∧
   queuedSignals st' !! user = None ∧
   (peers st !! user = Some peer → peer_destroyed peer st' = true) ∧
   (peers st !! user ≠ Some peer → peer_destroyed peer st' = false)).
Proof.
  split.
  - intros [Hc|Hd]; unfold connect_timeout; [by rewrite Hc|].
    rewrite Hd. by rewrite andb_false_r.
  - intros Hc Hd st'. subst st'. unfold connect_timeout. rewrite Hc, Hd.
    cbn [negb andb fst snd].
    destruct (closePeerConnection_spec user st)
      as (Hp & Hco & Hq & Hdead & _ & Hkeep & _).
    split; [done|]. split; [done|]. split; [done|]. split; [done|].
    split; [by apply Hdead|].
    intros Hne. unfold peer_destroyed in *. by rewrite (Hkeep peer Hne).
Qed.

(** X11.  The handlers of an object are registered for a user id, not
    for the object.  When [connectToPeer] replaces an object that is
    still negotiating, the old object stays in the heap as it was, with
    its handlers; its ['error'] handler then closes the connection that
    replaced it (the new object is destroyed and the peer has no entry
    left), and its ['close'] handler removes the new object's entry and
    leaves the object alive. *)
Theorem handlers_follow_the_user_id (user : string)
    (servers : list RTCIceServer) (old : Ref) (o : SimplePeer)
    (st : Service) :
  peers st !! user = Some old → heap st !! old = Some o →
  handlers o = Some user → destroyed o = false → connected o = false →
  let new := length (heap st) in
  let st2 := fst (connectToPeer_resume user (Ok servers)
                    (fst (connectToPeer user st))) in
  peers st2 !! user = Some new ∧ old ≠ new ∧
  heap st2 !! old = Some o ∧ peer_destroyed new st2 = false ∧
  (peers (peer_on_error user st2) !! user = None ∧
   peer_destroyed new (peer_on_error user st2) = true ∧
   heap (peer_on_error user st2) !! old = Some o) ∧
  (peers (peer_on_close user st2) !! user = None ∧
   peer_destroyed new (peer_on_close user st2) = false).
Proof.
  intros Hp Ho Hh Hd Hc new st2. subst new st2.
  pose proof (lookup_lt_Some _ _ _ Ho) as Hlt.
  assert (Hfirst : connectToPeer user st = (st, AwaitPeer user)).
  { unfold connectToPeer, peer_destroyed, peer_connected.
    by rewrite Hp, Ho, Hd, Hc. }
  rewrite Hfirst. cbn [fst]. unfold connectToPeer_resume.
  rewrite createPeerConnection_ok. cbn [fst].
  set (st2 := emit _ _).
  assert (Hpeers : peers st2 !! user = Some (length (heap st)))
    by (subst st2; cbn [peers emit set_heap set_peers];
        by rewrite lookup_insert_eq).
  assert (Hold : heap st2 !! old = Some o)
    by (subst st2; cbn [heap emit set_heap set_peers];
        by rewrite lookup_app_l).
  assert (Hnew : peer_destroyed (length (heap st)) st2 = false).
  { subst st2. unfold peer_destroyed. cbn [heap emit set_heap set_peers].
    by rewrite list_lookup_middle. }
  split; [done|]. split; [lia|]. split; [done|]. split; [done|].
  destruct (closePeerConnection_spec user st2)
    as (Hgone & _ & _ & Hdead & _ & Hkeep & _).
  split.
  - unfold peer_on_error. split; [done|]. split; [by apply Hdead|].
    rewrite Hkeep; [done|]. rewrite Hpeers. intros [= Heq]. lia.
  - unfold peer_on_close. cbn [peers set_peers].
    split; [by rewrite lookup_delete_eq|]. done.
Qed.

End CloseFacts.

Section RequestMoreFacts.
Import P2P Client.

(** A reply that names no request, or one that is not in the table,
    changes nothing. *)
Lemma stray_reply_ignored fromUserId m st :
  match m with
  | Response r _ | ErrorReply r _ =>
      truthy r = false ∨ ∃ rid, r = Some rid ∧ pendingRequests st !! rid = None
  | OtherMessage => True
  end →
  P2P.handlePeerMessage fromUserId m st = st.
Proof.
  destruct m as [r d|r e|]; [| |done]; simpl.
  - intros [Ht|(rid & -> & Hnone)]; [by rewrite Ht|].
    rewrite Hnone. by destruct (truthy (Some rid)).
  - intros [Ht|(rid & -> & Hnone)]; [by rewrite Ht|].
    rewrite Hnone. by destruct (truthy (Some rid)).
Qed.

Lemma sendRequestToPeer_sent user type requestId timeout p st :
  peers st !! user = Some p →
  peer_connected p st = true → peer_destroyed p st = false →
  sendRequestToPeer user type requestId timeout st
  = (emits ((if String.eqb type "chat" then [SetInterval 20000 requestId]
             else [])
            ++ [SetTimeout timeout (RequestTimeout requestId);
                PeerSend p type requestId])
       (set_pendingRequests
          (<[requestId := {| req_peer := user;
                             req_keepAlive := String.eqb type "chat";
                             req_timeout := timeout |}]> (pendingRequests st))
          st), Ok tt).
Proof.
  intros Hp Hc Hd. unfold sendRequestToPeer. rewrite Hp, Hc. simpl.
  unfold peer_send, peer_destroyed in *.
  destruct (String.eqb type "chat"); simpl;
    destruct (heap st !! p) as [o|]; try done; rewrite Hd;
    (f_equal; apply service_eq; simpl; try done; by rewrite <- ?app_assoc).
Qed.

(** X12.  A request sent to a connected peer under a new id is settled
    once and leaves nothing behind.  It is stored under its id with its
    timers and sent once.  A response carrying that id, from whatever
    peer it comes, resolves it with the response's data and removes the
    entry, so that the table is as it was before the request; after
    that, the request's own timer and any further reply with the same id
    change nothing.  Likewise when the timer fires first: the request is
    rejected with ['Request timeout'] and a response that arrives later
    is ignored. *)
Theorem request_settles_once (user type requestId : string) (timeout : Z)
    (p : Ref) (st : Service) :
  peers st !! user = Some p →
  peer_connected p st = true → peer_destroyed p st = false →
  pendingRequests st !! requestId = None → requestId ≠ "" →
  let st1 := fst (sendRequestToPeer user type requestId timeout st) in
  snd (sendRequestToPeer user type requestId timeout st) = Ok tt ∧
  pendingRequests st1 !! requestId
  = Some {| req_peer := user; req_keepAlive := String.eqb type "chat";
            req_timeout := timeout |} ∧
  trace st1 = trace st
              ++ (if String.eqb type "chat" then [SetInterval 20000 requestId]
                  else [])
              ++ [SetTimeout timeout (RequestTimeout requestId);
                  PeerSend p type requestId] ∧
  (∀ from data,
     let st2 := P2P.handlePeerMessage from (Response (Some requestId) data) st1 in
     pendingRequests st2 = pendingRequests st ∧
     trace st2 = trace st1
                 ++ (if String.eqb type "chat" then [ClearInterval requestId]
                     else [])
                 ++ [ClearTimeout requestId; Resolved requestId data] ∧
     request_timeout requestId st2 = st2 ∧
     ∀ from' data' err,
       P2P.handlePeerMessage from' (Response (Some requestId) data') st2 = st2 ∧
       P2P.handlePeerMessage from' (ErrorReply (Some requestId) err) st2 = st2) ∧
  (let st3 := request_timeout requestId st1 in
   pendingRequests st3 = pendingRequests st ∧
   last (trace st3) = Some (Rejected requestId (Error "Request timeout")) ∧
   ∀ from data,
     P2P.handlePeerMessage from (Response (Some requestId) data) st3 = st3).
Proof.
  intros Hp Hc Hd Hnew Hne st1. subst st1.
  rewrite (sendRequestToPeer_sent user type requestId timeout p st Hp Hc Hd).
  cbn [fst snd]. split; [done|].
  set (entry := {| req_peer := user; req_keepAlive := String.eqb type "chat";
                   req_timeout := timeout |}).
  set (st1 := emits _ _).
  assert (Hentry : pendingRequests st1 !! requestId = Some entry)
    by (subst st1; simpl; by rewrite lookup_insert_eq).
  assert (Htruthy : truthy (Some requestId) = true).
  { simpl. by rewrite (proj2 (String.eqb_neq _ _) Hne). }
  split; [done|]. split; [done|]. split.
  - intros from data.
    assert (Hst2 :
      P2P.handlePeerMessage from (Response (Some requestId) data) st1
      = set_pendingRequests
          (delete requestId
             (pendingRequests
                (settle_request requestId entry (Resolved requestId data) st1)))
          (settle_request requestId entry (Resolved requestId data) st1)).
    { unfold P2P.handlePeerMessage. by rewrite Htruthy, Hentry. }
    rewrite Hst2. clear Hst2. set (st2 := set_pendingRequests _ _).
    assert (Hgone : pendingRequests st2 = pendingRequests st).
    { subst st2 st1. unfold settle_request, stop_keepAlive.
      destruct (req_keepAlive entry); simpl; by rewrite delete_insert_id. }
    split; [done|]. split.
    { subst st2. unfold settle_request, stop_keepAlive. subst entry. simpl.
      destruct (String.eqb type "chat"); simpl; by rewrite <- ?app_assoc. }
    split.
    { unfold request_timeout. by rewrite Hgone, Hnew. }
    intros from' data' err. split; apply stray_reply_ignored; right;
      exists requestId; by rewrite Hgone.
  - assert (Hst3 :
      request_timeout requestId st1
      = emit (Rejected requestId (Error "Request timeout"))
          (set_pendingRequests
             (delete requestId
                (pendingRequests (stop_keepAlive requestId entry st1)))
             (stop_keepAlive requestId entry st1))).
    { unfold request_timeout. by rewrite Hentry. }
    rewrite Hst3. clear Hst3. set (st3 := emit _ _).
    assert (Hgone : pendingRequests st3 = pendingRequests st).
    { subst st3 st1. unfold stop_keepAlive.
      destruct (req_keepAlive entry); simpl; by rewrite delete_insert_id. }
    split; [done|]. split; [subst st3; simpl; by rewrite last_snoc|].
    intros from data. apply stray_reply_ignored. right.
    exists requestId. by rewrite Hgone.
Qed.

(** X13.  [requestModelsFromPeer] never fails.  For a peer that has no
    entry, or whose object is not connected, it answers the empty list at
    once and nothing changes; and when its request is rejected later (by
    the peer or by the timer) it answers the empty list and leaves the
    directory of models as it was. *)
Theorem requestModelsFromPeer_never_fails (user requestId : string)
    (c : Client) :
  ((peers (core c) !! user = None ∨
    ∃ p, peers (core c) !! user = Some p ∧ peer_connected p (core c) = false) →
   requestModelsFromPeer user requestId c = (c, Answered [])) ∧
  (∀ e, requestModelsFromPeer_settled user (Throw e) c = (c, [])) ∧
  (∀ response,
     let c' := fst (requestModelsFromPeer_settled user (Ok response) c) in
     snd (requestModelsFromPeer_settled user (Ok response) c)
     = default [] (reply_models response) ∧
     getAllAvailableModels c' !! user = Some (default [] (reply_models response)) ∧
     core c' = core c).
Proof.
  split; [|split].
  - intros Hoff. unfold requestModelsFromPeer, sendRequestToPeer.
    destruct Hoff as [->|(p & -> & ->)]; simpl; by destruct c.
  - done.
  - intros response c'. subst c'. simpl. split; [done|].
    unfold getAllAvailableModels, notifyModelListeners, store_battery.
    destruct (reply_battery response); simpl; by rewrite lookup_insert_eq.
Qed.

(** X14.  A request fails with ['Not connected to peer ...'] exactly for
    the peers that [getConnectedPeers] does not list, and then nothing
    has changed: no timer is set and no entry is stored.  For a listed
    peer the call either leaves the request pending or fails with the
    error of [peer.send]. *)
Theorem not_connected_iff_unlisted (user type requestId : string)
    (timeout : Z) (st : Service) :
  (user ∉ getConnectedPeers st ↔
   sendRequestToPeer user type requestId timeout st
   = (st, Throw (Error ("Not connected to peer " +:+ user)))) ∧
  (user ∈ getConnectedPeers st →
   snd (sendRequestToPeer user type requestId timeout st) = Ok tt ∨
   snd (sendRequestToPeer user type requestId timeout st)
   = Throw (Error "cannot send after peer is destroyed")).
Proof.
  assert (Hlisted : user ∈ getConnectedPeers st ↔
            ∃ p, peers st !! user = Some p ∧ peer_connected p st = true).
  { unfold getConnectedPeers. rewrite elem_of_dom. split.
    - intros [p Hp]. apply map_lookup_filter_Some in Hp as [Hp Hc].
      by exists p.
    - intros (p & Hp & Hc). exists p. by apply map_lookup_filter_Some. }
  assert (Hsent : ∀ p, peers st !! user = Some p → peer_connected p st = true →
            snd (sendRequestToPeer user type requestId timeout st) = Ok tt ∨
            snd (sendRequestToPeer user type requestId timeout st)
            = Throw (Error "cannot send after peer is destroyed")).
  { intros p Hp Hc. unfold sendRequestToPeer. rewrite Hp, Hc. cbn [negb].
    cbv zeta. unfold peer_send.
    destruct (peer_destroyed p _); [by right|by left]. }
  split; [split|].
  - intros Hno. unfold sendRequestToPeer.
    destruct (peers st !! user) as [p|] eqn:Hp; [|done].
    destruct (peer_connected p st) eqn:Hc; [|done].
    destruct Hno. apply Hlisted. by exists p.
  - intros Hfail (p & Hp & Hc)%Hlisted.
    destruct (Hsent p Hp Hc) as [Hok|Hthrow];
      rewrite Hfail in *; cbn [snd] in *; [done|].
    injection Hthrow as Hmsg. discriminate Hmsg.
  - intros (p & Hp & Hc)%Hlisted. by apply (Hsent p).
Qed.

End RequestMoreFacts.

Section SweepFacts.
Import P2P Client.

(** X15.  [discoverPeers] never drops a live connection.  With the
    socket connected it keeps every entry of [peers] whose object is not
    destroyed, changes no object and no pending request, and asks the
    server once for the peer list; in a state whose stored objects are
    alive, [peers], the connecting set and the queues of signals are as
    they were.  With the socket not connected it first connects and
    sweeps nothing; when that connection fails, the call fails with its
    error and nothing else has happened. *)
Theorem discoverPeers_keeps_live_peers (st : Service) :
  (let st1 := fst (discoverPeers false st) in
   snd (discoverPeers false st) = AwaitLink ∧
   status st1 = connecting ∧
   trace st1 = trace st ++ [StatusChange connecting None; OpenSocket] ∧
   peers st1 = peers st ∧ connectingPeers st1 = connectingPeers st ∧
   queuedSignals st1 = queuedSignals st ∧ heap st1 = heap st) ∧
  (∀ e, discoverPeers_resume (Throw e) st = (st, Throw e)) ∧
  discoverPeers true st
  = (fst (discoverPeers_resume (Ok tt) st), Discovered) ∧
  (let st' := fst (discoverPeers_resume (Ok tt) st) in
   snd (discoverPeers_resume (Ok tt) st) = Ok tt ∧
   (∀ u p, peers st' !! u = Some p ↔
           peers st !! u = Some p ∧ peer_destroyed p st = false) ∧
   heap st' = heap st ∧ pendingRequests st' = pendingRequests st ∧
   trace st' = trace st ++ [Emit "request-peer-list"; Sleep 1000] ∧
   (live_entries st →
    peers st' = peers st ∧ connectingPeers st' = connectingPeers st ∧
    queuedSignals st' = queuedSignals st)).
Proof.
  split.
  { cbn. by rewrite <- app_assoc. }
  split; [done|]. split; [done|].
  cbn [discoverPeers_resume fst snd]. unfold discoverPeers_sweep.
  cbn [peers heap connectingPeers queuedSignals pendingRequests trace emit
       set_queuedSignals set_connectingPeers set_peers].
  split; [done|]. split.
  { intros u p. by rewrite map_lookup_filter_Some. }
  split; [done|]. split; [done|]. split; [by rewrite <- app_assoc|].
  intros Hlive.
  assert (Halive : ∀ u p, peers st !! u = Some p → peer_destroyed p st = false).
  { intros u p Hp. destruct (Hlive u p Hp) as (o & Ho & Hd & _).
    unfold peer_destroyed. by rewrite Ho. }
  assert (Hnone : destroyed_entries st = ∅).
  { apply map_empty. intros u. unfold destroyed_entries.
    apply map_lookup_filter_None. right. intros p Hp. simpl.
    by rewrite (Halive u p Hp). }
  rewrite Hnone, dom_empty_L, difference_empty_L.
  split; [|split; [done|]].
  - apply map_filter_id. intros u p Hp. simpl. by apply (Halive u).
  - apply map_filter_id. intros u q _. simpl. apply not_elem_of_empty.
Qed.

Lemma destroy_obj_twice o : destroy_obj (destroy_obj o) = destroy_obj o.
Proof. done. Qed.

Lemma destroy_each l : ∀ st,
  let st' := foldr (λ (kv : string * Ref) s, peer_destroy kv.2 s) st l in
  (∀ q, heap st' !! q
        = if decide (q ∈ l.*2) then destroy_obj <$> heap st !! q
          else heap st !! q) ∧
  peers st' = peers st ∧ connectingPeers st' = connectingPeers st ∧
  queuedSignals st' = queuedSignals st ∧
  pendingRequests st' = pendingRequests st ∧ trace st' = trace st ∧
  status st' = status st ∧ reconnectAttempts st' = reconnectAttempts st ∧
  currentUserId st' = currentUserId st.
Proof.
  induction l as [|[u p] l IH]; intros st; cbn [foldr].
  - repeat split; try done.
  - rewrite fmap_cons. cbn [snd].
    destruct (IH st) as (Hh & Hpe & Hco & Hqu & Hpr & Htr & Hst & Hre & Hcu).
    destruct (peer_destroy_fields p
                (foldr (λ (kv : string * Ref) s, peer_destroy kv.2 s) st l))
      as (Hpe' & Hco' & Hqu' & Hpr' & Htr' & Hst' & Hre' & Hcu' & _).
    split.
    { intros q. rewrite peer_destroy_lookup, Hh.
      destruct (decide (q = p)) as [->|Hne].
      - rewrite (decide_True (P := p ∈ p :: l.*2)) by apply list_elem_of_here.
        destruct (decide (p ∈ l.*2)); [|done].
        destruct (heap st !! p); done.
      - destruct (decide (q ∈ l.*2)) as [Hin|Hnin].
        + rewrite (decide_True (P := q ∈ p :: l.*2))
            by (by apply list_elem_of_further). done.
        + rewrite (decide_False (P := q ∈ p :: l.*2)); [done|].
          intros [?|?]%elem_of_cons; done. }
    by rewrite Hpe', Hco', Hqu', Hpr', Htr', Hst', Hre', Hcu'.
Qed.

(** X16.  [disconnect] destroys every object stored in [peers], empties
    [peers] and the directory of models, closes the socket if there is
    one, and notifies the status ['disconnected'].  It goes no further:
    an object that is no longer stored stays as it is, and the pending
    requests (none is rejected), the connecting set, the queues of
    signals, the battery states and the count of reconnection attempts
    are as they were. *)
Theorem disconnect_clears_peers_only (socket : bool) (c : Client) :
  let c' := disconnect socket c in
  peers (core c') = ∅ ∧ peerModels c' = ∅ ∧
  status (core c') = disconnected ∧
  trace (core c') = trace (core c) ++ [StatusChange disconnected None] ∧
  (∀ u p, peers (core c) !! u = Some p → peer_destroyed p (core c') = true) ∧
  (∀ q, (∀ u, peers (core c) !! u ≠ Some q) →
        heap (core c') !! q = heap (core c) !! q) ∧
  pendingRequests (core c') = pendingRequests (core c) ∧
  connectingPeers (core c') = connectingPeers (core c) ∧
  queuedSignals (core c') = queuedSignals (core c) ∧
  reconnectAttempts (core c') = reconnectAttempts (core c) ∧
  peerBatteryStates c' = peerBatteryStates c ∧
  notices c' = notices c ++ (if socket then [CloseSocket] else []).
Proof.
  intros c'. subst c'. unfold disconnect, destroy_all, updateStatus.
  destruct (destroy_each (map_to_list (peers (core c))) (core c))
    as (Hh & Hpe & Hco & Hqu & Hpr & Htr & Hst & Hre & Hcu).
  assert (Hin : ∀ q, q ∈ (map_to_list (peers (core c))).*2 ↔
                     ∃ u, peers (core c) !! u = Some q).
  { intros q. rewrite list_elem_of_fmap. split.
    - intros ([u q'] & -> & Hx). exists u. by apply elem_of_map_to_list.
    - intros [u Hu]. exists (u, q). split; [done|].
      by apply elem_of_map_to_list. }
  destruct socket;
    cbn [core peerModels peerBatteryStates notices set_core set_peerModels
         notify peers status trace heap pendingRequests connectingPeers
         queuedSignals reconnectAttempts emit set_status set_peers];
    rewrite Htr, Hpr, Hco, Hqu, Hre, ?app_nil_r;
    (split; [done|]); (split; [done|]); (split; [done|]); (split; [done|]);
    (split;
      [intros u p Hp; unfold peer_destroyed;
       cbn [heap emit set_status set_peers]; rewrite Hh;
       rewrite decide_True by (apply Hin; eauto);
       by destruct (heap (core c) !! p)|]);
    (split; [|done]);
    intros q Hq; rewrite Hh; (rewrite decide_False; [done|]);
    intros [u Hu]%Hin; by apply (Hq u).
Qed.

End SweepFacts.

Section LinkMoreFacts.
Import P2P Client.

Lemma statuses_app l1 l2 : statuses (l1 ++ l2) = statuses l1 ++ statuses l2.
Proof. apply omap_app. Qed.

(** X17.  Only a disconnect that was not asked for sets a reconnection
    timer or raises the attempt counter: a successful connect, a
    connection error, a firing reconnection timer and a disconnect asked
    for by the client set none, and apart from the connect (which puts
    the counter back to 0) leave the counter alone.  In particular a
    reconnection attempt that fails with a connection error is not
    followed by another: after a disconnect, its timer and the error of
    the new connection, one timer has been set in all and the status is
    ['error']. *)
Theorem only_disconnects_schedule_reconnects (st : Service) (e : LinkEvent) :
  (∀ reason, e = Disconnect reason → reason = "io client disconnect") →
  reconnect_delays (trace (link_step st e)) = reconnect_delays (trace st) ∧
  (e ≠ Connect → reconnectAttempts (link_step st e) = reconnectAttempts st) ∧
  ∀ reason c msg,
    reason ≠ "io client disconnect" →
    reconnectAttempts st < maxReconnectAttempts →
    let st' := link_run st [Disconnect reason; ReconnectTimer c; ConnectError msg] in
    reconnect_delays (trace st')
    = reconnect_delays (trace st)
      ++ [reconnectDelay * (reconnectAttempts st + 1)] ∧
    status st' = error ∧
    reconnectAttempts st' = reconnectAttempts st + 1.
Proof.
  intros Hasked.
  assert (Hquiet : ∀ s ev,
    (∀ reason, ev = Disconnect reason → reason = "io client disconnect") →
    reconnect_delays (trace (link_step s ev)) = reconnect_delays (trace s) ∧
    (ev ≠ Connect → reconnectAttempts (link_step s ev) = reconnectAttempts s)).
  { intros s ev Hev. destruct ev as [reason| |msg|c]; simpl.
    - by rewrite (Hev reason eq_refl).
    - split; [|done]. unfold on_connect. simpl.
      by rewrite !reconnect_delays_app, !app_nil_r.
    - split; [|done]. unfold on_connect_error. simpl.
      by rewrite reconnect_delays_app, app_nil_r.
    - unfold reconnect_timer, connect.
      destruct (status s), c; simpl;
        by rewrite ?reconnect_delays_app, ?app_nil_r. }
  destruct (Hquiet st e Hasked) as [Hd Ha]. split; [done|]. split; [done|].
  intros reason c msg Hr Hlt st'. subst st'. unfold link_run.
  cbn [fold_left].
  destruct (disconnect_below reason st Hr Hlt) as [Hcount Htrace].
  set (st1 := link_step st (Disconnect reason)).
  change (on_disconnect reason st) with st1 in Hcount, Htrace.
  destruct (Hquiet st1 (ReconnectTimer c)) as [Hd1 Ha1]; [done|].
  destruct (Hquiet (link_step st1 (ReconnectTimer c)) (ConnectError msg))
    as [Hd2 Ha2]; [done|].
  rewrite Hd2, Hd1, Ha2, Ha1 by done. rewrite Htrace, Hcount.
  rewrite reconnect_delays_app. split; [done|]. done.
Qed.

(** Whatever reaches the link, either a status was notified and the
    stored status is the last one notified, or none was and the stored
    status did not move. *)
Lemma link_step_status st e :
  (last_status (trace (link_step st e)) = Some (status (link_step st e))) ∨
  (statuses (trace (link_step st e)) = statuses (trace st) ∧
   status (link_step st e) = status st).
Proof.
  assert (Hup : ∀ s x err,
    last_status (trace (updateStatus x err s)) = Some (status (updateStatus x err s))).
  { intros s x err. unfold last_status, updateStatus. simpl.
    rewrite statuses_app. simpl. by rewrite last_snoc. }
  assert (Hmore : ∀ s x,
    statuses [x] = [] →
    last_status (trace s) = Some (status s) →
    last_status (trace (emit x s)) = Some (status (emit x s))).
  { intros s x Hl Hs. unfold last_status in *. simpl.
    by rewrite statuses_app, Hl, app_nil_r. }
  destruct e as [reason| |msg|c]; cbn [link_step].
  - unfold on_disconnect.
    destruct (negb (String.eqb reason "io client disconnect")); [|by right].
    left. unfold scheduleReconnect.
    destruct (maxReconnectAttempts <=? _); [apply Hup|].
    cbv zeta. apply Hmore; [done|]. apply (Hup st).
  - left. unfold on_connect. do 2 (apply Hmore; [done|]).
    apply (Hup (set_reconnectAttempts 0 st)).
  - left. apply Hup.
  - unfold reconnect_timer, connect.
    destruct (status st) eqn:Hs, c; try (by right);
      left; (apply Hmore; [done|]); apply Hup.
Qed.

(** X18.  What [getStatus] reads agrees with what the status listeners
    were told: after any events of the link, if a status has been
    notified since the start then the stored status is the last one
    notified, and if none has then it has not changed; and
    [getStatus().connected] holds exactly in the status ['connected']. *)
Theorem status_is_last_notified (st : Service) (es : list LinkEvent) :
  let st' := link_run st es in
  (last_status (trace st') = Some (status st') ∨
   (statuses (trace st') = statuses (trace st) ∧ status st' = status st)) ∧
  (status_connected st' = true ↔ status st' = connected_) ∧
  (last_status (trace st) = Some (status st) →
   last_status (trace st') = Some (status st')).
Proof.
  intros st'. subst st'.
  assert (Hmain : ∀ l s,
    last_status (trace (link_run s l)) = Some (status (link_run s l)) ∨
    (statuses (trace (link_run s l)) = statuses (trace s) ∧
     status (link_run s l) = status s)).
  { induction l as [|e l IH]; intros s; [by right|].
    cbn [link_run fold_left].
    destruct (IH (link_step s e)) as [Hl|[Hs Hq]]; [by left|].
    unfold link_run in *.
    destruct (link_step_status s e) as [Hl'|[Hs' Hq']].
    - left. unfold last_status in *. by rewrite Hs, Hq.
    - right. by rewrite Hs, Hq. }
  split; [apply Hmain|]. split.
  - unfold status_connected. by destruct (status (link_run st es)).
  - intros Hinit. destruct (Hmain es st) as [Hl|[Hs Hq]]; [done|].
    unfold last_status in *. by rewrite Hs, Hq.
Qed.

End LinkMoreFacts.

Section DirectoryFacts.
Import P2P Client.

Lemma store_battery_fields user b c :
  core (store_battery user b c) = core c ∧
  peerModels (store_battery user b c) = peerModels c ∧
  notices (store_battery user b c) = notices c ∧
  peerBatteryStates (store_battery user b c)
  = match b with
    | Some x => <[user := x]> (peerBatteryStates c)
    | None => peerBatteryStates c
    end.
Proof. by destruct b. Qed.

(** X19.  The two sources of a peer's model list treat an empty list
    differently.  An update relayed by the signaling server with no list
    or an empty one is ignored: neither the directory nor the listeners
    see it.  An announcement over the peer's channel always replaces the
    peer's list, by the empty list if there is none, and the listeners
    are handed the new directory.  In both cases the battery state is
    replaced only when one comes with the message, and no other peer's
    entry changes. *)
Theorem model_lists_replace_or_ignore (user : string)
    (ms : option (list ModelInfo)) (b : option BatteryState) (c : Client) :
  (has_models ms = false → on_peer_models_updated user ms b c = c) ∧
  (let c' := handlePeerMessage user (ModelsAvailable ms b) c in
   getAllAvailableModels c' !! user = Some (default [] ms) ∧
   (∀ other, other ≠ user →
      getAllAvailableModels c' !! other = getAllAvailableModels c !! other ∧
      getPeerBatteryState other c' = getPeerBatteryState other c) ∧
   getPeerBatteryState user c'
   = match b with
     | Some x => Some x
     | None => getPeerBatteryState user c
     end ∧
   notices c' = notices c ++ [NotifyModels (getAllAvailableModels c')] ∧
   core c' = core c) ∧
  (has_models ms = true →
   on_peer_models_updated user ms b c
   = handlePeerMessage user (ModelsAvailable ms b) c).
Proof.
  split; [|split].
  - intros Hno. unfold on_peer_models_updated. by rewrite Hno.
  - intros c'. subst c'.
    unfold handlePeerMessage, getAllAvailableModels, getPeerBatteryState,
      notifyModelListeners, getAllAvailableModels.
    cbn [peerModels peerBatteryStates notices core notify].
    destruct (store_battery_fields user b
                (set_peerModels (<[user:=default [] ms]> (peerModels c)) c))
      as (Hc & Hm & Hn & Hb).
    rewrite Hc, Hm, Hn, Hb. cbn [peerModels peerBatteryStates notices core
                                 set_peerModels].
    split; [by rewrite lookup_insert_eq|]. split.
    { intros other Hne. split; [by rewrite lookup_insert_ne|].
      destruct b; [by rewrite lookup_insert_ne|done]. }
    split; [destruct b; [by rewrite lookup_insert_eq|done]|]. done.
  - intros Hyes. unfold on_peer_models_updated. by rewrite Hyes.
Qed.

(** X20.  When a peer leaves the signaling server, everything held for it
    goes: its connection is closed (no entry, attempt or queue is left
    and its object is destroyed), and its models and battery state are
    deleted; the listeners are told of the departure and handed the new
    directory.  What is held for the other peers is as it was, and so
    are the pending requests: those sent to the peer that left are not
    rejected. *)
Theorem peer_left_forgets_peer (peer : PeerInfo) (c : Client) :
  let c' := on_peer_left peer c in
  let u := userId peer in
  core c' = closePeerConnection u (core c) ∧
  peers (core c') !! u = None ∧ (u ∉ connectingPeers (core c')) ∧
  queuedSignals (core c') !! u = None ∧
  getAllAvailableModels c' !! u = None ∧ getPeerBatteryState u c' = None ∧
  (∀ other, other ≠ u →
     peers (core c') !! other = peers (core c) !! other ∧
     getAllAvailableModels c' !! other = getAllAvailableModels c !! other ∧
     getPeerBatteryState other c' = getPeerBatteryState other c) ∧
  pendingRequests (core c') = pendingRequests (core c) ∧
  trace (core c') = trace (core c) ∧
  notices c' = notices c ++ [NotifyPeer "left" u;
                              NotifyModels (getAllAvailableModels c')].
Proof.
  intros c' u. subst c' u. unfold on_peer_left.
  destruct (closePeerConnection_spec (userId peer) (core c))
    as (Hp & Hco & Hq & _ & Hother & _ & Htr & _).
  unfold getAllAvailableModels, getPeerBatteryState, notifyModelListeners,
    getAllAvailableModels.
  cbn [core peerModels peerBatteryStates notices notify set_core
       set_peerModels set_peerBatteryStates].
  split; [done|]. split; [done|]. split; [done|]. split; [done|].
  split; [by rewrite lookup_delete_eq|].
  split; [by rewrite lookup_delete_eq|].
  split.
  { intros other Hne. destruct (Hother other Hne) as (Hpo & _).
    rewrite !lookup_delete_ne by done. done. }
  split.
  { unfold closePeerConnection, peer_destroy.
    destruct (peers (core c) !! userId peer) as [p|]; [|done].
    by destruct (heap (core c) !! p). }
  split; [done|]. by rewrite <- app_assoc.
Qed.

Lemma existing_peer_fields socket c peer :
  core (existing_peer socket c peer) = core c ∧
  models_requested (notices (existing_peer socket c peer))
  = models_requested (notices c) ++ (if socket then [userId peer] else []) ∧
  (∀ u, (userId peer = u → has_models (models peer) = false) →
        peerModels (existing_peer socket c peer) !! u = peerModels c !! u) ∧
  (has_models (models peer) = true →
   peerModels (existing_peer socket c peer) !! userId peer
   = Some (default [] (models peer))).
Proof.
  unfold existing_peer, models_requested, notifyModelListeners, store_battery.
  destruct (has_models (models peer)) eqn:Hm, (batteryState peer), socket;
    cbn [core notices peerModels notify set_peerModels set_peerBatteryStates];
    rewrite ?omap_app; cbn [omap list_omap]; rewrite ?app_nil_r;
    (split; [done|]); (split; [done|]); (split; [|try done]);
    try (intros u Hu; rewrite ?lookup_insert_ne; [done|];
         intros Heq; by specialize (Hu Heq));
    try (by intros u Hu);
    try (intros _; by rewrite lookup_insert_eq).
Qed.

(** X21.  On the list of existing peers the client asks the server for
    the models of every peer on the list, once each and in the order of
    the list, whether or not the list entry carried models (and asks
    nothing when it has no socket).  The directory changes only for
    peers that came with a non-empty model list: the entry of any other
    peer, on the list or not, is as it was; a peer listed twice keeps
    the models of its last entry that has some; and the signaling core
    is not touched. *)
Theorem existing_peers_request_models (socket : bool)
    (infos : list PeerInfo) (c : Client) :
  let c' := on_existing_peers socket infos c in
  models_requested (notices c')
  = models_requested (notices c) ++ (if socket then map userId infos else []) ∧
  core c' = core c ∧
  (∀ u, (∀ info, info ∈ infos → userId info = u →
                 has_models (models info) = false) →
        getAllAvailableModels c' !! u = getAllAvailableModels c !! u) ∧
  (∀ before info after,
     infos = before ++ info :: after →
     has_models (models info) = true →
     (∀ later, later ∈ after → userId later = userId info →
               has_models (models later) = false) →
     getAllAvailableModels c' !! userId info
     = Some (default [] (models info))).
Proof.
  intros c'. subst c'. unfold on_existing_peers, getAllAvailableModels.
  assert (Hkeep : ∀ l u c0,
    (∀ info, info ∈ l → userId info = u → has_models (models info) = false) →
    peerModels (fold_left (existing_peer socket) l c0) !! u
    = peerModels c0 !! u).
  { induction l as [|info l IH]; intros u c0 Hu; simpl; [done|].
    rewrite IH.
    - destruct (existing_peer_fields socket c0 info) as (_ & _ & Hk & _).
      apply Hk. intros Heq. apply (Hu info); [apply list_elem_of_here|done].
    - intros info' Hin. apply Hu. by apply list_elem_of_further. }
  split; [|split; [|split]].
  - revert c. induction infos as [|info l IH]; intros c; simpl.
    + destruct socket; by rewrite app_nil_r.
    + rewrite IH. destruct (existing_peer_fields socket c info) as (_ & -> & _).
      destruct socket; by rewrite <- app_assoc.
  - revert c. induction infos as [|info l IH]; intros c; simpl; [done|].
    rewrite IH. by destruct (existing_peer_fields socket c info) as (-> & _).
  - intros u. apply Hkeep.
  - intros before info after -> Hm Hlater.
    rewrite fold_left_app. cbn [fold_left].
    rewrite Hkeep by done.
    destruct (existing_peer_fields socket
                (fold_left (existing_peer socket) before c) info)
      as (_ & _ & _ & Hset).
    by apply Hset.
Qed.

End DirectoryFacts.

(** * Properties of the model list and of the chat requests *)

Section SplitFacts.
Import WebLLM.
Import Stdlib.Strings.Ascii.

Lemma split_not_nil sep s : split sep s ≠ [].
Proof.
  destruct s as [|c s]; simpl; [done|].
  destruct (Ascii.eqb c sep); [done|]. by destruct (split sep s).
Qed.

Lemma split_at_first sep a t :
  includes sep a = false →
  split sep (a +:+ String sep t) = a :: split sep t.
Proof.
  induction a as [|c a IH]; simpl.
  - intros _. by rewrite Ascii.eqb_refl.
  - intros [Hc Ha]%orb_false_iff. rewrite Hc, (IH Ha). done.
Qed.

Lemma split_whole sep a : includes sep a = false → split sep a = [a].
Proof.
  induction a as [|c a IH]; simpl; [done|].
  intros [Hc Ha]%orb_false_iff. by rewrite Hc, (IH Ha).
Qed.

Lemma concat_cons sep w v l :
  String.concat sep (w :: v :: l) = w +:+ sep +:+ String.concat sep (v :: l).
Proof. done. Qed.

Lemma append_cons c a b : String c a +:+ b = String c (a +:+ b).
Proof. done. Qed.

Lemma join_split sep s : join (String sep "") (split sep s) = s.
Proof.
  unfold join. induction s as [|c s IH]; simpl; [done|].
  pose proof (split_not_nil sep s) as Hne.
  destruct (split sep s) as [|w ws] eqn:Hs; [done|].
  destruct (Ascii.eqb c sep) eqn:Hc.
  - apply Ascii.eqb_eq in Hc as ->. rewrite concat_cons, IH. done.
  - destruct ws as [|v ws].
    + simpl in *. by rewrite IH.
    + rewrite concat_cons in *. rewrite append_cons, IH. done.
Qed.

Lemma includes_cut sep s :
  includes sep s = true →
  ∃ a b, s = a +:+ String sep b ∧ includes sep a = false.
Proof.
  induction s as [|c s IH]; simpl; [done|].
  destruct (Ascii.eqb c sep) eqn:Hc.
  - intros _. apply Ascii.eqb_eq in Hc as ->. by exists "", s.
  - simpl. intros (a & b & -> & Ha)%IH. exists (String c a), b.
    split; [done|]. simpl. by rewrite Hc.
Qed.

Lemma append_assoc (a b c : string) : (a +:+ b) +:+ c = a +:+ (b +:+ c).
Proof.
  induction a as [|x a IH]; [done|]. rewrite !append_cons. by rewrite IH.
Qed.

Lemma length_append (a b : string) :
  String.length (a +:+ b) = (String.length a + String.length b)%nat.
Proof.
  induction a as [|x a IH]; [done|]. rewrite append_cons.
  cbn [String.length]. by rewrite IH.
Qed.

End SplitFacts.

Section WebLLMFacts.
Import P2P Client WebLLM.
Import Stdlib.Strings.Ascii.

(** X22.  The model name that a chat request carries is cut out of the
    identifier [p2p_<peer>_<name>] after its second underscore.  It is
    the name the peer announced exactly when the peer's identifier holds
    no underscore; when it holds one, the request asks for the rest of
    the identifier after its first underscore, an underscore and the
    name. *)
Theorem chat_model_name (model : LLMModel) (peer modelName : string) :
  id model = p2p_id peer modelName →
  (actualModelName model = modelName ↔ includes "_" peer = false) ∧
  (∀ a b, peer = a +:+ "_" +:+ b → includes "_" a = false →
          actualModelName model = b +:+ "_" +:+ modelName).
Proof.
  intros Hid.
  assert (Hcut : ∀ a t, includes "_" a = false →
            id model = "p2p_" +:+ a +:+ "_" +:+ t →
            actualModelName model = t).
  { intros a t Ha Ht. unfold actualModelName. rewrite Ht.
    assert (Hp : ∀ x, String.prefix "p2p_" ("p2p_" +:+ x) = true)
      by (by intros []).
    rewrite Hp.
    change ("p2p_" +:+ a +:+ "_" +:+ t)
      with ("p2p" +:+ String "_" (a +:+ String "_" t)).
    rewrite (split_at_first "_" "p2p") by done.
    rewrite (split_at_first "_" a) by done.
    cbn [drop]. apply (join_split "_"). }
  assert (Hlong : ∀ a b, peer = a +:+ "_" +:+ b → includes "_" a = false →
            actualModelName model = b +:+ "_" +:+ modelName).
  { intros a b -> Ha. apply (Hcut a); [done|]. rewrite Hid. unfold p2p_id.
    f_equal. by rewrite append_assoc. }
  split; [|done]. split.
  - intros Hname. destruct (includes "_" peer) eqn:Hin; [|done].
    destruct (includes_cut _ _ Hin) as (a & b & -> & Ha).
    rewrite (Hlong a b eq_refl Ha) in Hname.
    apply (f_equal String.length) in Hname.
    rewrite !length_append in Hname. simpl in Hname. lia.
  - intros Hfree. by apply (Hcut peer).
Qed.

Lemma concat_words w ws :
  String.concat "" (w :: (String " " <$> ws)) = String.concat " " (w :: ws).
Proof.
  revert w. induction ws as [|v ws IH]; intros w; [done|].
  rewrite fmap_cons, !concat_cons, IH.
  assert (Hhead : String.concat " " (String " " v :: ws)
                  = String " " (String.concat " " (v :: ws)))
    by (by destruct ws).
  by rewrite Hhead.
Qed.

Lemma words_of_split content :
  ∃ w ws, split " " content = w :: ws ∧
          words_of content = w :: (String " " <$> ws).
Proof.
  unfold words_of. pose proof (split_not_nil " " content) as Hne.
  destruct (split " " content) as [|w ws]; [done|].
  exists w, ws. split; [done|]. rewrite imap_cons. cbn [Nat.eqb]. f_equal.
  clear. induction ws as [|v ws IH]; [done|].
  rewrite imap_cons, fmap_cons. cbn [compose Nat.eqb]. f_equal. apply IH.
Qed.

Lemma tokens_flat_map l tail :
  tokens (flat_map (λ word, [OnToken word; Delay 50]) l ++ tail)
  = l ++ tokens tail.
Proof.
  unfold tokens. induction l as [|w l IH]; [done|].
  simpl. f_equal. apply IH.
Qed.

Lemma split_words sep s w ws i v :
  split sep s = w :: ws → (w :: ws) !! i = Some v → includes sep v = false.
Proof.
  revert w ws i v. induction s as [|c s IH]; intros w ws i v; simpl.
  - intros [= <- <-] Hi. destruct i; [by injection Hi as <-|done].
  - pose proof (split_not_nil sep s) as Hne.
    destruct (split sep s) as [|w' ws'] eqn:Hs; [done|].
    destruct (Ascii.eqb c sep) eqn:Hc.
    + intros [= <- <-] Hi. destruct i as [|i]; [by injection Hi as <-|].
      by apply (IH w' ws' i).
    + intros [= <- <-] Hi. destruct i as [|i].
      * injection Hi as <-. simpl. rewrite Hc. by apply (IH w' ws' 0%nat).
      * by apply (IH w' ws' (S i)).
Qed.

(** X23.  The simulated stream loses nothing: the words handed to
    [onToken], put end to end, are the content of the answer.  The
    first word holds no space and every later one is a space followed by
    a word without one; each is followed by a pause of 50 ms, and
    [onComplete], when there is one, comes last.  Without content, or
    without [onToken], nothing is streamed. *)
Theorem stream_spells_content (onComplete : bool) (content : string) :
  let out := stream true onComplete (Some content) in
  join "" (tokens out) = content ∧
  (∀ i w, tokens out !! i = Some w →
     match i with
     | O => includes " " w = false
     | S _ => ∃ w', w = " " +:+ w' ∧ includes " " w' = false
     end) ∧
  out = flat_map (λ word, [OnToken word; Delay 50]) (tokens out)
        ++ (if onComplete then [OnComplete] else []) ∧
  (content = "" → tokens out = []) ∧
  (∀ missing, stream false onComplete missing
              = if onComplete then [OnComplete] else []) ∧
  (∀ onToken, stream onToken onComplete None
              = if onComplete then [OnComplete] else []).
Proof.
  intros out. subst out. unfold stream. cbn [andb].
  assert (Htail : tokens (if onComplete then [OnComplete] else []) = [])
    by (by destruct onComplete).
  destruct (words_of_split content) as (w & ws & Hs & Hw).
  split; [|split; [|split; [|split; [|split]]]].
  - destruct (truthy (Some content)) eqn:Ht.
    + rewrite tokens_flat_map, Htail, app_nil_r, Hw. unfold join.
      rewrite concat_words. rewrite <- Hs. apply (join_split " ").
    + cbn [app]. rewrite Htail. simpl in Ht.
      destruct content; [done|by simpl in Ht].
  - intros i v. destruct (truthy (Some content)).
    + rewrite tokens_flat_map, Htail, app_nil_r, Hw.
      rewrite lookup_cons. destruct i as [|i].
      * intros [= <-]. by apply (split_words " " content w ws 0%nat).
      * rewrite list_lookup_fmap.
        destruct (ws !! i) as [v'|] eqn:Hv; [|done].
        intros [= <-]. exists v'. split; [done|].
        by apply (split_words " " content w ws (S i)).
    + cbn [app]. by rewrite Htail.
  - destruct (truthy (Some content)).
    + by rewrite tokens_flat_map, Htail, app_nil_r.
    + cbn [app]. by rewrite Htail.
  - intros ->. by destruct onComplete.
  - intros missing. by destruct missing.
  - intros onToken. done.
Qed.

Lemma add_peer_model_spec peer all mi :
  ∃ added,
    add_peer_model peer all mi = all ++ added ∧
    p2p_id peer (name mi) ∈ id <$> (all ++ added) ∧
    ∀ m, m ∈ added →
      isP2P m = true ∧ peerId m = Some peer ∧ deviceId m = peer ∧
      model_name m = name mi ∧ id m = p2p_id peer (name mi).
Proof.
  unfold add_peer_model.
  destruct (list_find _ all) as [[i x]|] eqn:Hf.
  - exists []. rewrite app_nil_r. split; [done|]. split.
    + apply list_find_Some in Hf as (Hx & Hid & _).
      apply list_elem_of_fmap. exists x. split; [done|].
      by eapply list_elem_of_lookup_2.
    + intros m Hm. by apply elem_of_nil in Hm.
  - eexists. split; [done|]. split.
    + rewrite fmap_app. apply elem_of_app. right. simpl.
      apply list_elem_of_here.
    + intros m ->%list_elem_of_singleton. done.
Qed.

Lemma add_peer_models_spec peer ms all :
  ∃ added,
    fold_left (add_peer_model peer) ms all = all ++ added ∧
    (∀ mi, mi ∈ ms → p2p_id peer (name mi) ∈ id <$> (all ++ added)) ∧
    ∀ m, m ∈ added →
      ∃ mi, mi ∈ ms ∧ isP2P m = true ∧ peerId m = Some peer ∧
            deviceId m = peer ∧ model_name m = name mi ∧
            id m = p2p_id peer (name mi).
Proof.
  revert all. induction ms as [|mi ms IH]; intros all.
  - exists []. rewrite app_nil_r. split; [done|]. split.
    + intros mi Hmi. by apply elem_of_nil in Hmi.
    + intros m Hm. by apply elem_of_nil in Hm.
  - cbn [fold_left].
    destruct (add_peer_model_spec peer all mi) as (a1 & -> & Hin1 & Hnew1).
    destruct (IH (all ++ a1)) as (a2 & -> & Hin2 & Hnew2).
    exists (a1 ++ a2). rewrite app_assoc. split; [done|]. split.
    + intros mi' [->|Hmi']%elem_of_cons; [|by apply Hin2].
      rewrite fmap_app. apply elem_of_app. by left.
    + intros m [Hm|Hm]%elem_of_app.
      * exists mi. split; [apply list_elem_of_here|]. by apply Hnew1.
      * destruct (Hnew2 m Hm) as (mi' & Hmi' & Hrest).
        exists mi'. split; [by apply list_elem_of_further|done].
Qed.

Lemma add_peers_spec entries all :
  ∃ added,
    add_peers all entries = all ++ added ∧
    (∀ peer ms mi, (peer, ms) ∈ entries → mi ∈ ms →
       p2p_id peer (name mi) ∈ id <$> (all ++ added)) ∧
    ∀ m, m ∈ added →
      ∃ peer ms mi, (peer, ms) ∈ entries ∧ mi ∈ ms ∧ isP2P m = true ∧
            peerId m = Some peer ∧ deviceId m = peer ∧
            model_name m = name mi ∧ id m = p2p_id peer (name mi).
Proof.
  unfold add_peers. revert all.
  induction entries as [|[peer ms] entries IH]; intros all.
  - exists []. rewrite app_nil_r. split; [done|]. split.
    + intros peer ms mi Hin. by apply elem_of_nil in Hin.
    + intros m Hm. by apply elem_of_nil in Hm.
  - cbn [fold_left fst snd].
    destruct (add_peer_models_spec peer ms all) as (a1 & -> & Hin1 & Hnew1).
    destruct (IH (all ++ a1)) as (a2 & -> & Hin2 & Hnew2).
    exists (a1 ++ a2). rewrite app_assoc. split; [done|]. split.
    + intros peer' ms' mi [[= -> ->]|Hin]%elem_of_cons Hmi.
      * rewrite fmap_app. apply elem_of_app. left. by apply Hin1.
      * by apply (Hin2 peer' ms').
    + intros m [Hm|Hm]%elem_of_app.
      * destruct (Hnew1 m Hm) as (mi & Hmi & Hrest).
        exists peer, ms, mi. split; [apply list_elem_of_here|done].
      * destruct (Hnew2 m Hm) as (peer' & ms' & mi & Hin & Hrest).
        exists peer', ms', mi. split; [by apply list_elem_of_further|done].
Qed.

Lemma legacy_spec devices m :
  m ∈ legacy devices ↔
  ∃ device names modelName,
    device ∈ devices ∧ isOnline device = true ∧
    device_models device = Some names ∧ modelName ∈ names ∧
    m = {| id := firebase_id (device_id device) modelName;
           model_name := modelName; model_displayName := modelName;
           model_provider := "Remote (Legacy)";
           deviceId := device_id device;
           endpoint := device_endpoint device; isRemote := true;
           apiSecret := device_apiSecret device; isP2P := false;
           peerId := None |}.
Proof.
  unfold legacy. rewrite list_elem_of_In, in_flat_map. split.
  - intros (device & Hd%list_elem_of_In & Hm). unfold legacy_of in Hm.
    destruct (isOnline device) eqn:Hon; [|done]. simpl in Hm.
    destruct (device_models device) as [[|n names]|] eqn:Hms; try done.
    apply in_map_iff in Hm as (modelName & <- & Hn%list_elem_of_In).
    by exists device, (n :: names), modelName.
  - intros (device & names & modelName & Hd & Hon & Hms & Hn & ->).
    exists device. split; [by apply list_elem_of_In|].
    unfold legacy_of. rewrite Hon, Hms. simpl.
    destruct names as [|n names]; [by apply elem_of_nil in Hn|].
    apply in_map_iff. exists modelName. split; [done|].
    by apply list_elem_of_In.
Qed.

Lemma uniqueModels_from all l pre :
  all = pre ++ l →
  let r := omap (λ im : nat * LLMModel,
                   if decide (findIndex im.2 all = Some im.1) then Some im.2
                   else None)
                (imap (λ i m, ((length pre + i)%nat, m)) l) in
  (∀ m, m ∈ r → m ∈ l ∧ id m ∉ id <$> pre) ∧
  NoDup (id <$> r) ∧
  (∀ m, m ∈ l → id m ∈ id <$> pre ∨ id m ∈ id <$> r).
Proof.
  revert pre. induction l as [|x l IH]; intros pre Hall r; subst r.
  - cbn. split; [intros m Hm; by apply elem_of_nil in Hm|].
    split; [constructor|]. intros m Hm. by apply elem_of_nil in Hm.
  - rewrite imap_cons.
    assert (Hshift :
      imap ((λ i m, ((length pre + i)%nat, m)) ∘ S) l
      = imap (λ i m, ((length (pre ++ [x]) + i)%nat, m)) l).
    { apply imap_ext. intros i y _. cbn [compose]. f_equal.
      rewrite length_app. simpl. lia. }
    rewrite Hshift.
    assert (Hall' : all = (pre ++ [x]) ++ l) by (by rewrite <- app_assoc).
    destruct (IH (pre ++ [x]) Hall') as (H1 & H2 & H3).
    cbn [omap list_omap fst snd].
    rewrite Nat.add_0_r.
    assert (Hids : ∀ y, id y ∈ id <$> (pre ++ [x]) ↔
                        id y ∈ id <$> pre ∨ id y = id x).
    { intros y. rewrite fmap_app, elem_of_app. simpl.
      by rewrite list_elem_of_singleton. }
    destruct (decide (id x ∈ id <$> pre)) as [Hseen|Hnew].
    + assert (Hdrop : findIndex x all ≠ Some (length pre)).
      { unfold findIndex. destruct (list_find _ all) as [[i y]|] eqn:Hf; [|done].
        simpl. intros [= ->].
        apply list_find_Some in Hf as (_ & _ & Hfirst).
        apply list_elem_of_fmap in Hseen as (z & Hz & Hin).
        apply list_elem_of_lookup_1 in Hin as (j & Hj).
        apply (Hfirst j z); [|by eapply lookup_lt_Some|done].
        rewrite Hall. by apply lookup_app_l_Some. }
      rewrite decide_False by done.
      split; [|split; [done|]].
      * intros m Hm. destruct (H1 m Hm) as [Hl Hid].
        split; [by apply list_elem_of_further|].
        intros Hp. apply Hid, Hids. by left.
      * intros m [->|Hm]%elem_of_cons; [by left|].
        destruct (H3 m Hm) as [[Hp| ->]%Hids|Hr]; [by left|by left|by right].
    + assert (Hkeep : findIndex x all = Some (length pre)).
      { unfold findIndex.
        assert (Hf : list_find (λ m, id m = id x) all = Some (length pre, x)).
        { apply list_find_Some. split; [|split; [done|]].
          - rewrite Hall. by apply list_lookup_middle.
          - intros j y Hj Hlt Hid. apply Hnew.
            apply list_elem_of_fmap. exists y. split; [done|].
            rewrite Hall, lookup_app_l in Hj by done.
            by eapply list_elem_of_lookup_2. }
        by rewrite Hf. }
      rewrite decide_True by done.
      split; [|split].
      * intros m [->|Hm]%elem_of_cons; [split; [apply list_elem_of_here|done]|].
        destruct (H1 m Hm) as [Hl Hid].
        split; [by apply list_elem_of_further|].
        intros Hp. apply Hid, Hids. by left.
      * rewrite fmap_cons. constructor; [|done].
        intros (m & Hm & Hin)%list_elem_of_fmap.
        destruct (H1 m Hin) as [_ Hid]. apply Hid, Hids. by right.
      * intros m [->|Hm]%elem_of_cons.
        { right. rewrite fmap_cons. apply list_elem_of_here. }
        destruct (H3 m Hm) as [[Hp|Hx]%Hids|Hr]; [by left| |].
        { right. rewrite fmap_cons, Hx. apply list_elem_of_here. }
        { right. rewrite fmap_cons. by apply list_elem_of_further. }
Qed.

Lemma uniqueModels_spec all :
  (∀ m, m ∈ uniqueModels all → m ∈ all) ∧
  NoDup (id <$> uniqueModels all) ∧
  (∀ m, m ∈ all → id m ∈ id <$> uniqueModels all).
Proof.
  destruct (uniqueModels_from all all [] eq_refl) as (H1 & H2 & H3).
  split; [|split; [done|]].
  - intros m Hm. by apply H1.
  - intros m Hm. destruct (H3 m Hm) as [Hp|Hr]; [|done].
    by apply elem_of_nil in Hp.
Qed.

(** X24.  [getModels] returns no two models with the same identifier,
    and every source is represented: for each model name of an online
    device the identifier [firebase_<device>_<name>] is in the result,
    and, when the directory of the peers was read, so is
    [p2p_<peer>_<name>] for each model of each peer.  Every model of the
    result is one of these two kinds: a legacy model of an online device
    with its endpoint and secret, or a P2P model made from an entry of
    the directory. *)
Theorem getModels_unique_and_complete (devices : list Device)
    (entries : option (list (string * list ModelInfo))) :
  let result := getModels devices entries in
  NoDup (id <$> result) ∧
  (∀ device names modelName,
     device ∈ devices → isOnline device = true →
     device_models device = Some names → modelName ∈ names →
     firebase_id (device_id device) modelName ∈ id <$> result) ∧
  (∀ l peer ms mi,
     entries = Some l → (peer, ms) ∈ l → mi ∈ ms →
     p2p_id peer (name mi) ∈ id <$> result) ∧
  (∀ m, m ∈ result →
     (isP2P m = false ∧ m ∈ legacy devices) ∨
     (isP2P m = true ∧
      ∃ l peer ms mi,
        entries = Some l ∧ (peer, ms) ∈ l ∧ mi ∈ ms ∧
        peerId m = Some peer ∧ deviceId m = peer ∧
        model_name m = name mi ∧ id m = p2p_id peer (name mi))).
Proof.
  intros result. subst result. unfold getModels.
  set (all := match entries with
              | Some l => add_peers (legacy devices) l
              | None => legacy devices
              end).
  destruct (uniqueModels_spec all) as (Hsub & Hnodup & Hall).
  assert (Hlegacy : ∀ m, m ∈ legacy devices → m ∈ all).
  { intros m Hm. subst all. destruct entries as [l|]; [|done].
    destruct (add_peers_spec l (legacy devices)) as (added & -> & _).
    apply elem_of_app. by left. }
  split; [done|]. split; [|split].
  - intros device names modelName Hd Hon Hms Hn.
    set (m := {| id := firebase_id (device_id device) modelName;
                 model_name := modelName; model_displayName := modelName;
                 model_provider := "Remote (Legacy)";
                 deviceId := device_id device;
                 endpoint := device_endpoint device; isRemote := true;
                 apiSecret := device_apiSecret device; isP2P := false;
                 peerId := None |}).
    apply (Hall m), Hlegacy, legacy_spec.
    by exists device, names, modelName.
  - intros l peer ms mi -> Hin Hmi. subst all.
    destruct (add_peers_spec l (legacy devices)) as (added & Heq & Hids & _).
    rewrite Heq in *.
    specialize (Hids peer ms mi Hin Hmi).
    apply list_elem_of_fmap in Hids as (m & -> & Hm). by apply Hall.
  - intros m Hm%Hsub. subst all.
    assert (Hleg : m ∈ legacy devices → isP2P m = false ∧ m ∈ legacy devices).
    { intros Hl. split; [|done].
      apply legacy_spec in Hl as (? & ? & ? & _ & _ & _ & _ & ->). done. }
    destruct entries as [l|]; [|left; by apply Hleg].
    destruct (add_peers_spec l (legacy devices)) as (added & Heq & _ & Hnew).
    rewrite Heq in Hm. apply elem_of_app in Hm as [Hm|Hm];
      [left; by apply Hleg|].
    right. destruct (Hnew m Hm) as (peer & ms & mi & Hin & Hmi & Hp & Hrest).
    split; [done|]. by exists l, peer, ms, mi.
Qed.

End WebLLMFacts.

(** * The stored objects are alive *)

Section LiveFacts.
Import P2P Client Reach.
Context `{JsEngine}.

















End LiveFacts.

(** * The further properties on the scenarios *)

Section MoreWitnesses.
Import Turn TurnMore P2P Client WebLLM Scenario Cases.
Import Stdlib.Strings.Ascii.

(** X1 on the hour token. *)
Lemma normalizeIceServers_fixed_point_witness :
  ∃ out, normalizeIceServers (ice_servers hour_token) = Ok out ∧
         Forall no_empty_field out ∧
         normalizeIceServers (IceArray (map as_raw out)) = Ok out.
Proof.
  eexists. split; [reflexivity|].
  exact (proj2 (normalizeIceServers_fixed_point (ice_servers hour_token) _
                  eq_refl)).
Defined.

(** X2 on a fetch that the endpoint answers with status 500. *)
Lemma failed_fetch_is_retried_witness :
  ∃ w w', run boot one_caller = Some w ∧
          step w (Settle 0 1200 server_error) = Some w' ∧
          answers w'
          = [(1%nat, Throw (Error "Failed to fetch TURN token: 500"))] ∧
          fetchPromise (svc w') = None ∧
          requests (call 2 1300 w') = S (requests w').
Proof.
  eexists. eexists. split; [reflexivity|]. split; [reflexivity|].
  destruct (failed_fetch_is_retried one_caller _ _ 0%nat 1200 server_error _
              eq_refl eq_refl eq_refl) as (Ha & _ & _ & Hf & Hnext).
  split; [exact Ha|]. split; [exact Hf|].
  exact (proj2 (Hnext 2%nat 1300 ltac:(lia))).
Defined.

(** X3 on an empty array of servers. *)
Lemma empty_token_is_cached_witness :
  let s' := fst (getTurnServers_own 1000 (Ok empty_token) initial) in
  snd (getTurnServers_own 1000 (Ok empty_token) initial)
  = Throw (Error "No TURN servers returned from signaling server") ∧
  getTurnServers_enter 2000 7 s' = (s', Returned (Ok [])).
Proof.
  destruct (empty_token_is_cached 1000 empty_token initial eq_refl)
    as (Hthrow & _ & Hlater).
  split; [exact Hthrow|]. exact (Hlater 2000 7%nat eq_refl).
Defined.

(** X4 on caller 1's fetch. *)
Lemma clearCache_breaks_single_flight_witness :
  ∃ w, run boot one_caller = Some w ∧
       fetchPromise (svc w) = Some 0%nat ∧
       inflight (call 2 1100 (clear w)) = [0%nat; 1%nat] ∧
       fetchPromise (svc (settle 0 1200 (answered hour_token)
                            (call 2 1100 (clear w)))) = None.
Proof.
  eexists. split; [reflexivity|]. split; [reflexivity|].
  destruct (clearCache_breaks_single_flight one_caller _ 0%nat 2%nat 1100
              eq_refl eq_refl) as (_ & _ & Hin & _ & Hsettle).
  split; [exact Hin|]. exact (proj1 (Hsettle 1200 (answered hour_token))).
Defined.

(** X5 on the run of two callers: callers 1 and 2 have one answer
    each. *)
Lemma every_call_is_answered_witness :
  ∃ w, run boot two_callers = Some w ∧
       callers two_callers = [1%nat; 2%nat] ∧
       waiting w = [] ∧ served w ≡ₚ [1%nat; 2%nat] ∧ NoDup (served w).
Proof.
  eexists. split; [reflexivity|]. split; [reflexivity|].
  destruct (every_call_is_answered two_callers _ eq_refl)
    as (_ & Honce & Hidle).
  destruct (Hidle eq_refl) as (Hwait & Hall).
  split; [exact Hwait|]. split; [exact Hall|].
  refine (Honce _).
  constructor; [|constructor; [|constructor]].
  - intros Hin. apply list_elem_of_singleton in Hin. discriminate Hin.
  - intros Hin. inversion Hin.
Defined.

(** X6 on bob's answer to alice's offer. *)
Lemma signal_reaches_live_object_witness :
  @handleWebRTCSignal engine "bob" answer alice_offering
  = (emit (PeerSignal 0 answer) alice_offering, Done).
Proof.
  eapply (@signal_reaches_live_object engine "bob" answer 0%nat _
            alice_offering);
    [reflexivity|reflexivity|reflexivity|intros H; discriminate H
    |intros _ H; discriminate H].
Defined.

Lemma twin_mid_negotiation :
  mid_negotiation "alice" 0
    {| initiator := true; iceServers := []; destroyed := false;
       connected := false; _pc := Some have_local_offer;
       handlers := Some "alice" |} twin_offering.
Proof.
  split; [reflexivity|]. split; [reflexivity|]. split; [reflexivity|].
  exists have_local_offer. split; reflexivity.
Defined.

(** X7 on two devices that both run as "alice". *)
Lemma equal_identities_never_yield_witness :
  @handle_alone engine "alice" offer (Ok []) twin_offering = twin_offering.
Proof.
  exact (proj1 (@equal_identities_never_yield engine "alice" offer offer
                  0%nat 0%nat _ _ twin_offering twin_offering
                  eq_refl eq_refl twin_mid_negotiation twin_mid_negotiation
                  eq_refl eq_refl (Ok []) (Ok []))).
Defined.

(** X8 on alice's connection to bob. *)
Lemma closePeerConnection_forgets_peer_witness :
  peers (closePeerConnection "bob" alice_offering) !! "bob" = None ∧
  peer_destroyed 0 (closePeerConnection "bob" alice_offering) = true.
Proof.
  destruct (closePeerConnection_forgets_peer "bob" alice_offering)
    as (Hgone & _ & _ & Hdead & _).
  split; [exact Hgone|]. exact (Hdead 0%nat eq_refl).
Defined.

(** X9 on alice's first call. *)
Lemma connectToPeer_creates_initiator_witness :
  ∃ st1, connectToPeer "bob" (fresh (Some "alice")) = (st1, AwaitPeer "bob") ∧
         snd (connectToPeer_resume "bob" (Ok []) st1) = Ok 0%nat ∧
         peers (fst (connectToPeer_resume "bob" (Ok []) st1)) !! "bob"
         = Some 0%nat.
Proof.
  destruct (proj2 (connectToPeer_creates_initiator "bob" []
                     (fresh (Some "alice"))))
    as (st1 & Hcall & _ & _ & Hnew & Hstored & _).
  - intros p Hp. discriminate Hp.
  - exists st1. split; [exact Hcall|]. split; [exact Hnew|exact Hstored].
Defined.

(** X10 on alice's attempt, still negotiating after 15 s. *)
Lemma connect_timeout_closes_witness :
  snd (connect_timeout "bob" 0 alice_offering)
  = Some (Error "Connection timeout") ∧
  peers (fst (connect_timeout "bob" 0 alice_offering)) !! "bob" = None ∧
  peer_destroyed 0 (fst (connect_timeout "bob" 0 alice_offering)) = true.
Proof.
  destruct (proj2 (connect_timeout_closes "bob" 0%nat alice_offering)
              eq_refl eq_refl) as (Hrej & Hgone & _ & _ & Hdead & _).
  split; [exact Hrej|]. split; [exact Hgone|]. exact (Hdead eq_refl).
Defined.

(** X11 on a second [connectToPeer("bob")] while the first object is
    still negotiating. *)
Lemma handlers_follow_the_user_id_witness :
  let st2 := fst (connectToPeer_resume "bob" (Ok [])
                    (fst (connectToPeer "bob" alice_offering))) in
  peers st2 !! "bob" = Some 1%nat ∧
  peer_destroyed 1 (peer_on_error "bob" st2) = true ∧
  peers (peer_on_close "bob" st2) !! "bob" = None.
Proof.
  destruct (handlers_follow_the_user_id "bob" [] 0%nat _ alice_offering
              eq_refl eq_refl eq_refl eq_refl eq_refl)
    as (Hnew & _ & _ & _ & (_ & Hdead & _) & (Hgone & _)).
  split; [exact Hnew|]. split; [exact Hdead|exact Hgone].
Defined.

(** X12 on alice's chat request. *)
Lemma request_settles_once_witness :
  let st2 := P2P.handlePeerMessage "bob" (Response (Some "r1") "hello")
               alice_asked in
  pendingRequests alice_asked !! "r1"
  = Some {| req_peer := "bob"; req_keepAlive := true;
            req_timeout := 120000 |} ∧
  pendingRequests st2 = pendingRequests alice_connected ∧
  request_timeout "r1" st2 = st2.
Proof.
  destruct (request_settles_once "bob" "chat" "r1" 120000 0%nat
              alice_connected eq_refl eq_refl eq_refl eq_refl
              ltac:(discriminate)) as (_ & Hstored & _ & Hreply & _).
  split; [exact Hstored|].
  destruct (Hreply "bob" "hello") as (Htable & _ & Htimer & _).
  split; [exact Htable|exact Htimer].
Defined.

(** X13 on a peer that alice has no connection to. *)
Lemma requestModelsFromPeer_never_fails_witness :
  requestModelsFromPeer "bob" "r1" (start (Some "alice"))
  = (start (Some "alice"), Answered []).
Proof.
  exact (proj1 (requestModelsFromPeer_never_fails "bob" "r1"
                  (start (Some "alice"))) (or_introl eq_refl)).
Defined.

(** X14 on alice's object before its channel opens. *)
Lemma not_connected_iff_unlisted_witness :
  sendRequestToPeer "bob" "chat" "r1" 120000 alice_offering
  = (alice_offering, Throw (Error "Not connected to peer bob")) ∧
  ("bob" ∉ getConnectedPeers alice_offering).
Proof.
  split; [reflexivity|].
  exact (proj2 (proj1 (not_connected_iff_unlisted "bob" "chat" "r1" 120000
                         alice_offering)) eq_refl).
Defined.

(** Alice's open connection to bob is the one stored object. *)
Lemma alice_connected_live : live_entries alice_connected.
Proof.
  intros user p Hp.
  change (peers alice_connected) with (<["bob" := 0%nat]> (∅ : gmap string Ref))
    in Hp.
  apply lookup_insert_Some in Hp as [[<- <-]|[_ Hp]]; [|discriminate Hp].
  eexists. split; [reflexivity|]. split; reflexivity.
Defined.

(** X15 on alice connected to bob: her connection is kept; and on a
    connection to the server that fails. *)
Lemma discoverPeers_keeps_live_peers_witness :
  peers (fst (discoverPeers true alice_connected)) = peers alice_connected ∧
  discoverPeers_resume (Throw (Error "websocket error"))
    (fst (discoverPeers false alice_connected))
  = (fst (discoverPeers false alice_connected),
     Throw (Error "websocket error")).
Proof.
  destruct (discoverPeers_keeps_live_peers alice_connected)
    as (_ & _ & Hnow & _ & _ & _ & _ & _ & Hkept).
  split.
  - rewrite Hnow. exact (proj1 (Hkept alice_connected_live)).
  - exact (proj1 (proj2 (discoverPeers_keeps_live_peers
                           (fst (discoverPeers false alice_connected))))
             (Error "websocket error")).
Defined.

(** X16 on alice with a request outstanding. *)
Lemma disconnect_clears_peers_only_witness :
  peers (core (disconnect true alice_client)) = ∅ ∧
  peer_destroyed 0 (core (disconnect true alice_client)) = true ∧
  pendingRequests (core (disconnect true alice_client))
  = pendingRequests alice_asked.
Proof.
  destruct (disconnect_clears_peers_only true alice_client)
    as (Hempty & _ & _ & _ & Hdead & _ & Hpending & _).
  split; [exact Hempty|]. split; [exact (Hdead "bob" 0%nat eq_refl)|].
  exact Hpending.
Defined.

(** X17 on a drop, the timer and a connection error. *)
Lemma only_disconnects_schedule_reconnects_witness :
  let st' := link_run alice_online
               [Disconnect "transport close"; ReconnectTimer false;
                ConnectError "websocket error"] in
  reconnect_delays (trace st') = [2000] ∧ status st' = error.
Proof.
  destruct (only_disconnects_schedule_reconnects alice_online
              (ConnectError "websocket error"))
    as (_ & _ & Hrun).
  - intros reason H. discriminate H.
  - destruct (Hrun "transport close" false "websocket error"
                ltac:(discriminate) eq_refl) as (Hdelays & Hstatus & _).
    split; [exact Hdelays|exact Hstatus].
Defined.

(** X18 on a drop after a connect. *)
Lemma status_is_last_notified_witness :
  last_status (trace (link_run alice_online [Disconnect "transport close"]))
  = Some disconnected.
Proof.
  destruct (status_is_last_notified alice_online
              [Disconnect "transport close"]) as (_ & _ & Hlast).
  exact (Hlast eq_refl).
Defined.

(** X19 on an empty list for bob. *)
Lemma model_lists_replace_or_ignore_witness :
  on_peer_models_updated "bob" (Some []) None bob_listed = bob_listed ∧
  getAllAvailableModels
    (handlePeerMessage "bob" (ModelsAvailable (Some []) None) bob_listed)
    !! "bob" = Some [].
Proof.
  destruct (model_lists_replace_or_ignore "bob" (Some []) None bob_listed)
    as (Hignored & (Hreplaced & _) & _).
  split; [exact (Hignored eq_refl)|exact Hreplaced].
Defined.

(** X20 on bob leaving. *)
Lemma peer_left_forgets_peer_witness :
  getAllAvailableModels (on_peer_left bob_info alice_client) !! "bob" = None ∧
  peers (core (on_peer_left bob_info alice_client)) !! "bob" = None ∧
  peers (core (on_peer_left bob_info alice_client)) !! "carol"
  = peers (core alice_client) !! "carol" ∧
  pendingRequests (core (on_peer_left bob_info alice_client))
  = pendingRequests alice_asked.
Proof.
  destruct (peer_left_forgets_peer bob_info alice_client)
    as (_ & Hgone & _ & _ & Hmodels & _ & Hothers & Hpending & _).
  split; [exact Hmodels|]. split; [exact Hgone|].
  split; [|exact Hpending].
  exact (proj1 (Hothers "carol" ltac:(discriminate))).
Defined.

(** X21 on bob, listed with a model, and carol, listed without. *)
Lemma existing_peers_request_models_witness :
  let c' := on_existing_peers true [bob_info; carol_info]
              (start (Some "alice")) in
  models_requested (notices c') = ["bob"; "carol"] ∧
  getAllAvailableModels c' !! "carol" = None ∧
  getAllAvailableModels c' !! "bob" = Some [llama].
Proof.
  destruct (existing_peers_request_models true [bob_info; carol_info]
              (start (Some "alice"))) as (Hasked & _ & Hkept & Hset).
  split; [exact Hasked|]. split.
  - apply (Hkept "carol"). intros info Hin Hu.
    apply elem_of_cons in Hin. destruct Hin as [->|Hin]; [discriminate Hu|].
    apply list_elem_of_singleton in Hin. subst info. reflexivity.
  - apply (Hset [] bob_info [carol_info] eq_refl eq_refl).
    intros later Hin Hu. apply list_elem_of_singleton in Hin. subst later.
    discriminate Hu.
Defined.

(** X22 on a host whose identifier holds underscores, and on one whose
    identifier holds none. *)
Lemma chat_model_name_witness :
  ∃ model model',
    hosted_by "device_17_ab" = [model] ∧ hosted_by "bob" = [model'] ∧
    model_name model = "llama3" ∧
    actualModelName model = "17_ab_llama3" ∧
    actualModelName model' = "llama3".
Proof.
  eexists. eexists. split; [reflexivity|]. split; [reflexivity|].
  split; [reflexivity|]. split.
  - refine (proj2 (chat_model_name _ "device_17_ab" "llama3" _)
              "device" "17_ab" eq_refl eq_refl).
    reflexivity.
  - refine (proj2 (proj1 (chat_model_name _ "bob" "llama3" _)) eq_refl).
    reflexivity.
Defined.

(** X23 on an answer of three words. *)
Lemma stream_spells_content_witness :
  tokens (stream true true (Some "Hello brave world"))
  = ["Hello"; " brave"; " world"] ∧
  join "" (tokens (stream true true (Some "Hello brave world")))
  = "Hello brave world" ∧
  ∃ w', " brave" = " " +:+ w' ∧ includes " " w' = false.
Proof.
  destruct (stream_spells_content true "Hello brave world")
    as (Hjoin & Hwords & _).
  split; [reflexivity|]. split; [exact Hjoin|].
  exact (Hwords 1%nat " brave" eq_refl).
Defined.

(** X24 on one device and one peer that offer the same model. *)
Lemma getModels_unique_and_complete_witness :
  let result := getModels [laptop] (Some [("bob", [llama])]) in
  NoDup (id <$> result) ∧
  "firebase_laptop_llama3" ∈ id <$> result ∧
  "p2p_bob_llama3" ∈ id <$> result.
Proof.
  destruct (getModels_unique_and_complete [laptop] (Some [("bob", [llama])]))
    as (Hnodup & Hlegacy & Hp2p & _).
  split; [exact Hnodup|]. split.
  - exact (Hlegacy laptop ["llama3"] "llama3" (list_elem_of_here _ _)
             eq_refl eq_refl (list_elem_of_here _ _)).
  - exact (Hp2p _ "bob" [llama] llama eq_refl (list_elem_of_here _ _)
             (list_elem_of_here _ _)).
Defined.


End MoreWitnesses.
